(** * MLB analysis dashboard: the page logic and the API routes

    A shallow embedding of
    - [mlb-dashboard/src/app/page.tsx], the client component [MLBDashboard]:
      loading, refreshing, the game filter, the top opportunities, the
      tables (modules [Page], [Render], [Client]),
    - the data routes [app/api/data/*/route.ts] (module [DataRoute]), and
    - the update route [POST /api/update] (module [UpdateRoute]),
    and the properties the dashboard's description states for them.  The
    definitions come first, the facts after them.

    Conventions.
    - A JavaScript number is [NaN], an infinity, or a rational ([Q]) that is
      the exact value of the double.  Where text or a literal becomes a
      number ([parseFloat], the constant [1.10]) the value is rounded to
      binary64 ([JS.binary64]): to the nearest double, ties to the even
      significand, overflow to an infinity, underflow to zero.  The numeric
      fields of the decoded JSON rows are finite doubles: [Q].  The page
      only takes the sign of a difference of two such numbers; that sign is
      the sign of the exact difference, so [JS.sub] subtracts exactly.
      Zero carries no sign: nothing the page does tells [-0] from [+0].
    - A JavaScript string is a [string], a sequence of 8-bit characters;
      [===] on strings is [String.eqb] and [<] is the order of
      [String.compare].  On ASCII text this is the code-unit order.
    - An array held by value is a [list]; where in-place mutation of a shared
      array matters (module [Render]) arrays live in a store and are
      designated by references.
    - The rows are typed as the interfaces of [page.tsx] declare them. *)

From Stdlib Require Import List String Ascii Bool Arith ZArith QArith Lia.
From Stdlib Require Import Permutation Sorted OrderedTypeEx Lqa Qround Qpower.
Import ListNotations.

Set Implicit Arguments.

(* ================================================================== *)
(** * JavaScript values and built-ins used by the dashboard *)
(* ================================================================== *)

Module JS.

(** ** Numbers *)

Inductive number : Type :=
| NaN
| Inf (negative : bool)
| Num (q : Q).

(** [x - y] *)
Definition sub (x y : number) : number :=
  match x, y with
  | NaN, _ | _, NaN => NaN
  | Inf s, Inf t => if Bool.eqb s t then NaN else Inf s
  | Inf s, Num _ => Inf s
  | Num _, Inf t => Inf (negb t)
  | Num a, Num b => Num (a - b)
  end.

(** [x !== 0] *)
Definition strictNeqZero (x : number) : bool :=
  match x with
  | NaN | Inf _ => true
  | Num q => negb (Qeq_bool q 0)
  end.

(** [x > y] *)
Definition gt (x y : number) : bool :=
  match x, y with
  | NaN, _ | _, NaN => false
  | Inf s, Inf t => negb s && t
  | Inf s, Num _ => negb s
  | Num _, Inf t => t
  | Num a, Num b => match a ?= b with Gt => true | _ => false end
  end.

(** [x >= y] *)
Definition ge (x y : number) : bool :=
  match x, y with
  | NaN, _ | _, NaN => false
  | Inf s, Inf t => negb s || t
  | Inf s, Num _ => negb s
  | Num _, Inf t => t
  | Num a, Num b => match a ?= b with Lt => false | _ => true end
  end.

(** The sign a comparator result has for [Array.prototype.sort]
    (ECMAScript SortCompare: a [NaN] result counts as [+0]). *)
Definition sortSign (v : number) : comparison :=
  match v with
  | NaN => Eq
  | Inf s => if s then Lt else Gt
  | Num q => q ?= 0
  end.

(** ** The Number value of a real

    A finite double is [m * 2^e] with [|m| < 2^53] and [-1074 <= e <= 971].
    [binary64 q] is the double nearest to [q], a tie going to the even
    significand; a magnitude that rounds up to [2^1024] is an infinity, one
    that rounds down to nothing is zero. *)

(** The integer nearest to [q >= 0], a tie going to the even one. *)
Definition roundHalfEven (q : Q) : Z :=
  let k := Qfloor q in
  match (q - inject_Z k ?= 1 # 2)%Q with
  | Lt => k
  | Gt => (k + 1)%Z
  | Eq => if Z.even k then k else (k + 1)%Z
  end.

(** [floor (log2 q)] for [q > 0]. *)
Definition floorLog2 (q : Q) : Z :=
  let l := (Z.log2 (Qnum q) - Z.log2 (Zpos (Qden q)))%Z in
  if Qle_bool (2 ^ l) q then l else (l - 1)%Z.

(** The exponent of the last place of the doubles around [q > 0]: 53
    significant bits, and no exponent below that of the subnormals. *)
Definition ulpExponent (q : Q) : Z := Z.max (floorLog2 q - 52) (-1074).

(** [q > 0] rounded to a multiple of its last place. *)
Definition nearest (q : Q) : Q :=
  inject_Z (roundHalfEven (q / 2 ^ ulpExponent q)) * 2 ^ ulpExponent q.

Definition binary64 (q : Q) : number :=
  match q ?= 0 with
  | Eq => Num 0
  | Gt => if Qle_bool (2 ^ 1024) (nearest q) then Inf false
          else Num (Qred (nearest q))
  | Lt => if Qle_bool (2 ^ 1024) (nearest (- q)) then Inf true
          else Num (Qred (- nearest (- q)))
  end.

(** ** Values read from an object, [||], and ToNumber *)

Inductive value : Type :=
| VUndefined
| VNumber (n : number)
| VObject.                  (* a function or other object *)

Definition truthy (v : value) : bool :=
  match v with
  | VUndefined => false
  | VNumber NaN => false
  | VNumber (Inf _) => true
  | VNumber (Num q) => negb (Qeq_bool q 0)
  | VObject => true
  end.

(** [a || b] *)
Definition or (a b : value) : value := if truthy a then a else b.

(** ToNumber: [undefined] and the (function) objects met here give [NaN]. *)
Definition toNumber (v : value) : number :=
  match v with
  | VNumber n => n
  | VUndefined | VObject => NaN
  end.

(** Property names every object literal inherits from [Object.prototype]. *)
Definition objectPrototypeKeys : list string :=
  [ "constructor"; "__defineGetter__"; "__defineSetter__"; "hasOwnProperty";
    "__lookupGetter__"; "__lookupSetter__"; "isPrototypeOf";
    "propertyIsEnumerable"; "toString"; "valueOf"; "__proto__";
    "toLocaleString" ]%string.

Definition inb (s : string) (l : list string) : bool :=
  existsb (String.eqb s) l.

(** [obj[key]] for an object literal with the given own numeric properties:
    own property first, then the prototype chain, else [undefined]. *)
Fixpoint getOwn (own : list (string * Q)) (key : string) : option Q :=
  match own with
  | [] => None
  | (k, v) :: rest => if String.eqb key k then Some v else getOwn rest key
  end.

Definition getProperty (own : list (string * Q)) (key : string) : value :=
  match getOwn own key with
  | Some v => VNumber (Num v)
  | None => if inb key objectPrototypeKeys then VObject else VUndefined
  end.

(** ** Arrays held by value *)

(** [arr.slice(0, n)] *)
Definition slice0 {A} (n : nat) (l : list A) : list A := firstn n l.

(** [arr.includes(x)] on strings *)
Definition includes (l : list string) (x : string) : bool := inb x l.

(** ** [Array.prototype.sort(comparefn)]

    The sort is stable.  When the comparator is consistent on the
    elements of the array the standard fixes the outcome: it is the one
    arrangement that is sorted and keeps elements comparing equal in their
    original order ([sort_unique] below), which stable insertion computes.
    For other comparators the order is implementation-defined; what is
    stated below about the order a sort reaches is stated for comparators
    that are consistent on the rows at hand. *)

Section Sort.
Context {A : Type}.
Variable comparefn : A -> A -> number.

(** [x] has to be placed after [y] *)
Definition after (x y : A) : bool :=
  match sortSign (comparefn x y) with Gt => true | _ => false end.

Fixpoint insert (x : A) (l : list A) : list A :=
  match l with
  | [] => [x]
  | y :: l' => if after x y then y :: insert x l' else x :: y :: l'
  end.

Definition sort (l : list A) : list A := fold_right insert [] l.

(** [x] may stay before [y] *)
Definition mayPrecede (x y : A) : Prop := after x y = false.

(** [x] and [y] compare equal both ways *)
Definition tied (x y : A) : bool := negb (after x y) && negb (after y x).

End Sort.

(** ** [Array.from(new Set(arr))] on strings

    A [Set] keeps its members in insertion order; adding a member it already
    has changes nothing. *)

Definition setAdd (members : list string) (x : string) : list string :=
  if inb x members then members else (members ++ [x])%list.

Definition arrayFromNewSet (arr : list string) : list string :=
  fold_left setAdd arr [].

(** ** [arr.sort()] without a comparator, on strings: code-unit order *)

Definition defaultCompare (x y : string) : number :=
  if String.ltb x y then Num (-1)
  else if String.ltb y x then Num 1
  else Num 0.

(** ** [parseFloat]

    Leading white space is skipped, then the longest prefix that is a
    StrDecimalLiteral is read: an optional sign, then [Infinity], or digits
    with an optional fraction and an optional exponent.  No such prefix:
    [NaN].  The decimal read is rounded to the nearest double, whatever the
    number of its digits.  (White space is the ASCII part of
    StrWhiteSpaceChar.) *)

Definition isWhiteSpace (c : ascii) : bool :=
  let n := nat_of_ascii c in
  ((9 <=? n) && (n <=? 13) || (n =? 32))%nat.

Definition isDigit (c : ascii) : bool :=
  let n := nat_of_ascii c in ((48 <=? n) && (n <=? 57))%nat.

Definition digitValue (c : ascii) : Z := Z.of_nat (nat_of_ascii c) - 48.

Fixpoint trimStart (s : string) : string :=
  match s with
  | String c s' => if isWhiteSpace c then trimStart s' else s
  | EmptyString => s
  end.

(** The leading digits of [s] and what follows them. *)
Fixpoint spanDigits (s : string) : list ascii * string :=
  match s with
  | String c s' =>
      if isDigit c then let (ds, rest) := spanDigits s' in (c :: ds, rest)
      else ([], s)
  | EmptyString => ([], s)
  end.

Definition digitsValue (ds : list ascii) : Z :=
  fold_left (fun acc c => 10 * acc + digitValue c)%Z ds 0%Z.

(** An ExponentPart at the head of [s], if there is a complete one. *)
Definition exponentPart (s : string) : Z :=
  match s with
  | String c s' =>
      if (Ascii.eqb c "e" || Ascii.eqb c "E")%char then
        match s' with
        | String "+"%char s'' =>
            match spanDigits s'' with
            | ([], _) => 0
            | (ds, _) => digitsValue ds
            end
        | String "-"%char s'' =>
            match spanDigits s'' with
            | ([], _) => 0
            | (ds, _) => - digitsValue ds
            end
        | _ =>
            match spanDigits s' with
            | ([], _) => 0
            | (ds, _) => digitsValue ds
            end
        end%Z
      else 0%Z
  | EmptyString => 0%Z
  end.

Definition scale (mantissa : Z) (exponent : Z) : Q :=
  inject_Z mantissa * Qpower (inject_Z 10) exponent.

(** StrUnsignedDecimalLiteral at the head of [s]. *)
Definition parseUnsigned (s : string) : option Q :=
  let (intDigits, rest) := spanDigits s in
  match rest with
  | String "."%char rest' =>
      let (fracDigits, rest'') := spanDigits rest' in
      match intDigits, fracDigits with
      | [], [] => None
      | _, _ =>
          Some (scale (digitsValue (intDigits ++ fracDigits)%list)
                      (exponentPart rest'' - Z.of_nat (List.length fracDigits)))
      end
  | _ =>
      match intDigits with
      | [] => None
      | _ => Some (scale (digitsValue intDigits) (exponentPart rest))
      end
  end.

Definition parseMagnitude (negative : bool) (s : string) : number :=
  if String.prefix "Infinity" s then Inf negative
  else match parseUnsigned s with
       | Some q => binary64 (if negative then - q else q)
       | None => NaN
       end.

Definition parseFloat (s : string) : number :=
  match trimStart s with
  | String "-"%char s' => parseMagnitude true s'
  | String "+"%char s' => parseMagnitude false s'
  | s' => parseMagnitude false s'
  end.

End JS.

Open Scope string_scope.
Open Scope list_scope.

(* ================================================================== *)
(** * [page.tsx]: the records and the derived views, by value *)
(* ================================================================== *)

Module PlayerProjection.
Record t : Type := mk {
  PLAYER : string; POS : string; TEAM : string; GAME : string;
  INN : string; K : string; HA : string; ER : string; BBI : string;
  RBI : string; R : string; H : string }.
End PlayerProjection.

Module BatterAnalysis.
Record t : Type := mk {
  PLAYER : string; TEAM : string; GAME : string; POS : string;
  H_PROJECTION : Q; OPTIMAL_ALT_LINE : Q; EDGE : Q; EDGE_PERCENTAGE : Q;
  CONFIDENCE : string; RECOMMENDATION : string }.
End BatterAnalysis.

Module PitcherAnalysis.
Record t : Type := mk {
  PLAYER : string; TEAM : string; GAME : string;
  K_PROJECTION : Q; OPTIMAL_ALT_LINE : Q; EDGE : Q; EDGE_PERCENTAGE : Q;
  CONFIDENCE : string; RECOMMENDATION : string }.
End PitcherAnalysis.

Module Page.

(** [x > 0] on a number read from the decoded JSON *)
Definition positive (x : Q) : bool := JS.gt (JS.Num x) (JS.Num 0).

(** *** Lines 126-130: the selectable games *)
Definition allGames (playerProjections : list PlayerProjection.t)
    (batterAnalysis : list BatterAnalysis.t)
    (pitcherAnalysis : list PitcherAnalysis.t) : list string :=
  JS.sort JS.defaultCompare
    (filter (fun game => negb (game =? "") && negb (game =? "-"))
       (JS.arrayFromNewSet
          (map PlayerProjection.GAME playerProjections
           ++ map BatterAnalysis.GAME batterAnalysis
           ++ map PitcherAnalysis.GAME pitcherAnalysis))).

(** *** Lines 133-143: the collections restricted to the selected games *)
Definition filteredPlayerProjections (selectedGames : list string)
    (playerProjections : list PlayerProjection.t) : list PlayerProjection.t :=
  if (List.length selectedGames =? 0)%nat then playerProjections
  else filter (fun p => JS.includes selectedGames (PlayerProjection.GAME p))
              playerProjections.

Definition filteredBatterAnalysis (selectedGames : list string)
    (batterAnalysis : list BatterAnalysis.t) : list BatterAnalysis.t :=
  if (List.length selectedGames =? 0)%nat then batterAnalysis
  else filter (fun b => JS.includes selectedGames (BatterAnalysis.GAME b))
              batterAnalysis.

Definition filteredPitcherAnalysis (selectedGames : list string)
    (pitcherAnalysis : list PitcherAnalysis.t) : list PitcherAnalysis.t :=
  if (List.length selectedGames =? 0)%nat then pitcherAnalysis
  else filter (fun p => JS.includes selectedGames (PitcherAnalysis.GAME p))
              pitcherAnalysis.

(** *** Lines 147-155 and 511-519: the batter comparator *)
Definition confidenceOrder : list (string * Q) :=
  [("High", 3); ("Medium", 2); ("Low", 1); ("Avoid", 0)]%Q.

(** [confidenceOrder[label] || 0], as the number the subtraction sees *)
Definition confidenceValue (label : string) : JS.number :=
  JS.toNumber (JS.or (JS.getProperty confidenceOrder label)
                     (JS.VNumber (JS.Num 0))).

Definition batterCompare (a b : BatterAnalysis.t) : JS.number :=
  let confidenceDiff :=
    JS.sub (confidenceValue (BatterAnalysis.CONFIDENCE b))
           (confidenceValue (BatterAnalysis.CONFIDENCE a)) in
  if JS.strictNeqZero confidenceDiff then confidenceDiff
  else JS.Num (BatterAnalysis.EDGE_PERCENTAGE b
               - BatterAnalysis.EDGE_PERCENTAGE a).

(** *** Lines 145-156 *)
Definition topBatterOpportunities
    (filteredBatterAnalysis : list BatterAnalysis.t) : list BatterAnalysis.t :=
  JS.slice0 5
    (JS.sort batterCompare
       (filter (fun b => positive (BatterAnalysis.EDGE_PERCENTAGE b))
               filteredBatterAnalysis)).

(** *** Lines 158-161 *)
Definition pitcherCompare (a b : PitcherAnalysis.t) : JS.number :=
  JS.Num (PitcherAnalysis.EDGE_PERCENTAGE b - PitcherAnalysis.EDGE_PERCENTAGE a).

Definition topPitcherOpportunities
    (filteredPitcherAnalysis : list PitcherAnalysis.t) : list PitcherAnalysis.t :=
  JS.slice0 5
    (JS.sort pitcherCompare
       (filter (fun p => (PitcherAnalysis.CONFIDENCE p =? "High")
                         || (PitcherAnalysis.CONFIDENCE p =? "Medium"))
               filteredPitcherAnalysis)).

(** *** Lines 287-318: the summary cards *)
Definition highConfidence (filteredBatterAnalysis : list BatterAnalysis.t)
    (filteredPitcherAnalysis : list PitcherAnalysis.t) : nat :=
  List.length
    (filter (fun confidence => confidence =? "High")
       (map BatterAnalysis.CONFIDENCE filteredBatterAnalysis
        ++ map PitcherAnalysis.CONFIDENCE filteredPitcherAnalysis)).

(** *** Lines 452-464: the projections table *)
Definition hitsOrZero (p : PlayerProjection.t) : JS.number :=
  if negb (PlayerProjection.H p =? "-") then JS.parseFloat (PlayerProjection.H p)
  else JS.Num 0.

Definition projectionCompare (a b : PlayerProjection.t) : JS.number :=
  let aH := hitsOrZero a in
  let bH := hitsOrZero b in
  JS.sub bH aH.

(** The check mark of line 463. *)
Definition flagged (player : PlayerProjection.t) : bool :=
  negb (PlayerProjection.H player =? "-")
  && JS.ge (JS.parseFloat (PlayerProjection.H player)) (JS.binary64 1.10).

(** The table rows: each with its check mark. *)
Definition projectionTable (filteredPlayerProjections : list PlayerProjection.t)
  : list (bool * PlayerProjection.t) :=
  map (fun player => (flagged player, player))
      (JS.slice0 50 (JS.sort projectionCompare filteredPlayerProjections)).

(** *** Lines 510-520 and 574: the two detail tables *)
Definition batterTable (filteredBatterAnalysis : list BatterAnalysis.t)
  : list BatterAnalysis.t :=
  JS.sort batterCompare filteredBatterAnalysis.

Definition pitcherTable (filteredPitcherAnalysis : list PitcherAnalysis.t)
  : list PitcherAnalysis.t :=
  filteredPitcherAnalysis.

End Page.

(* ================================================================== *)
(** * The vocabulary of the description *)
(* ================================================================== *)

Module Spec.

(** The rank of a confidence label: High=3, Medium=2, Low=1, Avoid and any
    other label 0. *)
Definition confidenceRank (label : string) : Z :=
  if label =? "High" then 3
  else if label =? "Medium" then 2
  else if label =? "Low" then 1
  else 0.

(** One batter row ranks no later than another: higher confidence rank, or
    the same rank and an edge percentage at least as large. *)
Definition batterBefore (a b : BatterAnalysis.t) : Prop :=
  (confidenceRank (BatterAnalysis.CONFIDENCE b)
     < confidenceRank (BatterAnalysis.CONFIDENCE a))%Z
  \/ (confidenceRank (BatterAnalysis.CONFIDENCE a)
        = confidenceRank (BatterAnalysis.CONFIDENCE b)
      /\ (BatterAnalysis.EDGE_PERCENTAGE b <= BatterAnalysis.EDGE_PERCENTAGE a)%Q).

(** The confidence label is not the name of a property that every object
    inherits ([constructor], [toString], ...). *)
Definition plainLabel (b : BatterAnalysis.t) : Prop :=
  ~ In (BatterAnalysis.CONFIDENCE b) JS.objectPrototypeKeys.

(** The edge percentage is strictly positive. *)
Definition positiveEdge (b : BatterAnalysis.t) : bool :=
  if Qlt_le_dec 0 (BatterAnalysis.EDGE_PERCENTAGE b) then true else false.

(** Two batter rows with the same rank and the same edge percentage. *)
Definition batterSameKey (a b : BatterAnalysis.t) : bool :=
  (confidenceRank (BatterAnalysis.CONFIDENCE a)
     =? confidenceRank (BatterAnalysis.CONFIDENCE b))%Z
  && Qeq_bool (BatterAnalysis.EDGE_PERCENTAGE a) (BatterAnalysis.EDGE_PERCENTAGE b).

(** Edge percentage descending, for pitcher rows. *)
Definition pitcherBefore (a b : PitcherAnalysis.t) : Prop :=
  (PitcherAnalysis.EDGE_PERCENTAGE b <= PitcherAnalysis.EDGE_PERCENTAGE a)%Q.

(** Two pitcher rows with the same edge percentage. *)
Definition pitcherSameKey (a b : PitcherAnalysis.t) : bool :=
  Qeq_bool (PitcherAnalysis.EDGE_PERCENTAGE a) (PitcherAnalysis.EDGE_PERCENTAGE b).

(** The confidence label is High or Medium. *)
Definition highOrMedium (p : PitcherAnalysis.t) : Prop :=
  PitcherAnalysis.CONFIDENCE p = "High" \/ PitcherAnalysis.CONFIDENCE p = "Medium".

(** The hit count of a projection row: the number the page reads from the
    hit field, the placeholder counting as zero. *)
Definition hitCount (p : PlayerProjection.t) : JS.number :=
  if string_dec (PlayerProjection.H p) "-" then JS.Num 0
  else JS.parseFloat (PlayerProjection.H p).

(** The hit-count field is the placeholder or reads as a number. *)
Definition numericOrPlaceholder (p : PlayerProjection.t) : Prop :=
  PlayerProjection.H p = "-" \/ JS.parseFloat (PlayerProjection.H p) <> JS.NaN.

(** Hit count descending. *)
Definition projectionBefore (a b : PlayerProjection.t) : Prop :=
  JS.ge (hitCount a) (hitCount b) = true.

(** The flagging threshold, the decimal 1.10. *)
Definition hitThreshold : JS.number := JS.Num 1.10.

(** Two projection rows with the same hit count. *)
Definition projectionSameKey (a b : PlayerProjection.t) : bool :=
  JS.ge (hitCount a) (hitCount b) && JS.ge (hitCount b) (hitCount a).

(** [ordered] is [rows] put in the order [before], rows of equal key staying
    in the order they had. *)
Definition orderedBy {A} (before : A -> A -> Prop) (sameKey : A -> A -> bool)
    (rows ordered : list A) : Prop :=
  Permutation ordered rows
  /\ StronglySorted before ordered
  /\ forall x, In x rows -> filter (sameKey x) ordered = filter (sameKey x) rows.

(** The rows of a collection whose game is one of the selected games, in the
    order of the collection. *)
Definition restrictToGames {A} (game : A -> string) (selected : list string)
    (rows : list A) : list A :=
  filter (fun r => if in_dec string_dec (game r) selected then true else false)
         rows.

(** [highOrMedium], decided. *)
Definition isHighOrMedium (p : PitcherAnalysis.t) : bool :=
  if string_dec (PitcherAnalysis.CONFIDENCE p) "High" then true
  else if string_dec (PitcherAnalysis.CONFIDENCE p) "Medium" then true
  else false.

(** Strictly ascending in code-unit (lexicographic) order. *)
Definition lexAscending (l : list string) : Prop :=
  StronglySorted (fun x y => String.ltb x y = true) l.

End Spec.

(* ================================================================== *)
(** * Sample data *)
(* ================================================================== *)

Module Samples.

Definition batterRow (player confidence : string) (edgePercentage : Q)
  : BatterAnalysis.t :=
  BatterAnalysis.mk player "NYY" "NYY @ BOS" "OF" 1.2 0.5 0.7 edgePercentage
                    confidence "OVER 0.5 hits".

Definition pitcherRow (player confidence : string) (edgePercentage : Q)
  : PitcherAnalysis.t :=
  PitcherAnalysis.mk player "BOS" "NYY @ BOS" 6.1 5.5 0.6 edgePercentage
                     confidence "OVER 5.5 strikeouts".

Definition projectionRow (player game hits : string) : PlayerProjection.t :=
  PlayerProjection.mk player "OF" "NYY" game "-" "-" "-" "-" "-" "0.6" "0.7" hits.

(** A row whose label names an inherited property, ahead of a High row. *)
Definition inheritedLabelRow : BatterAnalysis.t := batterRow "A. Judge" "constructor" 10.
Definition highRow : BatterAnalysis.t := batterRow "R. Devers" "High" 8.

End Samples.

(* ================================================================== *)
(** * [page.tsx]: deriving the views over shared arrays *)
(* ================================================================== *)

(** The component holds its three collections as references to arrays.
    [filter] and [slice] make a new array; [sort] reorders the array it is
    called on and returns that same array. *)

Module Render.

(** A reference to an array. *)
Definition ref := nat.

(** A store of arrays of rows of one type; a reference is an index. *)
Definition store (A : Type) := list (list A).

Section Store.
Context {A : Type}.

(** The elements of the array a reference designates. *)
Definition deref (h : store A) (r : ref) : list A := nth r h [].

(** A new array, and the reference to it. *)
Definition alloc (arr : list A) (h : store A) : ref * store A :=
  (List.length h, h ++ [arr]).

(** The array a reference designates gets new elements; the reference and
    every other array stay. *)
Fixpoint assign (r : ref) (arr : list A) (h : store A) : store A :=
  match h, r with
  | [], _ => []
  | _ :: h', O => arr :: h'
  | a :: h', S r' => a :: assign r' arr h'
  end.

(** [arr.filter(f)] *)
Definition arrayFilter (f : A -> bool) (r : ref) (h : store A) : ref * store A :=
  alloc (filter f (deref h r)) h.

(** [arr.sort(comparefn)] *)
Definition arraySort (comparefn : A -> A -> JS.number) (r : ref) (h : store A)
  : ref * store A :=
  (r, assign r (JS.sort comparefn (deref h r)) h).

(** [arr.slice(0, n)] *)
Definition arraySlice0 (n : nat) (r : ref) (h : store A) : ref * store A :=
  alloc (JS.slice0 n (deref h r)) h.

(** [arr.map(...)] as far as the rendered rows go: the elements, in order *)
Definition arrayRead (r : ref) (h : store A) : list A * store A :=
  (deref h r, h).

End Store.

(** One store for each type of row. *)
Record Heap : Type := {
  projections : store PlayerProjection.t;
  batters : store BatterAnalysis.t;
  pitchers : store PitcherAnalysis.t }.

(** What the component holds between renders. *)
Record State : Type := {
  playerProjections : ref;
  batterAnalysis : ref;
  pitcherAnalysis : ref;
  selectedGames : list string }.

(** What one render shows. *)
Record Views : Type := {
  allGames : list string;
  totalPlayers : nat;
  batterOpportunities : nat;
  pitcherOpportunities : nat;
  highConfidence : nat;
  topBatterOpportunities : list BatterAnalysis.t;
  topPitcherOpportunities : list PitcherAnalysis.t;
  projectionRows : list (bool * PlayerProjection.t);
  batterRows : list BatterAnalysis.t;
  pitcherRows : list PitcherAnalysis.t }.

(** Computations over the heap. *)
Definition M (X : Type) : Type := Heap -> X * Heap.

Definition ret {X} (x : X) : M X := fun h => (x, h).

Definition bind {X Y} (m : M X) (k : X -> M Y) : M Y :=
  fun h => let (x, h') := m h in k x h'.

Notation "x <- m ;; k" := (bind m (fun x => k))
  (at level 61, m at next level, right associativity).

Definition onProjections {X}
    (op : store PlayerProjection.t -> X * store PlayerProjection.t) : M X :=
  fun h => let (x, s) := op (projections h) in
           (x, {| projections := s; batters := batters h; pitchers := pitchers h |}).

Definition onBatters {X}
    (op : store BatterAnalysis.t -> X * store BatterAnalysis.t) : M X :=
  fun h => let (x, s) := op (batters h) in
           (x, {| projections := projections h; batters := s; pitchers := pitchers h |}).

Definition onPitchers {X}
    (op : store PitcherAnalysis.t -> X * store PitcherAnalysis.t) : M X :=
  fun h => let (x, s) := op (pitchers h) in
           (x, {| projections := projections h; batters := batters h; pitchers := s |}).

(** Lines 133-143: the state array itself when no game is selected, a new
    array otherwise. *)
Definition filtered {A} (game : A -> string) (selected : list string) (r : ref)
    (h : store A) : ref * store A :=
  if (List.length selected =? 0)%nat then (r, h)
  else arrayFilter (fun x => JS.includes selected (game x)) r h.

(** The body of [MLBDashboard] from line 126 on, in evaluation order. *)
Definition render (st : State) : M Views :=
  games <- (fun h =>
      (Page.allGames (deref (projections h) (playerProjections st))
                     (deref (batters h) (batterAnalysis st))
                     (deref (pitchers h) (pitcherAnalysis st)), h)) ;;
  filteredPlayerProjections <-
    onProjections (filtered PlayerProjection.GAME (selectedGames st)
                            (playerProjections st)) ;;
  filteredBatterAnalysis <-
    onBatters (filtered BatterAnalysis.GAME (selectedGames st)
                        (batterAnalysis st)) ;;
  filteredPitcherAnalysis <-
    onPitchers (filtered PitcherAnalysis.GAME (selectedGames st)
                         (pitcherAnalysis st)) ;;
  (* lines 145-156 *)
  b1 <- onBatters (arrayFilter
          (fun b => Page.positive (BatterAnalysis.EDGE_PERCENTAGE b))
          filteredBatterAnalysis) ;;
  b2 <- onBatters (arraySort Page.batterCompare b1) ;;
  topBatters <- onBatters (arraySlice0 5 b2) ;;
  (* lines 158-161 *)
  p1 <- onPitchers (arrayFilter
          (fun p => (PitcherAnalysis.CONFIDENCE p =? "High")
                    || (PitcherAnalysis.CONFIDENCE p =? "Medium"))
          filteredPitcherAnalysis) ;;
  p2 <- onPitchers (arraySort Page.pitcherCompare p1) ;;
  topPitchers <- onPitchers (arraySlice0 5 p2) ;;
  (* lines 287-318: the summary cards *)
  shownProjections <- onProjections (arrayRead filteredPlayerProjections) ;;
  shownBatters <- onBatters (arrayRead filteredBatterAnalysis) ;;
  shownPitchers <- onPitchers (arrayRead filteredPitcherAnalysis) ;;
  (* the overview tab *)
  topBatterView <- onBatters (arrayRead topBatters) ;;
  topPitcherView <- onPitchers (arrayRead topPitchers) ;;
  (* lines 452-459 *)
  t1 <- onProjections (arraySort Page.projectionCompare filteredPlayerProjections) ;;
  t2 <- onProjections (arraySlice0 50 t1) ;;
  projectionView <- onProjections (arrayRead t2) ;;
  (* lines 510-520 *)
  t3 <- onBatters (arraySort Page.batterCompare filteredBatterAnalysis) ;;
  batterView <- onBatters (arrayRead t3) ;;
  (* line 574 *)
  pitcherView <- onPitchers (arrayRead filteredPitcherAnalysis) ;;
  ret {| allGames := games;
         totalPlayers := List.length shownProjections;
         batterOpportunities := List.length shownBatters;
         pitcherOpportunities := List.length shownPitchers;
         highConfidence := Page.highConfidence shownBatters shownPitchers;
         topBatterOpportunities := topBatterView;
         topPitcherOpportunities := topPitcherView;
         projectionRows :=
           map (fun player => (Page.flagged player, player)) projectionView;
         batterRows := batterView;
         pitcherRows := pitcherView |}.

(** The references of the state designate arrays of the heap. *)
Definition wellFormed (st : State) (h : Heap) : Prop :=
  (playerProjections st < List.length (projections h))%nat
  /\ (batterAnalysis st < List.length (batters h))%nat
  /\ (pitcherAnalysis st < List.length (pitchers h))%nat.

(** The three collections the state holds, by value. *)
Definition heldProjections (st : State) (h : Heap) : list PlayerProjection.t :=
  deref (projections h) (playerProjections st).
Definition heldBatters (st : State) (h : Heap) : list BatterAnalysis.t :=
  deref (batters h) (batterAnalysis st).
Definition heldPitchers (st : State) (h : Heap) : list PitcherAnalysis.t :=
  deref (pitchers h) (pitcherAnalysis st).

End Render.

(** A mounted dashboard: one array per collection, no game selected. *)
Module Mounted.

Definition heap : Render.Heap :=
  {| Render.projections :=
       [[ Samples.projectionRow "A. Judge" "NYY @ BOS" "1.05";
          Samples.projectionRow "G. Cole" "NYY @ BOS" "-";
          Samples.projectionRow "R. Devers" "NYY @ BOS" "2.3" ]];
     Render.batters :=
       [[ Samples.batterRow "A. Judge" "Low" 20;
          Samples.batterRow "R. Devers" "High" 8;
          Samples.batterRow "M. Betts" "High" 12.5 ]];
     Render.pitchers :=
       [[ Samples.pitcherRow "G. Cole" "Medium" 4;
          Samples.pitcherRow "C. Sale" "High" 9 ]] |}.

Definition state : Render.State :=
  {| Render.playerProjections := 0%nat;
     Render.batterAnalysis := 0%nat;
     Render.pitcherAnalysis := 0%nat;
     Render.selectedGames := [] |}.

End Mounted.

(* ================================================================== *)
(** * Exceptions: [try], [catch] *)
(* ================================================================== *)

Module Exn.

(** The outcome of evaluating an expression that may throw. *)
Inductive result (E A : Type) : Type :=
| Returned (a : A)
| Thrown (e : E).
Arguments Returned {E A} a.
Arguments Thrown {E A} e.

Definition bind {E A B} (m : result E A) (k : A -> result E B) : result E B :=
  match m with
  | Returned a => k a
  | Thrown e => Thrown e
  end.

(** [try { body } catch (error) { handler }] where the handler returns *)
Definition tryCatch {E A} (body : result E A) (handler : E -> A) : A :=
  match body with
  | Returned a => a
  | Thrown e => handler e
  end.

End Exn.

(* ================================================================== *)
(** * The data routes: [app/api/data/*/route.ts] *)
(* ================================================================== *)

Module DataRoute.

(** The four routes; they differ in the file they read and in the wording
    of their error. *)
Inductive resource : Type :=
| projections
| batterAnalysis
| pitcherAnalysis
| hitsRunsRbisAnalysis.

(** The arguments of [path.join] after [process.cwd()]. *)
Definition fileSegments (r : resource) : list string :=
  match r with
  | projections => [".."; "data"; "mlb_player_projections.json"]
  | batterAnalysis => [".."; "analysis"; "batter_hits_analysis.json"]
  | pitcherAnalysis => [".."; "analysis"; "pitcher_strikeout_analysis.json"]
  | hitsRunsRbisAnalysis => [".."; "analysis"; "hits_runs_rbis_analysis.json"]
  end.

Definition errorText (r : resource) : string :=
  match r with
  | projections => "Failed to load projections data"
  | batterAnalysis => "Failed to load batter analysis data"
  | pitcherAnalysis => "Failed to load pitcher analysis data"
  | hitsRunsRbisAnalysis => "Failed to load hits runs rbis analysis data"
  end.

(** What can be thrown inside the handler. *)
Inductive error : Type :=
| SystemError (code : string)     (* ENOENT, EACCES, EISDIR, EIO, ... *)
| SyntaxError.

(** A path is the list of the segments joined; a file system tells, for a
    path, the text of the file or the error reading it raises. *)
Definition path := list string.
Definition fileSystem := path -> Exn.result error string.

Section Handler.
(** The decoded JSON values, and [JSON.parse]: it returns the value the whole
    text denotes or fails. *)
Variable json : Type.
Variable parse : string -> option json.

Inductive body : Type :=
| Data (data : json)
| ErrorPayload (error : string).

Record response : Type := { status : nat; payload : body }.

Definition pathJoin (cwd : path) (segments : list string) : path :=
  cwd ++ segments.

Definition readFileSync (fs : fileSystem) (filePath : path)
  : Exn.result error string :=
  fs filePath.

Definition JSONparse (text : string) : Exn.result error json :=
  match parse text with
  | Some data => Exn.Returned data
  | None => Exn.Thrown SyntaxError
  end.

(** [NextResponse.json(data)] and [NextResponse.json(data, { status })] *)
Definition NextResponseJson (data : body) (status : option nat) : response :=
  {| status := match status with Some s => s | None => 200%nat end;
     payload := data |}.

Definition GET (r : resource) (cwd : path) (fs : fileSystem) : response :=
  Exn.tryCatch
    (let filePath := pathJoin cwd (fileSegments r) in
     Exn.bind (readFileSync fs filePath) (fun fileContents =>
     Exn.bind (JSONparse fileContents) (fun data =>
     Exn.Returned (NextResponseJson (Data data) None))))
    (fun _ =>
       NextResponseJson (ErrorPayload (errorText r)) (Some 500%nat)).

End Handler.

End DataRoute.

(* ================================================================== *)
(** * The update route: [POST /api/update] *)
(* ================================================================== *)

Module UpdateRoute.

(** What the child process makes the handler see, in order. *)
Inductive event : Type :=
| StdoutData (data : string)
| StderrData (data : string)
| Close (code : option Z)          (* [null] when a signal ended the child *)
| Error (message : string).        (* the child could not be spawned *)

Record body : Type := {
  success : bool;
  message : string;
  error : option string;
  output : option string }.

Record response : Type := { status : nat; payload : body }.

(** The variables of the promise's executor, and the promise itself:
    settled at most once. *)
Record handler : Type := {
  stdout : string;
  stderr : string;
  settled : option response }.

Definition resolve (r : response) (s : handler) : handler :=
  match settled s with
  | Some _ => s
  | None => {| stdout := stdout s; stderr := stderr s; settled := Some r |}
  end.

Definition on (s : handler) (e : event) : handler :=
  match e with
  | StdoutData data =>
      {| stdout := stdout s ++ data; stderr := stderr s; settled := settled s |}
  | StderrData data =>
      {| stdout := stdout s; stderr := stderr s ++ data; settled := settled s |}
  | Close code =>
      match code with
      | Some 0%Z =>
          resolve {| status := 200;
                     payload := {| success := true;
                                   message := "Data update completed successfully";
                                   error := None;
                                   output := Some (stdout s) |} |} s
      | _ =>
          resolve {| status := 500;
                     payload := {| success := false;
                                   message := "Data update failed";
                                   error := Some (stderr s);
                                   output := Some (stdout s) |} |} s
      end
  | Error msg =>
      resolve {| status := 500;
                 payload := {| success := false;
                               message := "Failed to start update process";
                               error := Some msg;
                               output := None |} |} s
  end.

(** What is thrown before the promise exists ([process.cwd()] failing). *)
Inductive thrown : Type :=
| ErrorObject (message : string)
| OtherValue.

(** The response, if the promise settles. *)
Definition POST (cwd : Exn.result thrown (list string)) (events : list event)
  : option response :=
  Exn.tryCatch
    (Exn.bind cwd (fun _ =>
     Exn.Returned
       (settled (fold_left on events
                   {| stdout := ""; stderr := ""; settled := None |}))))
    (fun error =>
       Some {| status := 500;
               payload := {| success := false;
                             message := "Internal server error";
                             error := Some match error with
                                           | ErrorObject m => m
                                           | OtherValue => "Unknown error"
                                           end;
                             output := None |} |}).

(** The chunks a child wrote before it ended: which stream, what text. *)
Inductive stream : Type := Out | Err.

Definition written (chunk : stream * string) : event :=
  match chunk with
  | (Out, data) => StdoutData data
  | (Err, data) => StderrData data
  end.

Fixpoint captured (which : stream) (chunks : list (stream * string)) : string :=
  match chunks with
  | [] => ""
  | (s, data) :: rest =>
      match which, s with
      | Out, Out | Err, Err => data ++ captured which rest
      | _, _ => captured which rest
      end
  end.

End UpdateRoute.

(** A data root where only the projections file exists, and a decoder that
    knows the empty array only. *)
Module Disk.

Definition cwd : DataRoute.path := ["srv"; "mlb-tool"; "mlb-dashboard"].

Definition parse (text : string) : option (list PlayerProjection.t) :=
  if text =? "[]" then Some [] else None.

Definition fs : DataRoute.fileSystem :=
  fun p =>
    if list_eq_dec string_dec p
         (cwd ++ [".."; "data"; "mlb_player_projections.json"])
    then Exn.Returned "[]"
    else Exn.Thrown (DataRoute.SystemError "ENOENT").

End Disk.

(* ================================================================== *)
(** * [page.tsx]: [loadData] and [refreshData] *)
(* ================================================================== *)

Module Client.

(** What [await fetch(url)] and then [await response.json()] meet. *)
Inductive fetched (A : Type) : Type :=
| NetworkError                              (* [fetch] rejects *)
| Response (ok : bool) (json : option A).   (* [None]: the body is not JSON *)
Arguments NetworkError {A}.
Arguments Response {A} ok json.

(** The decoded body of the update route's answer. *)
Inductive updateResult : Type :=
| Null
| Object (success : bool) (message : string).

(** The network and the clock, as one call of [loadData] or [refreshData]
    finds them. *)
Record environment : Type := {
  projectionsRoute : fetched (list PlayerProjection.t);
  batterRoute : fetched (list BatterAnalysis.t);
  pitcherRoute : fetched (list PitcherAnalysis.t);
  updateRoute : fetched updateResult;
  now : string }.

(** The component state (the [useState] cells). *)
Record State : Type := {
  playerProjections : list PlayerProjection.t;
  batterAnalysis : list BatterAnalysis.t;
  pitcherAnalysis : list PitcherAnalysis.t;
  loading : bool;
  updating : bool;
  lastUpdated : string;
  selectedGames : list string }.

Definition initial : State :=
  {| playerProjections := []; batterAnalysis := []; pitcherAnalysis := [];
     loading := true; updating := false; lastUpdated := "";
     selectedGames := [] |}.

(** What the outside sees, in order. *)
Inductive effect : Type :=
| Requested (method url : string)
| Alerted (text : string)
| ConsoleLog (text : string)
| ConsoleError (text : string)
| SetLoading (b : bool)
| SetUpdating (b : bool)
| SetPlayerProjections
| SetBatterAnalysis
| SetPitcherAnalysis
| SetLastUpdated.

Record world : Type := { state : State; trace : list effect }.

Inductive exn : Type :=
| FetchFailed
| BodyNotJson
| PropertyOfNull.

(** An asynchronous function body: it runs on a world and returns or
    throws. *)
Definition Eff (A : Type) : Type := world -> Exn.result exn A * world.

Definition ret {A} (a : A) : Eff A := fun w => (Exn.Returned a, w).

Definition throw {A} (e : exn) : Eff A := fun w => (Exn.Thrown e, w).

Definition bind {A B} (m : Eff A) (k : A -> Eff B) : Eff B :=
  fun w => match m w with
           | (Exn.Returned a, w') => k a w'
           | (Exn.Thrown e, w') => (Exn.Thrown e, w')
           end.

Notation "x <- m ;; k" := (bind m (fun x => k))
  (at level 61, m at next level, right associativity).
Notation "m ;; k" := (bind m (fun _ => k))
  (at level 61, right associativity).

(** [try { body } catch (error) { handler } finally { finalizer }] *)
Definition tryCatchFinally (body : Eff unit) (handler : exn -> Eff unit)
    (finalizer : Eff unit) : Eff unit :=
  fun w =>
    let (r, w1) := match body w with
                   | (Exn.Returned a, w') => (Exn.Returned a, w')
                   | (Exn.Thrown e, w') => handler e w'
                   end in
    match finalizer w1 with
    | (Exn.Returned _, w2) => (r, w2)
    | (Exn.Thrown e, w2) => (Exn.Thrown e, w2)
    end.

Definition emit (e : effect) : Eff unit :=
  fun w => (Exn.Returned tt, {| state := state w; trace := trace w ++ [e] |}).

Definition modify (f : State -> State) : Eff unit :=
  fun w => (Exn.Returned tt, {| state := f (state w); trace := trace w |}).

(** The setters. *)
Definition setPlayerProjections (v : list PlayerProjection.t) : Eff unit :=
  emit SetPlayerProjections ;;
  modify (fun s =>
    {| playerProjections := v; batterAnalysis := batterAnalysis s;
       pitcherAnalysis := pitcherAnalysis s; loading := loading s;
       updating := updating s; lastUpdated := lastUpdated s;
       selectedGames := selectedGames s |}).

Definition setBatterAnalysis (v : list BatterAnalysis.t) : Eff unit :=
  emit SetBatterAnalysis ;;
  modify (fun s =>
    {| playerProjections := playerProjections s; batterAnalysis := v;
       pitcherAnalysis := pitcherAnalysis s; loading := loading s;
       updating := updating s; lastUpdated := lastUpdated s;
       selectedGames := selectedGames s |}).

Definition setPitcherAnalysis (v : list PitcherAnalysis.t) : Eff unit :=
  emit SetPitcherAnalysis ;;
  modify (fun s =>
    {| playerProjections := playerProjections s;
       batterAnalysis := batterAnalysis s; pitcherAnalysis := v;
       loading := loading s; updating := updating s;
       lastUpdated := lastUpdated s; selectedGames := selectedGames s |}).

Definition setLoading (v : bool) : Eff unit :=
  emit (SetLoading v) ;;
  modify (fun s =>
    {| playerProjections := playerProjections s;
       batterAnalysis := batterAnalysis s;
       pitcherAnalysis := pitcherAnalysis s; loading := v;
       updating := updating s; lastUpdated := lastUpdated s;
       selectedGames := selectedGames s |}).

Definition setUpdating (v : bool) : Eff unit :=
  emit (SetUpdating v) ;;
  modify (fun s =>
    {| playerProjections := playerProjections s;
       batterAnalysis := batterAnalysis s;
       pitcherAnalysis := pitcherAnalysis s; loading := loading s;
       updating := v; lastUpdated := lastUpdated s;
       selectedGames := selectedGames s |}).

Definition setLastUpdated (v : string) : Eff unit :=
  emit SetLastUpdated ;;
  modify (fun s =>
    {| playerProjections := playerProjections s;
       batterAnalysis := batterAnalysis s;
       pitcherAnalysis := pitcherAnalysis s; loading := loading s;
       updating := updating s; lastUpdated := v;
       selectedGames := selectedGames s |}).

(** [await fetch(url, { method })]: the response, or a rejection. *)
Definition fetch {A} (method url : string) (route : fetched A)
  : Eff (bool * option A) :=
  emit (Requested method url) ;;
  match route with
  | NetworkError => throw FetchFailed
  | Response ok json => ret (ok, json)
  end.

(** [await response.json()] *)
Definition json {A} (response : bool * option A) : Eff A :=
  match snd response with
  | Some v => ret v
  | None => throw BodyNotJson
  end.

Section Calls.
Variable env : environment.

(** Lines 60-90. *)
Definition loadData : Eff unit :=
  setLoading true ;;
  tryCatchFinally
    (projectionsResponse <- fetch "GET" "/api/data/projections" (projectionsRoute env) ;;
     (if fst projectionsResponse
      then projections <- json projectionsResponse ;;
           setPlayerProjections projections
      else ret tt) ;;
     batterResponse <- fetch "GET" "/api/data/batter-analysis" (batterRoute env) ;;
     (if fst batterResponse
      then batters <- json batterResponse ;;
           setBatterAnalysis batters
      else ret tt) ;;
     pitcherResponse <- fetch "GET" "/api/data/pitcher-analysis" (pitcherRoute env) ;;
     (if fst pitcherResponse
      then pitchers <- json pitcherResponse ;;
           setPitcherAnalysis pitchers
      else ret tt) ;;
     setLastUpdated (now env))
    (fun error => emit (ConsoleError "Error loading data:"))
    (setLoading false).

(** [result.success] and [result.message]: reading a property of [null]
    throws. *)
Definition successOf (result : updateResult) : Eff bool :=
  match result with
  | Null => throw PropertyOfNull
  | Object success _ => ret success
  end.

Definition messageOf (result : updateResult) : Eff string :=
  match result with
  | Null => throw PropertyOfNull
  | Object _ message => ret message
  end.

(** Lines 92-119. *)
Definition refreshData : Eff unit :=
  setUpdating true ;;
  tryCatchFinally
    (emit (ConsoleLog "Starting data refresh...") ;;
     response <- fetch "POST" "/api/update" (updateRoute env) ;;
     result <- json response ;;
     success <- successOf result ;;
     if success
     then message <- messageOf result ;;
          emit (ConsoleLog "Data update successful:") ;;
          loadData
     else message <- messageOf result ;;
          emit (ConsoleError "Data update failed:") ;;
          emit (Alerted ("Data update failed: " ++ message)))
    (fun error =>
       emit (ConsoleError "Error updating data:") ;;
       emit (Alerted "Error updating data. Please try again."))
    (setUpdating false).

End Calls.

End Client.

(* ================================================================== *)
(** * The vocabulary of the description: loading and refreshing *)
(* ================================================================== *)

Module LoadSpec.

(** A route answers OK with a body that decodes. *)
Definition healthy {A} (route : Client.fetched A) (data : A) : Prop :=
  route = Client.Response true (Some data).

(** The three fetches are independent: a healthy route populates its
    collection whatever happens to the other two, and the time is stamped. *)
Definition independent (env : Client.environment) (after : Client.State) : Prop :=
  (forall data, healthy (Client.projectionsRoute env) data ->
                Client.playerProjections after = data)
  /\ (forall data, healthy (Client.batterRoute env) data ->
                   Client.batterAnalysis after = data)
  /\ (forall data, healthy (Client.pitcherRoute env) data ->
                   Client.pitcherAnalysis after = data)
  /\ Client.lastUpdated after = Client.now env.

(** The fetch, or the decoding of an OK answer, throws. *)
Definition raises {A} (route : Client.fetched A) : bool :=
  match route with
  | Client.NetworkError => true
  | Client.Response true None => true
  | Client.Response _ _ => false
  end.

(** The collection after a fetch that is reached: the decoded body of an OK
    answer, else what it was. *)
Definition delivered {A} (route : Client.fetched A) (previous : A) : A :=
  match route with
  | Client.Response true (Some data) => data
  | _ => previous
  end.

(** The URLs requested, in order. *)
Fixpoint requests (t : list Client.effect) : list string :=
  match t with
  | [] => []
  | Client.Requested _ url :: t' => url :: requests t'
  | _ :: t' => requests t'
  end.

(** The alerts shown, in order. *)
Fixpoint alerts (t : list Client.effect) : list string :=
  match t with
  | [] => []
  | Client.Alerted text :: t' => text :: alerts t'
  | _ :: t' => alerts t'
  end.

Definition sameCollections (s s' : Client.State) : Prop :=
  Client.playerProjections s' = Client.playerProjections s
  /\ Client.batterAnalysis s' = Client.batterAnalysis s
  /\ Client.pitcherAnalysis s' = Client.pitcherAnalysis s.

(** The answer of the update route does not report success: a transport
    error, a body that is not JSON, [null], or [success] false. *)
Definition refreshFails (route : Client.fetched Client.updateResult)
  : option string :=
  match route with
  | Client.Response _ (Some (Client.Object true _)) => None
  | Client.Response _ (Some (Client.Object false message)) =>
      Some ("Data update failed: " ++ message)%string
  | _ => Some "Error updating data. Please try again."
  end.

(** The world in which [loadData] starts when the update succeeded. *)
Definition refreshing (w : Client.world) : Client.world :=
  {| Client.state := Client.state (snd (Client.setUpdating true w));
     Client.trace :=
       Client.trace w
       ++ [Client.SetUpdating true;
           Client.ConsoleLog "Starting data refresh...";
           Client.Requested "POST" "/api/update";
           Client.ConsoleLog "Data update successful:"] |}.

End LoadSpec.

(** A network where the projections request fails in transport while the
    two analysis routes are in order. *)
Module Outage.

Definition env : Client.environment :=
  {| Client.projectionsRoute := Client.NetworkError;
     Client.batterRoute := Client.Response true (Some [Samples.highRow]);
     Client.pitcherRoute :=
       Client.Response true (Some [Samples.pitcherRow "G. Cole" "High" 9]);
     Client.updateRoute := Client.Response false
                             (Some (Client.Object false "Data update failed"));
     Client.now := "11/2/2026, 10:00:00 AM" |}.

Definition start : Client.world :=
  {| Client.state := Client.initial; Client.trace := [] |}.

End Outage.

(** The answer of the update route as the page's [fetch] receives it. *)
Module Http.

Definition transport (r : UpdateRoute.response) : Client.fetched Client.updateResult :=
  Client.Response
    ((200 <=? UpdateRoute.status r) && (UpdateRoute.status r <=? 299))%nat
    (Some (Client.Object (UpdateRoute.success (UpdateRoute.payload r))
                         (UpdateRoute.message (UpdateRoute.payload r)))).

End Http.

(* ================================================================== *)
(** * [page.tsx]: the game filter's handlers *)
(* ================================================================== *)

Module Selection.

(** Lines 163-177.  The updater passed to [setSelectedGames] is applied to
    the selection held. *)
Definition handleGameFilterChange (game : string) (prev : list string)
  : list string :=
  if game =? "all" then []
  else if JS.includes prev game
       then filter (fun g => negb (g =? game)) prev
       else prev ++ [game].

(** Lines 179-181. *)
Definition handleSelectAllGames (prev : list string) : list string := [].

(** Lines 183-185. *)
Definition handleClearSelection (prev : list string) : list string := [].

(** What the drop-down offers (lines 218-259): the "All Games" entry, one
    entry for each game of [allGames], and "Clear Selection", shown while a
    game is selected. *)
Inductive click : Type :=
| AllGames
| Game (game : string)
| ClearSelection.

Definition offered (games selected : list string) (c : click) : Prop :=
  match c with
  | AllGames => True
  | Game game => In game games
  | ClearSelection => (List.length selected > 0)%nat
  end.

Definition onClick (c : click) (selected : list string) : list string :=
  match c with
  | AllGames => handleSelectAllGames selected
  | Game game => handleGameFilterChange game selected
  | ClearSelection => handleClearSelection selected
  end.

(** The selections a user reaches from the initial one (line 58) by clicks
    on what is offered, the games staying as they are. *)
Inductive reachable (games : list string) : list string -> Prop :=
| reach_initial : reachable games []
| reach_click (selected : list string) (c : click) :
    reachable games selected -> offered games selected c ->
    reachable games (onClick c selected).

End Selection.

(* ================================================================== *)
(** * [lib/utils.ts]: the badge colours *)
(* ================================================================== *)

Module Utils.

(** [String.prototype.toLowerCase], on the ASCII letters. *)
Definition lowerChar (c : ascii) : ascii :=
  let n := nat_of_ascii c in
  if ((65 <=? n) && (n <=? 90))%nat then ascii_of_nat (n + 32) else c.

Fixpoint toLowerCase (s : string) : string :=
  match s with
  | EmptyString => EmptyString
  | String c s' => String (lowerChar c) (toLowerCase s')
  end.

(** [String.prototype.includes]: [sub] occurs in [s]. *)
Fixpoint includes (s sub : string) : bool :=
  String.prefix sub s
  || match s with
     | EmptyString => false
     | String _ s' => includes s' sub
     end.

(** Lines 16-27. *)
Definition getConfidenceBadgeColor (confidence : string) : string :=
  let switch := toLowerCase confidence in
  if switch =? "high" then "bg-green-100 text-green-800 border-green-200"
  else if switch =? "medium" then "bg-yellow-100 text-yellow-800 border-yellow-200"
  else if switch =? "low" then "bg-red-100 text-red-800 border-red-200"
  else "bg-gray-100 text-gray-800 border-gray-200".

(** Lines 29-36. *)
Definition getRecommendationColor (recommendation : string) : string :=
  if includes (toLowerCase recommendation) "over"
  then "bg-blue-100 text-blue-800 border-blue-200"
  else if includes (toLowerCase recommendation) "under"
  then "bg-purple-100 text-purple-800 border-purple-200"
  else "bg-gray-100 text-gray-800 border-gray-200".

End Utils.

(* ================================================================== *)
(** * [page.tsx]: rendering again *)
(* ================================================================== *)

Module Rerender.

(** The heap after the component, its state unchanged, has rendered [n]
    times. *)
Fixpoint renders (n : nat) (st : Render.State) (h : Render.Heap) : Render.Heap :=
  match n with
  | O => h
  | S n' => renders n' st (snd (Render.render st h))
  end.

End Rerender.

(** The vocabulary for the update route's answers. *)
Module UpdateSpec.

(** The event ends the child: [close] or [error]. *)
Definition ends (e : UpdateRoute.event) : bool :=
  match e with
  | UpdateRoute.Close _ | UpdateRoute.Error _ => true
  | _ => false
  end.

(** A well-formed answer: success with status 200, the output and no error,
    or failure with status 500 and an error text. *)
Definition coherent (r : UpdateRoute.response) : Prop :=
  (UpdateRoute.success (UpdateRoute.payload r) = true
   /\ UpdateRoute.status r = 200%nat
   /\ UpdateRoute.error (UpdateRoute.payload r) = None
   /\ UpdateRoute.output (UpdateRoute.payload r) <> None)
  \/ (UpdateRoute.success (UpdateRoute.payload r) = false
      /\ UpdateRoute.status r = 500%nat
      /\ UpdateRoute.error (UpdateRoute.payload r) <> None).

End UpdateSpec.

(** The vocabulary for the badges. *)
Module BadgeSpec.

(** [sub] occurs somewhere in [s]. *)
Definition occurs (sub s : string) : Prop :=
  exists pre post : string, s = (pre ++ sub ++ post)%string.

Definition blue : string := "bg-blue-100 text-blue-800 border-blue-200".
Definition purple : string := "bg-purple-100 text-purple-800 border-purple-200".
Definition gray : string := "bg-gray-100 text-gray-800 border-gray-200".

End BadgeSpec.

(** The answer of a data route as the page's [fetch] receives it.  The
    body of an error answer is an object with an [error] field, not a
    collection; the page never reads it, the answer not being OK. *)
Module Wire.

Definition served {A} (r : DataRoute.response A) : Client.fetched A :=
  Client.Response
    ((200 <=? DataRoute.status r) && (DataRoute.status r <=? 299))%nat
    (match DataRoute.payload r with
     | DataRoute.Data data => Some data
     | DataRoute.ErrorPayload _ _ => None
     end).

(** The page in front of the three data routes of one server. *)
Definition environment
    (parseProjections : string -> option (list PlayerProjection.t))
    (parseBatters : string -> option (list BatterAnalysis.t))
    (parsePitchers : string -> option (list PitcherAnalysis.t))
    (cwd : DataRoute.path) (fs : DataRoute.fileSystem)
    (update : Client.fetched Client.updateResult) (clock : string)
  : Client.environment :=
  {| Client.projectionsRoute :=
       served (DataRoute.GET parseProjections DataRoute.projections cwd fs);
     Client.batterRoute :=
       served (DataRoute.GET parseBatters DataRoute.batterAnalysis cwd fs);
     Client.pitcherRoute :=
       served (DataRoute.GET parsePitchers DataRoute.pitcherAnalysis cwd fs);
     Client.updateRoute := update;
     Client.now := clock |}.

(** What a file gives: its decoded content, or nothing when it cannot be
    read or parsed. *)
Definition decoded {A} (parse : string -> option A) (cwd : DataRoute.path)
    (fs : DataRoute.fileSystem) (r : DataRoute.resource) : option A :=
  match fs (cwd ++ DataRoute.fileSegments r) with
  | Exn.Returned text => parse text
  | Exn.Thrown _ => None
  end.

Definition orPrevious {A} (o : option A) (previous : A) : A :=
  match o with
  | Some data => data
  | None => previous
  end.

End Wire.

(* ================================================================== *)
(** * Facts about the sort *)
(* ================================================================== *)

Section SortFacts.
Context {A : Type}.
Variable cmp : A -> A -> JS.number.

Local Abbreviation after := (JS.after cmp).
Local Abbreviation R := (JS.mayPrecede cmp).
Local Abbreviation sort := (JS.sort cmp).
Local Abbreviation insert := (JS.insert cmp).

Lemma insert_perm (x : A) (l : list A) : Permutation (insert x l) (x :: l).
Proof.
  induction l as [|y l IH]; simpl.
  - apply Permutation_refl.
  - destruct (after x y).
    + apply perm_trans with (y :: x :: l).
      * now apply perm_skip.
      * apply perm_swap.
    + apply Permutation_refl.
Qed.

Lemma sort_perm (l : list A) : Permutation (sort l) l.
Proof.
  induction l as [|x l IH]; simpl.
  - apply perm_nil.
  - eapply perm_trans; [apply insert_perm|]. now apply perm_skip.
Qed.

Lemma sort_In (l : list A) (x : A) : In x (sort l) <-> In x l.
Proof.
  split; apply Permutation_in;
    [apply sort_perm | apply Permutation_sym, sort_perm].
Qed.

Lemma sort_Forall (P : A -> Prop) (l : list A) : Forall P l -> Forall P (sort l).
Proof.
  rewrite !Forall_forall. intros H x Hx. apply H. now apply sort_In.
Qed.

Lemma sort_length (l : list A) : List.length (sort l) = List.length l.
Proof. apply Permutation_length, sort_perm. Qed.

(** A list that is already in order is left as it is. *)
Lemma insert_front (x : A) (l : list A) : Forall (R x) l -> insert x l = x :: l.
Proof.
  destruct l as [|y l]; simpl; [reflexivity|].
  intros H. inversion H as [|? ? Hy _]; subst.
  unfold JS.mayPrecede in Hy. now rewrite Hy.
Qed.

Lemma sort_sorted_id (l : list A) : StronglySorted R l -> sort l = l.
Proof.
  induction 1 as [|x l Hs IH Hx]; simpl; [reflexivity|].
  rewrite IH. now apply insert_front.
Qed.

(** The comparator is consistent on the elements that satisfy [ok]. *)
Variable ok : A -> Prop.
Hypothesis ok_total :
  forall x y, ok x -> ok y -> after x y = true -> after y x = false.
Hypothesis ok_trans :
  forall x y z, ok x -> ok y -> ok z -> R x y -> R y z -> R x z.

Lemma sorted_head_all (x y : A) (l : list A) :
  ok x -> Forall ok (y :: l) -> R x y -> StronglySorted R (y :: l) ->
  Forall (R x) (y :: l).
Proof.
  intros Hx Hok Hxy Hs.
  inversion Hs as [|? ? _ Hy]; subst.
  inversion Hok as [|? ? Hoky Hokl]; subst.
  constructor; [assumption|].
  rewrite Forall_forall in *. intros z Hz.
  apply ok_trans with y; auto.
Qed.

Lemma insert_sorted (x : A) (l : list A) :
  ok x -> Forall ok l -> StronglySorted R l -> StronglySorted R (insert x l).
Proof.
  intros Hx. induction l as [|y l IH]; intros Hok Hs; simpl.
  - repeat constructor.
  - inversion Hok as [|? ? Hoky Hokl]; subst.
    destruct (after x y) eqn:E.
    + inversion Hs as [|? ? Hs' Hy]; subst.
      constructor; [now apply IH|].
      rewrite Forall_forall in *. intros z Hz.
      apply (Permutation_in _ (insert_perm x l)) in Hz.
      destruct Hz as [<-|Hz]; [|now apply Hy].
      now apply ok_total.
    + constructor; [assumption|].
      now apply sorted_head_all.
Qed.

Lemma sort_sorted (l : list A) : Forall ok l -> StronglySorted R (sort l).
Proof.
  induction 1 as [|x l Hx Hl IH]; simpl.
  - constructor.
  - apply insert_sorted; auto. now apply sort_Forall.
Qed.

(** Sorting and selecting commute: the sort moves no element past one it
    compares equal to, whatever stands between them. *)
Lemma insert_filter (P : A -> bool) (x : A) (l : list A) :
  ok x -> Forall ok l -> StronglySorted R l ->
  filter P (insert x l) = if P x then insert x (filter P l) else filter P l.
Proof.
  intros Hx. induction l as [|y l IH]; intros Hok Hs.
  - simpl. now destruct (P x).
  - inversion Hok as [|? ? Hoky Hokl]; subst.
    simpl. destruct (after x y) eqn:E.
    + inversion Hs as [|? ? Hs' Hy]; subst.
      simpl. rewrite (IH Hokl Hs').
      destruct (P x), (P y); simpl; rewrite ?E; reflexivity.
    + pose proof (sorted_head_all Hx Hok E Hs) as Hall.
      change (filter P (x :: y :: l))
        with (if P x then x :: filter P (y :: l) else filter P (y :: l)).
      destruct (P x); [|reflexivity].
      symmetry. apply insert_front.
      rewrite Forall_forall in *. intros z Hz.
      apply filter_In in Hz. now apply Hall.
Qed.

Lemma sort_filter (P : A -> bool) (l : list A) :
  Forall ok l -> filter P (sort l) = sort (filter P l).
Proof.
  induction 1 as [|x l Hx Hl IH]; simpl; [reflexivity|].
  rewrite insert_filter; auto using sort_Forall, sort_sorted.
  rewrite IH. now destruct (P x).
Qed.

Lemma tied_sorted (x : A) (l : list A) :
  ok x -> Forall ok l -> StronglySorted R (filter (JS.tied cmp x) l).
Proof.
  intros Hx. induction 1 as [|y l Hy Hl IH]; simpl; [constructor|].
  destruct (JS.tied cmp x y) eqn:E; [|assumption].
  constructor; [assumption|].
  rewrite Forall_forall in *. intros z Hz.
  apply filter_In in Hz. destruct Hz as [Hz Ez].
  unfold JS.tied in E, Ez.
  apply andb_true_iff in E. destruct E as [_ Eyx].
  apply andb_true_iff in Ez. destruct Ez as [Exz _].
  apply negb_true_iff in Eyx, Exz.
  apply ok_trans with x; auto.
Qed.

(** Stability: the elements that compare equal to a given one come out in
    the order they went in. *)
Lemma sort_stable (x : A) (l : list A) :
  ok x -> Forall ok l ->
  filter (JS.tied cmp x) (sort l) = filter (JS.tied cmp x) l.
Proof.
  intros Hx Hl. rewrite sort_filter by assumption.
  apply sort_sorted_id. now apply tied_sorted.
Qed.

Lemma tied_refl (x : A) : ok x -> JS.tied cmp x x = true.
Proof.
  intros Hx. unfold JS.tied.
  destruct (after x x) eqn:E; [|reflexivity].
  now rewrite (ok_total Hx Hx E) in E.
Qed.

Lemma tied_iff (x y : A) : JS.tied cmp x y = true <-> R x y /\ R y x.
Proof.
  unfold JS.tied, JS.mayPrecede.
  rewrite andb_true_iff, !negb_true_iff. reflexivity.
Qed.

(** Sortedness and stability leave one arrangement only. *)
Lemma sorted_stable_unique (l1 l2 : list A) :
  Forall ok l1 -> Forall ok l2 ->
  StronglySorted R l1 -> StronglySorted R l2 ->
  (forall x, ok x -> filter (JS.tied cmp x) l1 = filter (JS.tied cmp x) l2) ->
  l1 = l2.
Proof.
  revert l2. induction l1 as [|a l1 IH]; intros l2 Hok1 Hok2 Hs1 Hs2 Hst.
  - destruct l2 as [|b l2]; [reflexivity|].
    inversion Hok2 as [|? ? Hb _]; subst.
    specialize (Hst b Hb). simpl in Hst.
    rewrite (tied_refl Hb) in Hst. discriminate.
  - inversion Hok1 as [|? ? Ha Hok1']; subst.
    inversion Hs1 as [|? ? Hs1' Hall1]; subst.
    destruct l2 as [|b l2].
    { specialize (Hst a Ha). simpl in Hst.
      rewrite (tied_refl Ha) in Hst. discriminate. }
    inversion Hok2 as [|? ? Hb Hok2']; subst.
    inversion Hs2 as [|? ? Hs2' Hall2]; subst.
    assert (Hab : a = b).
    { pose proof (Hst a Ha) as Ea. simpl in Ea.
      rewrite (tied_refl Ha) in Ea.
      destruct (JS.tied cmp a b) eqn:Tab; [now inversion Ea|].
      exfalso.
      assert (Hin : In a l2).
      { assert (In a (filter (JS.tied cmp a) l2)) as Hi
          by (rewrite <- Ea; now left).
        now apply filter_In in Hi. }
      pose proof (Hst b Hb) as Eb. simpl in Eb.
      rewrite (tied_refl Hb) in Eb.
      assert (Hin' : In b (a :: l1)).
      { destruct (JS.tied cmp b a) eqn:Tba.
        - inversion Eb. now left.
        - right.
          assert (In b (filter (JS.tied cmp b) l1)) as Hi
            by (rewrite Eb; now left).
          now apply filter_In in Hi. }
      assert (Rba : R b a) by (rewrite Forall_forall in Hall2; auto).
      assert (Rab : R a b).
      { destruct Hin' as [->|Hin']; [assumption|].
        rewrite Forall_forall in Hall1; auto. }
      assert (JS.tied cmp a b = true) by (apply tied_iff; auto).
      congruence. }
    subst b. f_equal.
    apply IH; auto.
    intros x Hx. specialize (Hst x Hx). simpl in Hst.
    destruct (JS.tied cmp x a); [now inversion Hst | assumption].
Qed.

(** Whatever stable sorting procedure an engine uses, on a consistent
    comparator its outcome is the list [JS.sort] computes. *)
Lemma sort_unique (l l' : list A) :
  Forall ok l -> Forall ok l' ->
  StronglySorted R l' ->
  (forall x, ok x -> filter (JS.tied cmp x) l' = filter (JS.tied cmp x) l) ->
  l' = sort l.
Proof.
  intros Hl Hl' Hs Hst.
  apply sorted_stable_unique; auto using sort_Forall, sort_sorted.
  intros x Hx. rewrite sort_stable by assumption. now apply Hst.
Qed.

End SortFacts.

(** Sorting by a key: when, on the rows that satisfy [ok], the comparator
    agrees with an order [before] that is total and transitive there. *)
Section SortBy.
Context {A : Type}.
Variable cmp : A -> A -> JS.number.
Variable ok : A -> Prop.
Variable before : A -> A -> Prop.
Variable sameKey : A -> A -> bool.
Hypothesis after_before :
  forall x y, ok x -> ok y -> (JS.after cmp x y = false <-> before x y).
Hypothesis before_total :
  forall x y, ok x -> ok y -> before x y \/ before y x.
Hypothesis before_trans :
  forall x y z, ok x -> ok y -> ok z -> before x y -> before y z -> before x z.
Hypothesis sameKey_before :
  forall x y, ok x -> ok y -> (sameKey x y = true <-> before x y /\ before y x).

Lemma cmp_total (x y : A) :
  ok x -> ok y -> JS.after cmp x y = true -> JS.after cmp y x = false.
Proof.
  intros Hx Hy E. apply after_before; auto.
  destruct (before_total Hx Hy) as [B|B]; [|assumption].
  apply after_before in B; auto. congruence.
Qed.

Lemma cmp_trans (x y z : A) :
  ok x -> ok y -> ok z ->
  JS.mayPrecede cmp x y -> JS.mayPrecede cmp y z -> JS.mayPrecede cmp x z.
Proof.
  unfold JS.mayPrecede. intros Hx Hy Hz Hxy Hyz.
  apply after_before; auto.
  apply before_trans with y; auto; apply after_before; auto.
Qed.

Lemma sorted_before (l : list A) :
  Forall ok l -> StronglySorted (JS.mayPrecede cmp) l -> StronglySorted before l.
Proof.
  induction 1 as [|x l Hx Hl IH]; intros Hs; [constructor|].
  inversion Hs as [|? ? Hs' Hall]; subst.
  constructor; [now apply IH|].
  rewrite Forall_forall in *. intros y Hy.
  apply after_before; auto. now apply Hall.
Qed.

Lemma tied_sameKey (x y : A) : ok x -> ok y -> JS.tied cmp x y = sameKey x y.
Proof.
  intros Hx Hy. apply eq_true_iff_eq.
  rewrite sameKey_before by assumption.
  rewrite tied_iff. unfold JS.mayPrecede.
  now rewrite !after_before.
Qed.

Lemma filter_sameKey (x : A) (l : list A) :
  ok x -> Forall ok l -> filter (JS.tied cmp x) l = filter (sameKey x) l.
Proof.
  intros Hx Hl. apply filter_ext_in. intros y Hy.
  apply tied_sameKey; [assumption|].
  rewrite Forall_forall in Hl. now apply Hl.
Qed.

Lemma sort_orderedBy (l : list A) :
  Forall ok l -> Spec.orderedBy before sameKey l (JS.sort cmp l).
Proof.
  intros Hl. split; [apply sort_perm|]. split.
  - apply sorted_before; [now apply sort_Forall|].
    apply sort_sorted with (ok := ok);
      [exact cmp_total | exact cmp_trans | assumption].
  - intros x Hx.
    assert (ok x) as Hokx by (rewrite Forall_forall in Hl; auto).
    rewrite <- !filter_sameKey; auto using sort_Forall.
    apply sort_stable with (ok := ok);
      [exact cmp_total | exact cmp_trans | assumption | assumption].
Qed.

End SortBy.

(* ================================================================== *)
(** * Prefixes of a list *)
(* ================================================================== *)

Lemma firstn_In {A} (n : nat) (l : list A) (x : A) :
  In x (firstn n l) -> In x l.
Proof.
  intros H. rewrite <- (firstn_skipn n l). apply in_or_app. now left.
Qed.

Lemma firstn_Forall {A} (P : A -> Prop) (n : nat) (l : list A) :
  Forall P l -> Forall P (firstn n l).
Proof.
  rewrite !Forall_forall. intros H x Hx. apply H. eapply firstn_In, Hx.
Qed.

Lemma firstn_sorted {A} (before : A -> A -> Prop) (n : nat) (l : list A) :
  StronglySorted before l -> StronglySorted before (firstn n l).
Proof.
  intros Hs. revert n. induction Hs as [|x l Hs IH Hx]; intros [|n]; simpl;
    try constructor; auto using firstn_Forall.
Qed.

(* ================================================================== *)
(** * Filtering by the selected games *)
(* ================================================================== *)

Lemma includes_In (l : list string) (x : string) :
  JS.includes l x = true <-> In x l.
Proof.
  unfold JS.includes, JS.inb. rewrite existsb_exists. split.
  - intros [y [Hy E]]. apply String.eqb_eq in E. now subst.
  - intros H. exists x. split; [assumption | apply String.eqb_refl].
Qed.

Lemma includes_restrict {A} (game : A -> string) (sel : list string) (l : list A) :
  filter (fun r => JS.includes sel (game r)) l = Spec.restrictToGames game sel l.
Proof.
  unfold Spec.restrictToGames. apply filter_ext. intros r.
  destruct (in_dec string_dec (game r) sel) as [H|H].
  - now apply includes_In.
  - destruct (JS.includes sel (game r)) eqn:E; [|reflexivity].
    apply includes_In in E. contradiction.
Qed.

Lemma restrict_In {A} (game : A -> string) (sel : list string) (l : list A) (r : A) :
  In r (Spec.restrictToGames game sel l) <-> In r l /\ In (game r) sel.
Proof.
  unfold Spec.restrictToGames. rewrite filter_In.
  destruct (in_dec string_dec (game r) sel); intuition discriminate.
Qed.

(** C3. With no game selected each of the three collections is returned as
    it is; with at least one game selected each is restricted to exactly the
    rows whose game is among the selected ones, in their original order:
    every row kept has its game selected and every row with a selected game
    is kept. *)
Theorem filtering_by_selected_games
    (playerProjections : list PlayerProjection.t)
    (batterAnalysis : list BatterAnalysis.t)
    (pitcherAnalysis : list PitcherAnalysis.t) :
  (Page.filteredPlayerProjections [] playerProjections = playerProjections
   /\ Page.filteredBatterAnalysis [] batterAnalysis = batterAnalysis
   /\ Page.filteredPitcherAnalysis [] pitcherAnalysis = pitcherAnalysis)
  /\ forall (game : string) (others : list string),
       let selectedGames := game :: others in
       (Page.filteredPlayerProjections selectedGames playerProjections
          = Spec.restrictToGames PlayerProjection.GAME selectedGames playerProjections
        /\ forall p, In p (Page.filteredPlayerProjections selectedGames playerProjections)
                     <-> In p playerProjections
                         /\ In (PlayerProjection.GAME p) selectedGames)
       /\ (Page.filteredBatterAnalysis selectedGames batterAnalysis
             = Spec.restrictToGames BatterAnalysis.GAME selectedGames batterAnalysis
           /\ forall b, In b (Page.filteredBatterAnalysis selectedGames batterAnalysis)
                        <-> In b batterAnalysis
                            /\ In (BatterAnalysis.GAME b) selectedGames)
       /\ (Page.filteredPitcherAnalysis selectedGames pitcherAnalysis
             = Spec.restrictToGames PitcherAnalysis.GAME selectedGames pitcherAnalysis
           /\ forall p, In p (Page.filteredPitcherAnalysis selectedGames pitcherAnalysis)
                        <-> In p pitcherAnalysis
                            /\ In (PitcherAnalysis.GAME p) selectedGames).
Proof.
  split; [repeat split|].
  intros game others selectedGames.
  unfold Page.filteredPlayerProjections, Page.filteredBatterAnalysis,
    Page.filteredPitcherAnalysis.
  change (List.length selectedGames =? 0)%nat with false. cbv iota.
  rewrite !includes_restrict.
  repeat split; try reflexivity; intros; try (now apply restrict_In);
    match goal with H : In _ (Spec.restrictToGames _ _ _) |- _ =>
      apply restrict_In in H; tauto end.
Qed.

(* ================================================================== *)
(** * Top pitcher opportunities *)
(* ================================================================== *)

Lemma after_diff (a b : Q) :
  match (b - a ?= 0)%Q with Gt => true | _ => false end = false <-> (b <= a)%Q.
Proof.
  assert (b <= a <-> b - a <= 0)%Q as -> by (split; intros; lra).
  rewrite Qle_alt. destruct (b - a ?= 0)%Q; split; congruence.
Qed.

Lemma pitcher_after_before (x y : PitcherAnalysis.t) :
  JS.after Page.pitcherCompare x y = false <-> Spec.pitcherBefore x y.
Proof. apply after_diff. Qed.

Lemma pitcher_sameKey (x y : PitcherAnalysis.t) :
  Spec.pitcherSameKey x y = true
  <-> Spec.pitcherBefore x y /\ Spec.pitcherBefore y x.
Proof.
  unfold Spec.pitcherSameKey, Spec.pitcherBefore. rewrite Qeq_bool_iff.
  split.
  - intros E. rewrite E. split; apply Qle_refl.
  - intros [H1 H2]. now apply Qle_antisym.
Qed.

Lemma pitcher_sort_orderedBy (l : list PitcherAnalysis.t) :
  Spec.orderedBy Spec.pitcherBefore Spec.pitcherSameKey l
    (JS.sort Page.pitcherCompare l).
Proof.
  apply sort_orderedBy with (ok := fun _ => True).
  - intros x y _ _. apply pitcher_after_before.
  - intros x y _ _. unfold Spec.pitcherBefore.
    destruct (Qlt_le_dec (PitcherAnalysis.EDGE_PERCENTAGE x)
                         (PitcherAnalysis.EDGE_PERCENTAGE y)) as [H|H].
    + right. now apply Qlt_le_weak.
    + now left.
  - intros x y z _ _ _. unfold Spec.pitcherBefore. intros H1 H2.
    eapply Qle_trans; eassumption.
  - intros x y _ _. apply pitcher_sameKey.
  - apply Forall_forall. trivial.
Qed.

Lemma isHighOrMedium_iff (p : PitcherAnalysis.t) :
  Spec.isHighOrMedium p = true <-> Spec.highOrMedium p.
Proof.
  unfold Spec.isHighOrMedium, Spec.highOrMedium.
  destruct (string_dec (PitcherAnalysis.CONFIDENCE p) "High");
    [tauto|].
  destruct (string_dec (PitcherAnalysis.CONFIDENCE p) "Medium");
    [tauto|].
  split; [discriminate | tauto].
Qed.

Lemma pitcher_filter (l : list PitcherAnalysis.t) :
  filter (fun p => (PitcherAnalysis.CONFIDENCE p =? "High")
                   || (PitcherAnalysis.CONFIDENCE p =? "Medium")) l
  = filter Spec.isHighOrMedium l.
Proof.
  apply filter_ext. intros p. unfold Spec.isHighOrMedium.
  destruct (string_dec (PitcherAnalysis.CONFIDENCE p) "High") as [E|E].
  - rewrite E. reflexivity.
  - apply String.eqb_neq in E. rewrite E. simpl.
    destruct (string_dec (PitcherAnalysis.CONFIDENCE p) "Medium") as [E'|E'].
    + rewrite E'. reflexivity.
    + now apply String.eqb_neq in E'.
Qed.

(** C6. The top pitcher opportunities are the first five of the rows whose
    confidence is High or Medium, ordered by edge percentage descending; no
    row with another confidence label is among them. *)
Theorem topPitcherOpportunities_spec
    (filteredPitcherAnalysis : list PitcherAnalysis.t) :
  exists ranked : list PitcherAnalysis.t,
    Spec.orderedBy Spec.pitcherBefore Spec.pitcherSameKey
      (filter Spec.isHighOrMedium filteredPitcherAnalysis) ranked
    /\ Page.topPitcherOpportunities filteredPitcherAnalysis = firstn 5 ranked
    /\ Forall Spec.highOrMedium
         (Page.topPitcherOpportunities filteredPitcherAnalysis)
    /\ forall p, In p ranked
                 <-> In p filteredPitcherAnalysis /\ Spec.highOrMedium p.
Proof.
  unfold Page.topPitcherOpportunities, JS.slice0. rewrite pitcher_filter.
  set (eligible := filter Spec.isHighOrMedium filteredPitcherAnalysis).
  exists (JS.sort Page.pitcherCompare eligible).
  assert (Hin : forall p, In p (JS.sort Page.pitcherCompare eligible)
                          <-> In p filteredPitcherAnalysis /\ Spec.highOrMedium p).
  { intros p. rewrite sort_In. unfold eligible. rewrite filter_In.
    now rewrite isHighOrMedium_iff. }
  repeat split; try apply pitcher_sort_orderedBy; try (now apply Hin).
  apply Forall_forall. intros p Hp.
  apply (proj1 (Hin p)). eapply firstn_In, Hp.
Qed.

(* ================================================================== *)
(** * Top batter opportunities and the batter comparator *)
(* ================================================================== *)

Lemma inb_In (x : string) (l : list string) : JS.inb x l = true <-> In x l.
Proof. apply (includes_In l x). Qed.

Lemma inject_diff_compare (a b : Z) :
  (inject_Z b - inject_Z a ?= 0)%Q = (b ?= a)%Z.
Proof.
  unfold Qcompare, Qminus, Qplus, Qopp, inject_Z. simpl.
  rewrite !Z.mul_1_r. rewrite Z.add_opp_r. symmetry. apply Z.compare_sub.
Qed.

Lemma Qeq_bool_compare (q : Q) :
  Qeq_bool q 0 = match (q ?= 0)%Q with Eq => true | _ => false end.
Proof.
  apply eq_true_iff_eq. rewrite Qeq_bool_iff, Qeq_alt.
  destruct (q ?= 0)%Q; split; congruence.
Qed.

(** On a plain label the table gives the rank of the description. *)
Lemma confidenceValue_plain (label : string) :
  ~ In label JS.objectPrototypeKeys ->
  Page.confidenceValue label = JS.Num (inject_Z (Spec.confidenceRank label)).
Proof.
  intros Hplain.
  assert (JS.inb label JS.objectPrototypeKeys = false) as Hb.
  { destruct (JS.inb label JS.objectPrototypeKeys) eqn:E; [|reflexivity].
    apply inb_In in E. contradiction. }
  unfold Page.confidenceValue, JS.getProperty, Spec.confidenceRank,
    Page.confidenceOrder, JS.getOwn.
  destruct (label =? "High"); [reflexivity|].
  destruct (label =? "Medium"); [reflexivity|].
  destruct (label =? "Low"); [reflexivity|].
  destruct (label =? "Avoid"); [reflexivity|].
  rewrite Hb. reflexivity.
Qed.

Lemma batter_after (x y : BatterAnalysis.t) :
  Spec.plainLabel x -> Spec.plainLabel y ->
  JS.after Page.batterCompare x y
  = match (Spec.confidenceRank (BatterAnalysis.CONFIDENCE y)
           ?= Spec.confidenceRank (BatterAnalysis.CONFIDENCE x))%Z with
    | Gt => true
    | Lt => false
    | Eq => match (BatterAnalysis.EDGE_PERCENTAGE y
                   - BatterAnalysis.EDGE_PERCENTAGE x ?= 0)%Q with
            | Gt => true
            | _ => false
            end
    end.
Proof.
  intros Hx Hy. unfold JS.after, Page.batterCompare.
  rewrite (confidenceValue_plain Hx), (confidenceValue_plain Hy).
  cbn [JS.sub JS.strictNeqZero].
  rewrite Qeq_bool_compare, inject_diff_compare.
  destruct (Spec.confidenceRank (BatterAnalysis.CONFIDENCE y)
            ?= Spec.confidenceRank (BatterAnalysis.CONFIDENCE x))%Z eqn:E;
    cbn [negb JS.sortSign]; rewrite ?inject_diff_compare, ?E; reflexivity.
Qed.

Lemma batter_after_before (x y : BatterAnalysis.t) :
  Spec.plainLabel x -> Spec.plainLabel y ->
  (JS.after Page.batterCompare x y = false <-> Spec.batterBefore x y).
Proof.
  intros Hx Hy. rewrite (batter_after Hx Hy). unfold Spec.batterBefore.
  destruct (Spec.confidenceRank (BatterAnalysis.CONFIDENCE y)
            ?= Spec.confidenceRank (BatterAnalysis.CONFIDENCE x))%Z eqn:E.
  - apply Z.compare_eq_iff in E. rewrite after_diff. split.
    + intros H. right. split; [now symmetry | assumption].
    + intros [H|[_ H]]; [lia | assumption].
  - apply Z.compare_lt_iff in E. split; [now left | reflexivity].
  - apply Z.compare_gt_iff in E. split; [discriminate|].
    intros [H|[H _]]; lia.
Qed.

Lemma batterBefore_total (x y : BatterAnalysis.t) :
  Spec.batterBefore x y \/ Spec.batterBefore y x.
Proof.
  unfold Spec.batterBefore.
  destruct (Z.lt_trichotomy (Spec.confidenceRank (BatterAnalysis.CONFIDENCE x))
              (Spec.confidenceRank (BatterAnalysis.CONFIDENCE y)))
    as [H|[H|H]]; [now right; left | | now left; left].
  destruct (Qlt_le_dec (BatterAnalysis.EDGE_PERCENTAGE x)
                       (BatterAnalysis.EDGE_PERCENTAGE y)) as [L|L].
  - right. right. split; [now symmetry | now apply Qlt_le_weak].
  - left. right. now split.
Qed.

Lemma batterBefore_trans (x y z : BatterAnalysis.t) :
  Spec.batterBefore x y -> Spec.batterBefore y z -> Spec.batterBefore x z.
Proof.
  unfold Spec.batterBefore.
  intros [H1|[H1 L1]] [H2|[H2 L2]].
  - left. lia.
  - left. lia.
  - left. lia.
  - right. split; [congruence|]. eapply Qle_trans; eassumption.
Qed.

Lemma batter_sameKey (x y : BatterAnalysis.t) :
  Spec.batterSameKey x y = true
  <-> Spec.batterBefore x y /\ Spec.batterBefore y x.
Proof.
  unfold Spec.batterSameKey, Spec.batterBefore.
  rewrite andb_true_iff, Z.eqb_eq, Qeq_bool_iff. split.
  - intros [E1 E2]. rewrite E2. split; right; split;
      auto using Qle_refl.
  - intros [[H1|[H1 L1]] [H2|[H2 L2]]]; try lia.
    split; [assumption | now apply Qle_antisym].
Qed.

Lemma batter_sort_orderedBy (l : list BatterAnalysis.t) :
  Forall Spec.plainLabel l ->
  Spec.orderedBy Spec.batterBefore Spec.batterSameKey l
    (JS.sort Page.batterCompare l).
Proof.
  apply sort_orderedBy.
  - apply batter_after_before.
  - intros x y _ _. apply batterBefore_total.
  - intros x y z _ _ _. apply batterBefore_trans.
  - intros x y _ _. apply batter_sameKey.
Qed.

Lemma positive_iff (x : Q) : Page.positive x = true <-> (0 < x)%Q.
Proof.
  unfold Page.positive, JS.gt. rewrite (Qgt_alt x 0).
  destruct (x ?= 0)%Q; split; congruence.
Qed.

Lemma batter_filter (l : list BatterAnalysis.t) :
  filter (fun b => Page.positive (BatterAnalysis.EDGE_PERCENTAGE b)) l
  = filter Spec.positiveEdge l.
Proof.
  apply filter_ext. intros b. unfold Spec.positiveEdge.
  destruct (Qlt_le_dec 0 (BatterAnalysis.EDGE_PERCENTAGE b)) as [H|H].
  - now apply positive_iff.
  - destruct (Page.positive (BatterAnalysis.EDGE_PERCENTAGE b)) eqn:E;
      [|reflexivity].
    apply positive_iff in E. exfalso. eapply Qlt_not_le; eassumption.
Qed.

Lemma positiveEdge_iff (b : BatterAnalysis.t) :
  Spec.positiveEdge b = true <-> (0 < BatterAnalysis.EDGE_PERCENTAGE b)%Q.
Proof.
  unfold Spec.positiveEdge.
  destruct (Qlt_le_dec 0 (BatterAnalysis.EDGE_PERCENTAGE b)) as [H|H].
  - tauto.
  - split; [discriminate|]. intros L. exfalso. eapply Qlt_not_le; eassumption.
Qed.

(** On rows whose labels are plain, the top batter opportunities are the
    first five of the rows with a positive edge percentage, ordered by
    confidence rank and then edge percentage, both descending. *)
Lemma topBatterOpportunities_plain_labels
    (filteredBatterAnalysis : list BatterAnalysis.t) :
  Forall Spec.plainLabel filteredBatterAnalysis ->
  exists ranked : list BatterAnalysis.t,
    Spec.orderedBy Spec.batterBefore Spec.batterSameKey
      (filter Spec.positiveEdge filteredBatterAnalysis) ranked
    /\ Page.topBatterOpportunities filteredBatterAnalysis = firstn 5 ranked
    /\ Sorted Spec.batterBefore
         (Page.topBatterOpportunities filteredBatterAnalysis)
    /\ Forall (fun b => 0 < BatterAnalysis.EDGE_PERCENTAGE b)%Q
         (Page.topBatterOpportunities filteredBatterAnalysis).
Proof.
  intros Hplain.
  unfold Page.topBatterOpportunities, JS.slice0. rewrite batter_filter.
  set (eligible := filter Spec.positiveEdge filteredBatterAnalysis).
  assert (Forall Spec.plainLabel eligible) as Hel.
  { rewrite Forall_forall in *. intros b Hb. apply Hplain.
    unfold eligible in Hb. now apply filter_In in Hb. }
  pose proof (batter_sort_orderedBy Hel) as Hord.
  exists (JS.sort Page.batterCompare eligible).
  split; [assumption|]. split; [reflexivity|]. split.
  - apply StronglySorted_Sorted, firstn_sorted. apply Hord.
  - apply firstn_Forall. apply Forall_forall. intros b Hb.
    apply sort_In in Hb. unfold eligible in Hb. apply filter_In in Hb.
    now apply positiveEdge_iff.
Qed.

(** C1, at a label that names an inherited property.  For the rows
    [constructor, 10%] and [High, 8%], both with a positive edge, the lookup
    [confidenceOrder["constructor"]] yields the inherited function, the
    difference of ranks is [NaN], the comparator returns [NaN] both ways and
    the two rows keep their order: the row of rank 0 (an unknown label) stays
    ahead of the row of rank 3. *)
Theorem topBatterOpportunities_inherited_label :
  Page.confidenceValue "constructor" = JS.NaN
  /\ Page.batterCompare Samples.inheritedLabelRow Samples.highRow = JS.NaN
  /\ Page.batterCompare Samples.highRow Samples.inheritedLabelRow = JS.NaN
  /\ Page.topBatterOpportunities
       (Page.filteredBatterAnalysis [] [Samples.inheritedLabelRow; Samples.highRow])
     = [Samples.inheritedLabelRow; Samples.highRow]
  /\ Spec.confidenceRank (BatterAnalysis.CONFIDENCE Samples.inheritedLabelRow) = 0%Z
  /\ Spec.confidenceRank (BatterAnalysis.CONFIDENCE Samples.highRow) = 3%Z
  /\ ~ Spec.batterBefore Samples.inheritedLabelRow Samples.highRow.
Proof.
  repeat split; try reflexivity.
  unfold Spec.batterBefore. cbn. intros [H|[H _]]; lia.
Qed.

(** On that array the comparator is consistent (it returns [NaN] or [0] on
    every pair), so the outcome does not depend on the sorting procedure:
    every arrangement that is sorted for the comparator and keeps tied rows
    in order is the one above. *)
Lemma inherited_label_order_forced (arranged : list BatterAnalysis.t) :
  let rows := [Samples.inheritedLabelRow; Samples.highRow] in
  Forall (fun r => In r rows) arranged ->
  StronglySorted (JS.mayPrecede Page.batterCompare) arranged ->
  (forall x, In x rows ->
     filter (JS.tied Page.batterCompare x) arranged
     = filter (JS.tied Page.batterCompare x) rows) ->
  arranged = rows.
Proof.
  intros rows Hin Hs Hst.
  change rows with (JS.sort Page.batterCompare rows).
  apply sort_unique with (ok := fun r => In r rows); auto.
  - intros x y [<-|[<-|[]]] [<-|[<-|[]]]; vm_compute; congruence.
  - intros x y z [<-|[<-|[]]] [<-|[<-|[]]] [<-|[<-|[]]]; vm_compute; congruence.
  - apply Forall_forall. auto.
Qed.

(** Two High rows with edge percentages 8.0 and 12.5: the 12.5 row comes
    first in the top opportunities and in the detail table. *)
Example high_rows_by_edge :
  let low := Samples.batterRow "R. Devers" "High" 8.0 in
  let high := Samples.batterRow "M. Betts" "High" 12.5 in
  Page.topBatterOpportunities (Page.filteredBatterAnalysis [] [low; high])
  = [high; low]
  /\ Page.batterTable (Page.filteredBatterAnalysis [] [low; high])
     = [high; low].
Proof. split; reflexivity. Qed.

(* ================================================================== *)
(** * The projections table *)
(* ================================================================== *)

Lemma hitsOrZero_hitCount (p : PlayerProjection.t) :
  Page.hitsOrZero p = Spec.hitCount p.
Proof.
  unfold Page.hitsOrZero, Spec.hitCount.
  destruct (string_dec (PlayerProjection.H p) "-") as [E|E].
  - rewrite E. reflexivity.
  - apply String.eqb_neq in E. now rewrite E.
Qed.

Lemma hitCount_number (p : PlayerProjection.t) :
  Spec.numericOrPlaceholder p -> Spec.hitCount p <> JS.NaN.
Proof.
  unfold Spec.numericOrPlaceholder, Spec.hitCount.
  destruct (string_dec (PlayerProjection.H p) "-"); [discriminate|].
  intros [H|H]; [contradiction | assumption].
Qed.

(** [>=] on numbers other than [NaN] is a total preorder, and the sign of a
    difference agrees with it. *)
Lemma ge_Num (a b : Q) : JS.ge (JS.Num a) (JS.Num b) = true <-> (b <= a)%Q.
Proof.
  simpl. rewrite Qle_alt, <- (Qcompare_antisym a b).
  destruct (a ?= b)%Q; simpl; split; congruence.
Qed.

Lemma ge_total (x y : JS.number) :
  x <> JS.NaN -> y <> JS.NaN -> JS.ge x y = true \/ JS.ge y x = true.
Proof.
  destruct x as [|s|a], y as [|t|b]; try congruence; intros _ _.
  - destruct s, t; simpl; auto.
  - destruct s; simpl; auto.
  - destruct t; simpl; auto.
  - rewrite !ge_Num. destruct (Qlt_le_dec a b) as [H|H];
      [right; now apply Qlt_le_weak | now left].
Qed.

Lemma ge_trans (x y z : JS.number) :
  JS.ge x y = true -> JS.ge y z = true -> JS.ge x z = true.
Proof.
  destruct x as [|s|a], y as [|t|b], z as [|u|c];
    try discriminate; try (destruct s); try (destruct t); try (destruct u);
    simpl; try congruence.
  intros H1 H2. apply ge_Num. apply (ge_Num a b) in H1. apply (ge_Num b c) in H2.
  eapply Qle_trans; eassumption.
Qed.

Lemma after_sub (x y : JS.number) :
  x <> JS.NaN -> y <> JS.NaN ->
  (match JS.sortSign (JS.sub y x) with Gt => true | _ => false end = false
   <-> JS.ge x y = true).
Proof.
  destruct x as [|s|a], y as [|t|b]; try congruence; intros _ _.
  - destruct s, t; simpl; split; congruence.
  - destruct s; simpl; split; congruence.
  - destruct t; simpl; split; congruence.
  - rewrite ge_Num. apply after_diff.
Qed.

Lemma projection_sort_orderedBy (l : list PlayerProjection.t) :
  Forall Spec.numericOrPlaceholder l ->
  Spec.orderedBy Spec.projectionBefore Spec.projectionSameKey l
    (JS.sort Page.projectionCompare l).
Proof.
  apply sort_orderedBy.
  - intros x y Hx Hy. unfold JS.after, Page.projectionCompare.
    rewrite !hitsOrZero_hitCount. apply after_sub; now apply hitCount_number.
  - intros x y Hx Hy. apply ge_total; now apply hitCount_number.
  - intros x y z _ _ _. apply ge_trans.
  - intros x y _ _. unfold Spec.projectionSameKey. apply andb_true_iff.
Qed.

(** *** Rounding to binary64

    What [parseFloat] returns, when finite, is [m * 2^e] with a significand
    of at most 53 bits. *)

Lemma two_pos (e : Z) : 0 < 2 ^ e.
Proof. apply Qpower_0_lt. reflexivity. Qed.

Lemma two_of_Z (n : Z) : (0 <= n)%Z -> inject_Z (2 ^ n) == 2 ^ n.
Proof. intros H. now rewrite Zpower_Qpower. Qed.

Lemma floorLog2_above (q : Q) : 0 < q -> q < 2 ^ (JS.floorLog2 q + 1).
Proof.
  intros Hq. unfold JS.floorLog2.
  destruct q as [a b]. cbn [Qnum Qden].
  assert (0 < a)%Z as Ha by (unfold Qlt in Hq; simpl in Hq; lia).
  set (la := Z.log2 a). set (lb := Z.log2 (Z.pos b)).
  destruct (Qle_bool (2 ^ (la - lb)) (a # b)) eqn:E.
  - assert (inject_Z a < 2 ^ (la + 1)) as Ua.
    { rewrite <- two_of_Z by (unfold la; pose proof (Z.log2_nonneg a); lia).
      rewrite <- Zlt_Qlt. apply Z.log2_spec. assumption. }
    assert (2 ^ lb <= inject_Z (Z.pos b)) as Lb.
    { rewrite <- two_of_Z by (unfold lb; apply Z.log2_nonneg).
      rewrite <- Zle_Qle. apply Z.log2_spec. reflexivity. }
    replace (la - lb + 1)%Z with ((la + 1) + - lb)%Z by lia.
    rewrite Qpower_plus by discriminate. rewrite Qpower_opp.
    rewrite (Qmake_Qdiv a b).
    pose proof (two_pos lb) as P.
    assert (0 < inject_Z (Z.pos b)) as Pb by reflexivity.
    apply Qlt_shift_div_r; [assumption|].
    apply Qlt_le_trans with (2 ^ (la + 1)); [assumption|].
    assert (1 <= / 2 ^ lb * inject_Z (Z.pos b)) as Hone.
    { rewrite Qmult_comm. apply Qle_shift_div_l; [assumption|].
      now rewrite Qmult_1_l. }
    rewrite <- (Qmult_1_r (2 ^ (la + 1))) at 1.
    rewrite <- Qmult_assoc. apply Qmult_le_l; [apply two_pos | assumption].
  - replace (la - lb - 1 + 1)%Z with (la - lb)%Z by lia.
    apply Qnot_le_lt. intros C. apply Qle_bool_iff in C. congruence.
Qed.

Lemma roundHalfEven_bounds (x : Q) (N : Z) :
  0 <= x -> x < inject_Z N -> (0 <= JS.roundHalfEven x <= N)%Z.
Proof.
  intros H0 HN.
  assert (0 <= Qfloor x)%Z as F0 by (apply (Qfloor_resp_le 0 x H0)).
  assert (Qfloor x < N)%Z as FN.
  { rewrite Zlt_Qlt. eapply Qle_lt_trans; [apply Qfloor_le | assumption]. }
  unfold JS.roundHalfEven.
  destruct (x - inject_Z (Qfloor x) ?= 1 # 2)%Q; [destruct (Z.even _)| |]; lia.
Qed.

Lemma nearest_double (q : Q) :
  0 < q ->
  exists m e : Z, JS.nearest q = inject_Z m * 2 ^ e /\ (0 <= m <= 2 ^ 53)%Z.
Proof.
  intros Hq. unfold JS.nearest.
  exists (JS.roundHalfEven (q / 2 ^ JS.ulpExponent q)), (JS.ulpExponent q).
  split; [reflexivity|].
  pose proof (two_pos (JS.ulpExponent q)) as P.
  apply roundHalfEven_bounds.
  - apply Qle_shift_div_l; [assumption|]. rewrite Qmult_0_l. now apply Qlt_le_weak.
  - apply Qlt_shift_div_r; [assumption|].
    apply Qlt_le_trans with (2 ^ (JS.floorLog2 q + 1)); [now apply floorLog2_above|].
    rewrite two_of_Z by lia. rewrite <- Qpower_plus by discriminate.
    apply Qpower_le_compat_l; [|discriminate].
    unfold JS.ulpExponent. lia.
Qed.

(** No double lies between the decimal 1.10 and the double nearest to it. *)
Lemma double_above_threshold (v : Q) (m e : Z) :
  v == inject_Z m * 2 ^ e -> (0 <= m <= 2 ^ 53)%Z ->
  1.10 <= v -> 2476979795053773 # 2251799813685248 <= v.
Proof.
  intros Ev Hm Hv. rewrite Ev in *. clear Ev.
  destruct (Z_le_gt_dec (-52) e) as [He|He].
  - replace e with ((e + 52) + - (52))%Z in * by lia.
    rewrite Qpower_plus in * by discriminate.
    rewrite <- two_of_Z in * by lia.
    set (k := (2 ^ (e + 52))%Z) in *.
    rewrite Qmult_assoc in *. rewrite <- inject_Z_mult in *.
    set (n := (m * k)%Z) in *.
    change (2 ^ (- (52))) with (1 # 4503599627370496) in *.
    unfold Qle, Qmult, inject_Z in *. cbn [Qnum Qden] in *. lia.
  - exfalso. apply (Qle_not_lt _ _ Hv).
    apply Qle_lt_trans with (inject_Z (2 ^ 53) * 2 ^ (- (53))); [|reflexivity].
    apply Qle_trans with (inject_Z (2 ^ 53) * 2 ^ e).
    + apply Qmult_le_compat_r; [|apply Qlt_le_weak, two_pos].
      rewrite <- Zle_Qle. lia.
    + apply Qmult_le_l; [reflexivity|].
      apply Qpower_le_compat_l; [lia | discriminate].
Qed.

Lemma binary64_threshold :
  JS.binary64 1.10 = JS.Num (2476979795053773 # 2251799813685248).
Proof. vm_compute. reflexivity. Qed.

Lemma Num_inj (a b : Q) : JS.Num a = JS.Num b -> a = b.
Proof. congruence. Qed.

Lemma binary64_ge_threshold (q v : Q) :
  JS.binary64 q = JS.Num v ->
  (1.10 <= v <-> 2476979795053773 # 2251799813685248 <= v).
Proof.
  intros E. split.
  2: { intros H. eapply Qle_trans; [|exact H]. discriminate. }
  unfold JS.binary64 in E.
  destruct (q ?= 0)%Q eqn:C.
  - injection E as <-. intros H. exfalso. revert H. apply Qlt_not_le. reflexivity.
  - destruct (Qle_bool _ _); [discriminate|]. apply Num_inj in E. subst v.
    setoid_rewrite Qred_correct. intros H. exfalso. revert H. apply Qlt_not_le.
    apply Qlt_alt in C.
    destruct (@nearest_double (- q)) as (m & e & -> & Hm); [lra|].
    apply Qle_lt_trans with 0; [|reflexivity].
    pose proof (two_pos e).
    assert (0 <= inject_Z m) by (change 0 with (inject_Z 0); rewrite <- Zle_Qle; lia).
    assert (0 <= inject_Z m * 2 ^ e) by (apply Qmult_le_0_compat; [assumption | now apply Qlt_le_weak]).
    lra.
  - destruct (Qle_bool _ _); [discriminate|]. apply Num_inj in E. subst v.
    setoid_rewrite Qred_correct. apply Qgt_alt in C.
    destruct (nearest_double C) as (m & e & -> & Hm).
    now apply double_above_threshold with m e.
Qed.

Lemma floorLog2_below (q : Q) : 0 < q -> 2 ^ JS.floorLog2 q <= q.
Proof.
  intros Hq. unfold JS.floorLog2.
  destruct q as [a b]. cbn [Qnum Qden].
  assert (0 < a)%Z as Ha by (unfold Qlt in Hq; simpl in Hq; lia).
  set (la := Z.log2 a). set (lb := Z.log2 (Z.pos b)).
  destruct (Qle_bool (2 ^ (la - lb)) (a # b)) eqn:E.
  - now apply Qle_bool_iff.
  - assert (2 ^ la <= inject_Z a) as La.
    { rewrite <- two_of_Z by (unfold la; apply Z.log2_nonneg).
      rewrite <- Zle_Qle. apply Z.log2_spec. assumption. }
    assert (inject_Z (Z.pos b) <= 2 ^ (lb + 1)) as Ub.
    { rewrite <- two_of_Z by (unfold lb; pose proof (Z.log2_nonneg (Z.pos b)); lia).
      rewrite <- Zle_Qle. apply Z.lt_le_incl, Z.log2_spec. reflexivity. }
    replace (la - lb - 1)%Z with (la + - (lb + 1))%Z by lia.
    rewrite Qpower_plus by discriminate. rewrite Qpower_opp.
    rewrite (Qmake_Qdiv a b).
    pose proof (two_pos (lb + 1)) as P.
    assert (0 < inject_Z (Z.pos b)) as Pb by reflexivity.
    apply Qle_shift_div_l; [assumption|].
    apply Qle_trans with (2 ^ la); [|assumption].
    rewrite <- (Qmult_1_r (2 ^ la)) at 2.
    rewrite <- Qmult_assoc. apply Qmult_le_l; [apply two_pos|].
    rewrite Qmult_comm. apply Qle_shift_div_r; [assumption|].
    now rewrite Qmult_1_l.
Qed.

Lemma roundHalfEven_floor (x : Q) : (Qfloor x <= JS.roundHalfEven x)%Z.
Proof.
  unfold JS.roundHalfEven.
  destruct (x - inject_Z (Qfloor x) ?= 1 # 2)%Q; [destruct (Z.even _)| |]; lia.
Qed.

(** A magnitude of at least the smallest double does not round to zero. *)
Lemma nearest_pos (q : Q) : 2 ^ (-1074) <= q -> 0 < JS.nearest q.
Proof.
  intros Hq.
  assert (0 < q) as Hq0 by (eapply Qlt_le_trans; [apply (two_pos (-1074)) | exact Hq]).
  unfold JS.nearest.
  pose proof (two_pos (JS.ulpExponent q)) as P.
  apply Qmult_lt_0_compat; [|assumption].
  change 0 with (inject_Z 0). rewrite <- Zlt_Qlt.
  apply Z.lt_le_trans with 1%Z; [lia|].
  eapply Z.le_trans; [|apply roundHalfEven_floor].
  change 1%Z with (Qfloor 1). apply Qfloor_resp_le.
  apply Qle_shift_div_l; [assumption|]. rewrite Qmult_1_l.
  unfold JS.ulpExponent.
  destruct (Z.max_spec (JS.floorLog2 q - 52) (-1074)) as [[_ ->]|[_ ->]];
    [assumption|].
  apply Qle_trans with (2 ^ JS.floorLog2 q); [|now apply floorLog2_below].
  apply Qpower_le_compat_l; [lia | discriminate].
Qed.

(** Every finite double is a multiple of the smallest one. *)
Lemma nearest_grid (q : Q) :
  exists k : Z, JS.nearest q == inject_Z k * 2 ^ (-1074).
Proof.
  unfold JS.nearest. set (e := JS.ulpExponent q).
  exists (JS.roundHalfEven (q / 2 ^ e) * 2 ^ (e + 1074))%Z.
  assert (-1074 <= e)%Z by (unfold e, JS.ulpExponent; lia).
  rewrite inject_Z_mult, two_of_Z by lia.
  rewrite <- Qmult_assoc, <- Qpower_plus by discriminate.
  now replace (e + 1074 + -1074)%Z with e by lia.
Qed.

Lemma binary64_grid (q v : Q) :
  JS.binary64 q = JS.Num v -> exists k : Z, v == inject_Z k * 2 ^ (-1074).
Proof.
  unfold JS.binary64.
  destruct (q ?= 0)%Q; intros E.
  - apply Num_inj in E. subst v. exists 0%Z. reflexivity.
  - destruct (Qle_bool _ _); [discriminate|]. apply Num_inj in E. subst v.
    destruct (nearest_grid (- q)) as [k Ek]. exists (- k)%Z.
    rewrite Qred_correct, Ek, inject_Z_opp. ring.
  - destruct (Qle_bool _ _); [discriminate|]. apply Num_inj in E. subst v.
    destruct (nearest_grid q) as [k Ek]. exists k.
    now rewrite Qred_correct.
Qed.

(** The difference of two doubles, rounded, has the sign of the exact
    difference. *)
Lemma difference_sign (a b : Q) :
  (exists k : Z, a == inject_Z k * 2 ^ (-1074)) ->
  (exists k : Z, b == inject_Z k * 2 ^ (-1074)) ->
  JS.sortSign (JS.binary64 (b - a)) = JS.sortSign (JS.sub (JS.Num b) (JS.Num a)).
Proof.
  intros [ka Ea] [kb Eb].
  assert (b - a == inject_Z (kb - ka) * 2 ^ (-1074)) as E
    by (rewrite Ea, Eb; unfold Z.sub; rewrite inject_Z_plus, inject_Z_opp; ring).
  pose proof (two_pos (-1074)) as P.
  unfold JS.binary64. cbn [JS.sortSign JS.sub].
  destruct (b - a ?= 0)%Q eqn:C; [reflexivity | |].
  - apply Qlt_alt in C.
    assert (2 ^ (-1074) <= - (b - a)) as Hq.
    { rewrite E in *. 
      assert (kb - ka < 0)%Z as Hk.
      { destruct (Z_lt_ge_dec (kb - ka) 0) as [|G]; [assumption|exfalso].
        apply (Qlt_not_le _ _ C). apply Qmult_le_0_compat; [|now apply Qlt_le_weak].
        change 0 with (inject_Z 0). rewrite <- Zle_Qle. lia. }
      setoid_replace (- (inject_Z (kb - ka) * 2 ^ (-1074)))
        with (inject_Z (- (kb - ka)) * 2 ^ (-1074)) by (rewrite inject_Z_opp; ring).
      rewrite <- (Qmult_1_l (2 ^ (-1074))) at 1.
      apply Qmult_le_compat_r; [|now apply Qlt_le_weak].
      change 1 with (inject_Z 1). rewrite <- Zle_Qle. lia. }
    apply nearest_pos in Hq.
    destruct (Qle_bool _ _); [reflexivity|]. cbn [JS.sortSign].
    rewrite Qred_correct. apply -> Qlt_alt. lra.
  - apply Qgt_alt in C.
    assert (2 ^ (-1074) <= b - a) as Hq.
    { rewrite E in *.
      assert (0 < kb - ka)%Z as Hk.
      { destruct (Z_lt_ge_dec 0 (kb - ka)) as [|G]; [assumption|exfalso].
        apply (Qlt_not_le _ _ C).
        setoid_replace (inject_Z (kb - ka) * 2 ^ (-1074))
          with (- (inject_Z (- (kb - ka)) * 2 ^ (-1074))) by (rewrite inject_Z_opp; ring).
        assert (0 <= inject_Z (- (kb - ka)) * 2 ^ (-1074)).
        { apply Qmult_le_0_compat; [|now apply Qlt_le_weak].
          change 0 with (inject_Z 0). rewrite <- Zle_Qle. lia. }
        lra. }
      rewrite <- (Qmult_1_l (2 ^ (-1074))) at 1.
      apply Qmult_le_compat_r; [|now apply Qlt_le_weak].
      change 1 with (inject_Z 1). rewrite <- Zle_Qle. lia. }
    apply nearest_pos in Hq.
    destruct (Qle_bool _ _); [reflexivity|]. cbn [JS.sortSign].
    rewrite Qred_correct. apply -> Qgt_alt. assumption.
Qed.

Lemma parseFloat_cases (s : string) :
  JS.parseFloat s = JS.NaN
  \/ (exists negative, JS.parseFloat s = JS.Inf negative)
  \/ (exists q, JS.parseFloat s = JS.binary64 q).
Proof.
  unfold JS.parseFloat, JS.parseMagnitude.
  repeat match goal with
         | |- context [match ?x with _ => _ end] => destruct x
         end; eauto.
Qed.

Lemma parseFloat_grid (s : string) (v : Q) :
  JS.parseFloat s = JS.Num v -> exists k : Z, v == inject_Z k * 2 ^ (-1074).
Proof.
  destruct (parseFloat_cases s) as [-> | [[negative ->] | [q ->]]];
    [discriminate | discriminate | apply binary64_grid].
Qed.

(** The comparator of the projections table subtracts two doubles; the
    rounded difference has the sign of the exact one [JS.sub] gives. *)
Lemma projectionCompare_sign (a b : PlayerProjection.t) (x y : Q) :
  Page.hitsOrZero a = JS.Num x -> Page.hitsOrZero b = JS.Num y ->
  JS.sortSign (JS.binary64 (y - x)) = JS.sortSign (Page.projectionCompare a b).
Proof.
  assert (forall p v, Page.hitsOrZero p = JS.Num v ->
                      exists k : Z, v == inject_Z k * 2 ^ (-1074)) as G.
  { intros p v. unfold Page.hitsOrZero.
    destruct (negb (PlayerProjection.H p =? "-")); [apply parseFloat_grid|].
    intros E. apply Num_inj in E. subst v. exists 0%Z. reflexivity. }
  intros Ea Eb. unfold Page.projectionCompare. cbv zeta. rewrite Ea, Eb.
  apply difference_sign; [apply (G a) | apply (G b)]; assumption.
Qed.

(** Against a number the page has read, the constant [1.10] of the source
    (a double) and the decimal 1.10 decide alike. *)
Lemma ge_threshold (s : string) :
  JS.ge (JS.parseFloat s) (JS.binary64 1.10) = JS.ge (JS.parseFloat s) (JS.Num 1.10).
Proof.
  rewrite binary64_threshold.
  destruct (parseFloat_cases s) as [-> | [[negative ->] | [q E]]];
    [reflexivity | reflexivity |].
  rewrite E. destruct (JS.binary64 q) as [| negative | v] eqn:B;
    [reflexivity | reflexivity |].
  apply binary64_ge_threshold in B.
  apply eq_true_iff_eq. rewrite !ge_Num. symmetry. exact B.
Qed.

Lemma flagged_iff (p : PlayerProjection.t) :
  Page.flagged p = true <-> JS.ge (Spec.hitCount p) Spec.hitThreshold = true.
Proof.
  unfold Page.flagged, Spec.hitCount, Spec.hitThreshold.
  destruct (string_dec (PlayerProjection.H p) "-") as [E|E].
  - rewrite E. simpl. split; discriminate.
  - apply String.eqb_neq in E. rewrite E, ge_threshold. reflexivity.
Qed.

(** Hit fields that differ as decimals and are the same double count as
    equal: the rows keep their order and both are flagged.  A field beyond
    the largest double reads as an infinity. *)
Example projectionTable_rounds :
  let r0 := Samples.projectionRow "A. Judge" "NYY @ BOS" "1.0999999999999999999" in
  let r1 := Samples.projectionRow "R. Devers" "NYY @ BOS" "1.1" in
  let r2 := Samples.projectionRow "M. Betts" "LAD @ SF" "1e400" in
  let r3 := Samples.projectionRow "F. Freeman" "LAD @ SF" "Infinity" in
  JS.parseFloat "1.0999999999999999999" = JS.parseFloat "1.1"
  /\ JS.parseFloat "1e400" = JS.Inf false
  /\ Page.projectionTable [r0; r1] = [(true, r0); (true, r1)]
  /\ Page.projectionTable [r2; r3] = [(true, r2); (true, r3)]
  /\ Page.projectionTable [r1; r2] = [(true, r2); (true, r1)].
Proof. vm_compute. repeat split. Qed.

(** C5. When every hit-count field is the placeholder or numeric, the
    projections table lists the first 50 of the filtered projections ordered
    by hit count descending, the placeholder counting as zero, and a row is
    flagged exactly when its hit count is at least 1.10.  For the hit values
    2.3, "-", 1.05 the rows come out as 2.3, 1.05, "-" and only the first is
    flagged. *)
Theorem projectionTable_spec :
  (forall (selectedGames : list string)
          (playerProjections : list PlayerProjection.t),
      let shown := Page.filteredPlayerProjections selectedGames playerProjections in
      Forall Spec.numericOrPlaceholder shown ->
      (exists ordered : list PlayerProjection.t,
          Spec.orderedBy Spec.projectionBefore Spec.projectionSameKey shown ordered
          /\ map snd (Page.projectionTable shown) = firstn 50 ordered)
      /\ Forall (fun row => fst row = true
                            <-> JS.ge (Spec.hitCount (snd row)) Spec.hitThreshold = true)
                (Page.projectionTable shown))
  /\ (forall a b c : PlayerProjection.t,
         PlayerProjection.H a = "2.3" -> PlayerProjection.H b = "-" ->
         PlayerProjection.H c = "1.05" ->
         Page.projectionTable (Page.filteredPlayerProjections [] [a; b; c])
         = [(true, a); (false, c); (false, b)]).
Proof.
  split.
  - intros selectedGames playerProjections shown Hok. split.
    + exists (JS.sort Page.projectionCompare shown). split.
      * now apply projection_sort_orderedBy.
      * unfold Page.projectionTable, JS.slice0.
        rewrite map_map. simpl. apply map_id.
    + unfold Page.projectionTable. apply Forall_forall.
      intros row Hrow. apply in_map_iff in Hrow.
      destruct Hrow as [p [<- _]]. simpl. apply flagged_iff.
  - intros [] [] [] Ha Hb Hc. simpl in Ha, Hb, Hc. subst.
    reflexivity.
Qed.

Lemma projectionTable_spec_witness :
  let shown :=
    Page.filteredPlayerProjections ["NYY @ BOS"]
      [ Samples.projectionRow "A. Judge" "NYY @ BOS" "1.05";
        Samples.projectionRow "G. Cole" "NYY @ BOS" "-";
        Samples.projectionRow "M. Betts" "LAD @ SF" "1.4";
        Samples.projectionRow "R. Devers" "NYY @ BOS" "2.3" ] in
  Forall Spec.numericOrPlaceholder shown
  /\ (exists ordered : list PlayerProjection.t,
         Spec.orderedBy Spec.projectionBefore Spec.projectionSameKey shown ordered
         /\ map snd (Page.projectionTable shown) = firstn 50 ordered)
  /\ Forall (fun row => fst row = true
                        <-> JS.ge (Spec.hitCount (snd row)) Spec.hitThreshold = true)
            (Page.projectionTable shown).
Proof.
  intros shown.
  assert (Forall Spec.numericOrPlaceholder shown) as Hok.
  { unfold shown. cbn.
    repeat apply Forall_cons; try apply Forall_nil;
      unfold Spec.numericOrPlaceholder;
      cbn [PlayerProjection.H Samples.projectionRow];
      try (now left); right; vm_compute; discriminate. }
  split; [exact Hok|].
  exact (proj1 projectionTable_spec ["NYY @ BOS"] _ Hok).
Defined.

(* ================================================================== *)
(** * The selectable games *)
(* ================================================================== *)

Lemma setAdd_In (members : list string) (x y : string) :
  In y (JS.setAdd members x) <-> In y members \/ y = x.
Proof.
  unfold JS.setAdd. destruct (JS.inb x members) eqn:E.
  - apply inb_In in E. split; [auto|]. intros [H | ->]; assumption.
  - rewrite in_app_iff. simpl. intuition.
Qed.

Lemma setAdd_NoDup (members : list string) (x : string) :
  NoDup members -> NoDup (JS.setAdd members x).
Proof.
  intros Hnd. unfold JS.setAdd. destruct (JS.inb x members) eqn:E; [assumption|].
  apply NoDup_app; [assumption | repeat constructor; auto |].
  intros y Hy [<-|[]].
  apply inb_In in Hy. congruence.
Qed.

Lemma fold_setAdd (arr members : list string) :
  NoDup members ->
  NoDup (fold_left JS.setAdd arr members)
  /\ forall y, In y (fold_left JS.setAdd arr members) <-> In y members \/ In y arr.
Proof.
  revert members. induction arr as [|x arr IH]; intros members Hnd; simpl.
  - split; [assumption|]. intuition.
  - destruct (IH _ (setAdd_NoDup x Hnd)) as [H1 H2]. split; [assumption|].
    intros y. rewrite H2, setAdd_In. intuition.
Qed.

Lemma arrayFromNewSet_spec (arr : list string) :
  NoDup (JS.arrayFromNewSet arr)
  /\ forall y, In y (JS.arrayFromNewSet arr) <-> In y arr.
Proof.
  destruct (fold_setAdd arr (NoDup_nil string)) as [H1 H2].
  split; [assumption|]. intros y. unfold JS.arrayFromNewSet.
  rewrite H2. simpl. tauto.
Qed.

(** Code-unit order on strings. *)
Lemma string_compare_refl (x : string) : (x ?= x)%string = Eq.
Proof. apply String_as_OT.cmp_eq. reflexivity. Qed.

Lemma string_leb_trans (x y z : string) :
  String.leb x y = true -> String.leb y z = true -> String.leb x z = true.
Proof.
  unfold String.leb. intros Hxy Hyz.
  destruct (x ?= y)%string eqn:Exy; try discriminate;
    destruct (y ?= z)%string eqn:Eyz; try discriminate.
  - apply String_as_OT.cmp_eq in Exy. subst. now rewrite Eyz.
  - apply String_as_OT.cmp_eq in Exy. subst. now rewrite Eyz.
  - apply String_as_OT.cmp_eq in Eyz. subst. now rewrite Exy.
  - apply String_as_OT.cmp_lt in Exy, Eyz.
    pose proof (String_as_OT.lt_trans _ _ _ Exy Eyz) as H.
    apply String_as_OT.cmp_lt in H. unfold String_as_OT.cmp in H. now rewrite H.
Qed.

Lemma defaultCompare_after (x y : string) :
  JS.after JS.defaultCompare x y = false <-> String.leb x y = true.
Proof.
  unfold JS.after, JS.defaultCompare, String.ltb, String.leb.
  rewrite (String.compare_antisym y x).
  destruct (x ?= y)%string; cbv; split; congruence.
Qed.

Lemma string_eqb_leb (x y : string) :
  String.eqb x y = true <-> String.leb x y = true /\ String.leb y x = true.
Proof.
  rewrite String.eqb_eq. split.
  - intros ->. unfold String.leb. now rewrite string_compare_refl.
  - intros [H1 H2]. now apply String.leb_antisym.
Qed.

Lemma defaultSort_orderedBy (l : list string) :
  Spec.orderedBy (fun x y => String.leb x y = true) String.eqb l
    (JS.sort JS.defaultCompare l).
Proof.
  apply sort_orderedBy with (ok := fun _ => True).
  - intros x y _ _. apply defaultCompare_after.
  - intros x y _ _. apply String.leb_total.
  - intros x y z _ _ _. apply string_leb_trans.
  - intros x y _ _. apply string_eqb_leb.
  - apply Forall_forall. trivial.
Qed.

Lemma sorted_NoDup_strict (l : list string) :
  NoDup l -> StronglySorted (fun x y => String.leb x y = true) l ->
  Spec.lexAscending l.
Proof.
  unfold Spec.lexAscending.
  induction 1 as [|x l Hx Hnd IH]; intros Hs; [constructor|].
  inversion Hs as [|? ? Hs' Hall]; subst.
  constructor; [now apply IH|].
  rewrite Forall_forall in *. intros y Hy.
  specialize (Hall y Hy). unfold String.leb in Hall. unfold String.ltb.
  destruct (x ?= y)%string eqn:E; try discriminate; [|reflexivity].
  apply String_as_OT.cmp_eq in E. subst. contradiction.
Qed.

(** C9. The selectable games are the game identifiers that occur in any of
    the three collections, the empty string and "-" left out, each listed
    once, in strictly ascending lexicographic order. *)
Theorem allGames_spec
    (playerProjections : list PlayerProjection.t)
    (batterAnalysis : list BatterAnalysis.t)
    (pitcherAnalysis : list PitcherAnalysis.t) :
  let games := Page.allGames playerProjections batterAnalysis pitcherAnalysis in
  Spec.lexAscending games
  /\ NoDup games
  /\ forall g : string,
       In g games
       <-> (In g (map PlayerProjection.GAME playerProjections)
            \/ In g (map BatterAnalysis.GAME batterAnalysis)
            \/ In g (map PitcherAnalysis.GAME pitcherAnalysis))
           /\ g <> "" /\ g <> "-".
Proof.
  intros games. unfold games, Page.allGames.
  set (all := map PlayerProjection.GAME playerProjections
              ++ map BatterAnalysis.GAME batterAnalysis
              ++ map PitcherAnalysis.GAME pitcherAnalysis).
  set (keep := fun game : string => negb (game =? "") && negb (game =? "-")).
  destruct (arrayFromNewSet_spec all) as [Hnd Hin].
  assert (NoDup (JS.sort JS.defaultCompare (filter keep (JS.arrayFromNewSet all))))
    as Hnd'.
  { eapply Permutation_NoDup.
    - apply Permutation_sym, sort_perm.
    - now apply NoDup_filter. }
  split; [|split].
  - apply sorted_NoDup_strict; [assumption|]. apply defaultSort_orderedBy.
  - assumption.
  - intros g. rewrite sort_In, filter_In, Hin. unfold all, keep.
    rewrite !in_app_iff, andb_true_iff, !negb_true_iff, !String.eqb_neq.
    tauto.
Qed.

(* ================================================================== *)
(** * Rendering over shared arrays *)
(* ================================================================== *)

Section StoreFacts.
Context {A : Type}.
Implicit Types (h : Render.store A) (r : Render.ref) (arr : list A).

Lemma deref_app_old h arr r :
  (r < List.length h)%nat -> Render.deref (h ++ [arr]) r = Render.deref h r.
Proof. intros H. unfold Render.deref. now apply app_nth1. Qed.

Lemma deref_app_new h arr : Render.deref (h ++ [arr]) (List.length h) = arr.
Proof.
  unfold Render.deref. rewrite app_nth2 by lia.
  now rewrite Nat.sub_diag.
Qed.

Lemma length_assign h r arr :
  List.length (Render.assign r arr h) = List.length h.
Proof.
  revert r. induction h as [|a h IH]; intros [|r]; simpl; auto.
Qed.

Lemma deref_assign_same h r arr :
  (r < List.length h)%nat -> Render.deref (Render.assign r arr h) r = arr.
Proof.
  unfold Render.deref.
  revert r. induction h as [|a h IH]; intros [|r]; simpl; intros H;
    try lia; auto. apply IH. lia.
Qed.

Lemma deref_assign_other h r r' arr :
  r <> r' -> Render.deref (Render.assign r arr h) r' = Render.deref h r'.
Proof.
  unfold Render.deref.
  revert r r'. induction h as [|a h IH]; intros [|r] [|r'] H; simpl;
    try congruence; auto.
Qed.

End StoreFacts.

Ltac store_len :=
  rewrite ?length_app, ?length_assign, ?length_app, ?length_assign;
  simpl; lia.

Ltac store_simpl :=
  repeat first
    [ rewrite deref_app_new
    | rewrite deref_app_old by store_len
    | rewrite deref_assign_same by store_len
    | rewrite deref_assign_other by store_len ].

Ltac render_unfold :=
  cbv beta iota zeta delta
    [Render.render Render.bind Render.ret Render.onProjections Render.onBatters
     Render.onPitchers Render.filtered Render.arrayFilter Render.arraySort
     Render.arraySlice0 Render.arrayRead Render.alloc
     Render.heldProjections Render.heldBatters Render.heldPitchers
     Render.wellFormed
     Render.playerProjections Render.batterAnalysis Render.pitcherAnalysis
     Render.selectedGames Render.projections Render.batters Render.pitchers
     Render.allGames Render.totalPlayers Render.batterOpportunities
     Render.pitcherOpportunities Render.highConfidence
     Render.topBatterOpportunities Render.topPitcherOpportunities
     Render.projectionRows Render.batterRows Render.pitcherRows
     fst snd] in *.

(** With no game selected, one render sorts the arrays the state holds. *)
Lemma render_held_unselected (st : Render.State) (h : Render.Heap) :
  Render.wellFormed st h ->
  Render.selectedGames st = [] ->
  let h' := snd (Render.render st h) in
  Render.heldProjections st h'
    = JS.sort Page.projectionCompare (Render.heldProjections st h)
  /\ Render.heldBatters st h'
     = JS.sort Page.batterCompare (Render.heldBatters st h)
  /\ Render.heldPitchers st h' = Render.heldPitchers st h.
Proof.
  intros Hwf Hsel.
  destruct st as [rp rb rpi sel], h as [hp hb hpi].
  render_unfold. subst sel. destruct Hwf as (Hp & Hb & Hpi).
  change (List.length (@nil string) =? 0)%nat with true. cbv beta iota.
  repeat split; store_simpl; reflexivity.
Qed.

(** With a game selected, the state's arrays are left as they were. *)
Lemma render_held_selected (st : Render.State) (h : Render.Heap) :
  Render.wellFormed st h ->
  Render.selectedGames st <> [] ->
  let h' := snd (Render.render st h) in
  Render.heldProjections st h' = Render.heldProjections st h
  /\ Render.heldBatters st h' = Render.heldBatters st h
  /\ Render.heldPitchers st h' = Render.heldPitchers st h.
Proof.
  intros Hwf Hsel.
  destruct st as [rp rb rpi sel], h as [hp hb hpi].
  render_unfold. destruct Hwf as (Hp & Hb & Hpi).
  destruct sel as [|g sel]; [congruence|].
  change (List.length (g :: sel) =? 0)%nat with false. cbv beta iota.
  repeat split; store_simpl; reflexivity.
Qed.

(** What a render shows is what the definitions by value give on the
    collections held when it starts. *)
Lemma render_views (st : Render.State) (h : Render.Heap) :
  Render.wellFormed st h ->
  let shownProjections :=
    Page.filteredPlayerProjections (Render.selectedGames st)
                                   (Render.heldProjections st h) in
  let shownBatters :=
    Page.filteredBatterAnalysis (Render.selectedGames st)
                                (Render.heldBatters st h) in
  let shownPitchers :=
    Page.filteredPitcherAnalysis (Render.selectedGames st)
                                 (Render.heldPitchers st h) in
  fst (Render.render st h)
  = {| Render.allGames :=
         Page.allGames (Render.heldProjections st h) (Render.heldBatters st h)
                       (Render.heldPitchers st h);
       Render.totalPlayers := List.length shownProjections;
       Render.batterOpportunities := List.length shownBatters;
       Render.pitcherOpportunities := List.length shownPitchers;
       Render.highConfidence := Page.highConfidence shownBatters shownPitchers;
       Render.topBatterOpportunities := Page.topBatterOpportunities shownBatters;
       Render.topPitcherOpportunities := Page.topPitcherOpportunities shownPitchers;
       Render.projectionRows := Page.projectionTable shownProjections;
       Render.batterRows := Page.batterTable shownBatters;
       Render.pitcherRows := Page.pitcherTable shownPitchers |}.
Proof.
  intros Hwf.
  destruct st as [rp rb rpi sel], h as [hp hb hpi].
  unfold Page.filteredPlayerProjections, Page.filteredBatterAnalysis,
    Page.filteredPitcherAnalysis, Page.topBatterOpportunities,
    Page.topPitcherOpportunities, Page.projectionTable, Page.batterTable,
    Page.pitcherTable.
  render_unfold. destruct Hwf as (Hp & Hb & Hpi).
  destruct sel as [|g sel].
  - change (List.length (@nil string) =? 0)%nat with true. cbv beta iota.
    store_simpl. reflexivity.
  - change (List.length (g :: sel) =? 0)%nat with false. cbv beta iota.
    store_simpl. reflexivity.
Qed.

(** C10. With no game selected the filtered collections are the arrays the
    state holds, and the two sorted tables sort them in place: the rows the
    tables show are the held arrays as the render leaves them, each a
    rearrangement of what was held before.  When the hit fields are numeric
    or the placeholder the held projections end up in hit-count-descending
    order, and when the labels are plain the held batter rows end up ordered
    by confidence rank, then edge percentage; in both cases rows of equal key
    keep their order.  There is a state that a render changes. *)
Theorem render_reorders_held_state :
  (forall (st : Render.State) (h : Render.Heap),
      Render.wellFormed st h ->
      Render.selectedGames st = [] ->
      let shown := fst (Render.render st h) in
      let h' := snd (Render.render st h) in
      map snd (Render.projectionRows shown)
        = JS.slice0 50 (Render.heldProjections st h')
      /\ Render.batterRows shown = Render.heldBatters st h'
      /\ Permutation (Render.heldProjections st h') (Render.heldProjections st h)
      /\ Permutation (Render.heldBatters st h') (Render.heldBatters st h)
      /\ (Forall Spec.numericOrPlaceholder (Render.heldProjections st h) ->
          Spec.orderedBy Spec.projectionBefore Spec.projectionSameKey
            (Render.heldProjections st h) (Render.heldProjections st h'))
      /\ (Forall Spec.plainLabel (Render.heldBatters st h) ->
          Spec.orderedBy Spec.batterBefore Spec.batterSameKey
            (Render.heldBatters st h) (Render.heldBatters st h')))
  /\ (exists (st : Render.State) (h : Render.Heap),
         Render.wellFormed st h
         /\ Render.selectedGames st = []
         /\ Forall Spec.numericOrPlaceholder (Render.heldProjections st h)
         /\ Forall Spec.plainLabel (Render.heldBatters st h)
         /\ Render.heldProjections st (snd (Render.render st h))
            <> Render.heldProjections st h
         /\ Render.heldBatters st (snd (Render.render st h))
            <> Render.heldBatters st h).
Proof.
  split.
  - intros st h Hwf Hsel shown h'.
    destruct (render_held_unselected Hwf Hsel) as (Ep & Eb & _).
    fold h' in Ep, Eb. rewrite Ep, Eb.
    unfold shown. rewrite (render_views Hwf). cbv zeta.
    cbn [Render.projectionRows Render.batterRows]. rewrite Hsel.
    split; [|split; [reflexivity|]].
    { unfold Page.projectionTable, Page.filteredPlayerProjections.
      change (List.length (@nil string) =? 0)%nat with true. cbv iota.
      rewrite map_map. apply map_id. }
    split; [apply sort_perm|]. split; [apply sort_perm|].
    split; intros Hok;
      [now apply projection_sort_orderedBy | now apply batter_sort_orderedBy].
  - exists Mounted.state, Mounted.heap.
    split; [unfold Render.wellFormed; simpl; lia|].
    split; [reflexivity|].
    split.
    { repeat apply Forall_cons; try apply Forall_nil;
        unfold Spec.numericOrPlaceholder;
        cbn [PlayerProjection.H Samples.projectionRow];
        try (now left); right; vm_compute; discriminate. }
    split.
    { repeat apply Forall_cons; try apply Forall_nil;
        unfold Spec.plainLabel; simpl; intuition discriminate. }
    split; vm_compute; discriminate.
Qed.

Lemma render_reorders_held_state_witness :
  Render.wellFormed Mounted.state Mounted.heap
  /\ Render.selectedGames Mounted.state = []
  /\ Forall Spec.numericOrPlaceholder
       (Render.heldProjections Mounted.state Mounted.heap)
  /\ Forall Spec.plainLabel (Render.heldBatters Mounted.state Mounted.heap)
  /\ Spec.orderedBy Spec.projectionBefore Spec.projectionSameKey
       (Render.heldProjections Mounted.state Mounted.heap)
       (Render.heldProjections Mounted.state
          (snd (Render.render Mounted.state Mounted.heap)))
  /\ Spec.orderedBy Spec.batterBefore Spec.batterSameKey
       (Render.heldBatters Mounted.state Mounted.heap)
       (Render.heldBatters Mounted.state
          (snd (Render.render Mounted.state Mounted.heap))).
Proof.
  assert (Render.wellFormed Mounted.state Mounted.heap) as Hwf
    by (unfold Render.wellFormed; simpl; lia).
  assert (Forall Spec.numericOrPlaceholder
            (Render.heldProjections Mounted.state Mounted.heap)) as Hp.
  { repeat apply Forall_cons; try apply Forall_nil;
      unfold Spec.numericOrPlaceholder;
      cbn [PlayerProjection.H Samples.projectionRow];
      try (now left); right; vm_compute; discriminate. }
  assert (Forall Spec.plainLabel
            (Render.heldBatters Mounted.state Mounted.heap)) as Hb.
  { repeat apply Forall_cons; try apply Forall_nil;
      unfold Spec.plainLabel; simpl; intuition discriminate. }
  destruct (proj1 render_reorders_held_state Mounted.state Mounted.heap
              Hwf eq_refl) as (_ & _ & _ & _ & Op & Ob).
  split; [exact Hwf|]. split; [reflexivity|].
  split; [exact Hp|]. split; [exact Hb|].
  split; [exact (Op Hp) | exact (Ob Hb)].
Defined.

(* ================================================================== *)
(** * The data routes *)
(* ================================================================== *)

Section DataRouteFacts.
Variable json : Type.
Variable parse : string -> option json.

Local Abbreviation GET := (DataRoute.GET parse).
Local Abbreviation failure := (fun r : DataRoute.resource =>
  {| DataRoute.status := 500;
     DataRoute.payload := DataRoute.ErrorPayload json (DataRoute.errorText r) |}).

Lemma GET_cases (r : DataRoute.resource) (cwd : DataRoute.path)
    (fs : DataRoute.fileSystem) :
  GET r cwd fs
  = match fs (cwd ++ DataRoute.fileSegments r) with
    | Exn.Returned text =>
        match parse text with
        | Some data => {| DataRoute.status := 200;
                          DataRoute.payload := DataRoute.Data data |}
        | None => failure r
        end
    | Exn.Thrown _ => failure r
    end.
Proof.
  unfold DataRoute.GET, DataRoute.readFileSync, DataRoute.pathJoin,
    DataRoute.JSONparse.
  destruct (fs (cwd ++ DataRoute.fileSegments r)) as [text|e]; simpl;
    [|reflexivity].
  destruct (parse text); reflexivity.
Qed.

Lemma fileSegments_injective (r r' : DataRoute.resource) :
  DataRoute.fileSegments r = DataRoute.fileSegments r' -> r = r'.
Proof. destruct r, r'; simpl; intros H; congruence. Qed.

(** C7. Each data route answers with the whole decoded content of its file
    and status 200 when the file can be read and parsed, and otherwise, for a
    missing file, any other read error or a parse failure alike, with status
    500 and the payload "Failed to load ... data"; there is no third
    answer.  A route depends on its own file only: with the batter file
    missing, the batter route fails while the projections route still
    returns its data. *)
Theorem data_routes_spec (cwd : DataRoute.path) (fs : DataRoute.fileSystem) :
  (forall r : DataRoute.resource,
      let file := fs (cwd ++ DataRoute.fileSegments r) in
      (forall text data,
          file = Exn.Returned text -> parse text = Some data ->
          GET r cwd fs = {| DataRoute.status := 200;
                            DataRoute.payload := DataRoute.Data data |})
      /\ (forall text,
             file = Exn.Returned text -> parse text = None ->
             GET r cwd fs = failure r)
      /\ (forall e, file = Exn.Thrown e -> GET r cwd fs = failure r)
      /\ (GET r cwd fs = failure r
          \/ exists text data,
               file = Exn.Returned text /\ parse text = Some data
               /\ GET r cwd fs = {| DataRoute.status := 200;
                                    DataRoute.payload := DataRoute.Data data |})
      /\ (exists what : string,
             DataRoute.errorText r = ("Failed to load " ++ what ++ " data")%string)
      /\ (forall fs' : DataRoute.fileSystem,
             fs' (cwd ++ DataRoute.fileSegments r) = file ->
             GET r cwd fs' = GET r cwd fs))
  /\ (forall r r' : DataRoute.resource,
         r <> r' ->
         cwd ++ DataRoute.fileSegments r <> cwd ++ DataRoute.fileSegments r')
  /\ (forall text data,
         fs (cwd ++ DataRoute.fileSegments DataRoute.batterAnalysis)
           = Exn.Thrown (DataRoute.SystemError "ENOENT") ->
         fs (cwd ++ DataRoute.fileSegments DataRoute.projections)
           = Exn.Returned text ->
         parse text = Some data ->
         GET DataRoute.batterAnalysis cwd fs = failure DataRoute.batterAnalysis
         /\ GET DataRoute.projections cwd fs
            = {| DataRoute.status := 200;
                 DataRoute.payload := DataRoute.Data data |}).
Proof.
  split; [|split].
  - intros r file. unfold file. repeat split.
    + intros text data Hf Hp. now rewrite GET_cases, Hf, Hp.
    + intros text Hf Hp. now rewrite GET_cases, Hf, Hp.
    + intros e Hf. now rewrite GET_cases, Hf.
    + rewrite GET_cases.
      destruct (fs (cwd ++ DataRoute.fileSegments r)) as [text|e]; [|now left].
      destruct (parse text) as [data|] eqn:Hp; [|now left].
      right. exists text, data. auto.
    + destruct r; simpl.
      * now exists "projections".
      * now exists "batter analysis".
      * now exists "pitcher analysis".
      * now exists "hits runs rbis analysis".
    + intros fs' Hf. rewrite !GET_cases. now rewrite Hf.
  - intros r r' Hne Heq. apply app_inv_head in Heq.
    now apply fileSegments_injective in Heq.
  - intros text data Hb Hp Hparse. split.
    + now rewrite GET_cases, Hb.
    + now rewrite GET_cases, Hp, Hparse.
Qed.

End DataRouteFacts.

Lemma data_routes_spec_witness :
  DataRoute.GET Disk.parse DataRoute.batterAnalysis Disk.cwd Disk.fs
  = {| DataRoute.status := 500;
       DataRoute.payload :=
         DataRoute.ErrorPayload _ "Failed to load batter analysis data" |}
  /\ DataRoute.GET Disk.parse DataRoute.projections Disk.cwd Disk.fs
     = {| DataRoute.status := 200; DataRoute.payload := DataRoute.Data [] |}.
Proof.
  apply (proj2 (proj2 (data_routes_spec Disk.parse Disk.cwd Disk.fs)) "[]" []);
    reflexivity.
Defined.

(* ================================================================== *)
(** * The update route *)
(* ================================================================== *)

Lemma string_append_assoc (a b c : string) :
  ((a ++ b) ++ c = a ++ (b ++ c))%string.
Proof. induction a as [|ch a IH]; simpl; [reflexivity | now rewrite IH]. Qed.

Lemma string_append_empty (a : string) : (a ++ "")%string = a.
Proof. induction a as [|ch a IH]; simpl; [reflexivity | now rewrite IH]. Qed.

(** While the child writes, the two buffers grow and nothing is settled. *)
Lemma on_written (chunks : list (UpdateRoute.stream * string))
    (s : UpdateRoute.handler) :
  fold_left UpdateRoute.on (map UpdateRoute.written chunks) s
  = {| UpdateRoute.stdout :=
         (UpdateRoute.stdout s ++ UpdateRoute.captured UpdateRoute.Out chunks)%string;
       UpdateRoute.stderr :=
         (UpdateRoute.stderr s ++ UpdateRoute.captured UpdateRoute.Err chunks)%string;
       UpdateRoute.settled := UpdateRoute.settled s |}.
Proof.
  revert s. induction chunks as [|[[] data] chunks IH]; intros s.
  - simpl. rewrite !string_append_empty. now destruct s.
  - simpl. rewrite IH. simpl. now rewrite string_append_assoc.
  - simpl. rewrite IH. simpl. now rewrite string_append_assoc.
Qed.

(** A settled promise stays as it is. *)
Lemma on_settled (events : list UpdateRoute.event) (s : UpdateRoute.handler)
    (r : UpdateRoute.response) :
  UpdateRoute.settled s = Some r ->
  UpdateRoute.settled (fold_left UpdateRoute.on events s) = Some r.
Proof.
  revert s. induction events as [|e events IH]; intros s Hs; [assumption|].
  simpl. apply IH.
  assert (forall r', UpdateRoute.resolve r' s = s) as Hres
    by (intros r'; unfold UpdateRoute.resolve; now rewrite Hs).
  destruct e as [d|d|[[| |]|]|m]; cbn [UpdateRoute.on UpdateRoute.settled];
    rewrite ?Hres; assumption.
Qed.

(** The first [close] or [error] event settles the promise, with the
    buffers as the chunks before it left them. *)
Lemma POST_ending (cwd : list string)
    (chunks : list (UpdateRoute.stream * string))
    (ending : UpdateRoute.event) (later : list UpdateRoute.event) :
  (exists code, ending = UpdateRoute.Close code)
  \/ (exists m, ending = UpdateRoute.Error m) ->
  UpdateRoute.POST (Exn.Returned cwd)
    (map UpdateRoute.written chunks ++ ending :: later)
  = UpdateRoute.settled
      (UpdateRoute.on
         {| UpdateRoute.stdout := UpdateRoute.captured UpdateRoute.Out chunks;
            UpdateRoute.stderr := UpdateRoute.captured UpdateRoute.Err chunks;
            UpdateRoute.settled := None |} ending).
Proof.
  intros Hend. unfold UpdateRoute.POST. simpl.
  rewrite fold_left_app, on_written. simpl.
  destruct Hend as [[code ->]|[m ->]].
  - destruct code as [[| |]|]; simpl; apply on_settled; reflexivity.
  - simpl. apply on_settled. reflexivity.
Qed.

(** C2. Whatever the child wrote before: when it exits with status zero the
    response reports success and carries what was written to its standard
    output; when it exits with another status, or is ended by a signal, the
    response reports failure with the message "Data update failed" and what
    was written to its standard error as the error; when it could not be
    started the response reports failure with the message of the launch
    error, and so it does when the handler fails before it spawns the
    child.  With status 1 and "network timeout" on the standard error the
    error is "network timeout". *)
Theorem POST_spec (cwd : list string)
    (chunks : list (UpdateRoute.stream * string))
    (later : list UpdateRoute.event) :
  let wrote := map UpdateRoute.written chunks in
  UpdateRoute.POST (Exn.Returned cwd)
    (wrote ++ UpdateRoute.Close (Some 0%Z) :: later)
  = Some {| UpdateRoute.status := 200;
            UpdateRoute.payload :=
              {| UpdateRoute.success := true;
                 UpdateRoute.message := "Data update completed successfully";
                 UpdateRoute.error := None;
                 UpdateRoute.output :=
                   Some (UpdateRoute.captured UpdateRoute.Out chunks) |} |}
  /\ (forall code : option Z,
         code <> Some 0%Z ->
         UpdateRoute.POST (Exn.Returned cwd)
           (wrote ++ UpdateRoute.Close code :: later)
         = Some {| UpdateRoute.status := 500;
                   UpdateRoute.payload :=
                     {| UpdateRoute.success := false;
                        UpdateRoute.message := "Data update failed";
                        UpdateRoute.error :=
                          Some (UpdateRoute.captured UpdateRoute.Err chunks);
                        UpdateRoute.output :=
                          Some (UpdateRoute.captured UpdateRoute.Out chunks) |} |})
  /\ (forall launchError : string,
         UpdateRoute.POST (Exn.Returned cwd)
           (wrote ++ UpdateRoute.Error launchError :: later)
         = Some {| UpdateRoute.status := 500;
                   UpdateRoute.payload :=
                     {| UpdateRoute.success := false;
                        UpdateRoute.message := "Failed to start update process";
                        UpdateRoute.error := Some launchError;
                        UpdateRoute.output := None |} |})
  /\ (forall (failure : string) (events : list UpdateRoute.event),
         UpdateRoute.POST (Exn.Thrown (UpdateRoute.ErrorObject failure)) events
         = Some {| UpdateRoute.status := 500;
                   UpdateRoute.payload :=
                     {| UpdateRoute.success := false;
                        UpdateRoute.message := "Internal server error";
                        UpdateRoute.error := Some failure;
                        UpdateRoute.output := None |} |})
  /\ UpdateRoute.POST (Exn.Returned cwd)
       [UpdateRoute.StderrData "network timeout"; UpdateRoute.Close (Some 1%Z)]
     = Some {| UpdateRoute.status := 500;
               UpdateRoute.payload :=
                 {| UpdateRoute.success := false;
                    UpdateRoute.message := "Data update failed";
                    UpdateRoute.error := Some "network timeout";
                    UpdateRoute.output := Some "" |} |}.
Proof.
  intros wrote. unfold wrote. repeat split.
  - rewrite POST_ending by eauto. reflexivity.
  - intros code Hcode. rewrite POST_ending by eauto.
    destruct code as [[| |]|]; try reflexivity. congruence.
  - intros launchError. rewrite POST_ending by eauto. reflexivity.
Qed.

Lemma POST_spec_witness :
  UpdateRoute.POST (Exn.Returned Disk.cwd)
    (map UpdateRoute.written
         [(UpdateRoute.Out, "Scraping projections..."); (UpdateRoute.Err, "network ");
          (UpdateRoute.Err, "timeout")]
     ++ [UpdateRoute.Close (Some 1%Z)])
  = Some {| UpdateRoute.status := 500;
            UpdateRoute.payload :=
              {| UpdateRoute.success := false;
                 UpdateRoute.message := "Data update failed";
                 UpdateRoute.error := Some "network timeout";
                 UpdateRoute.output := Some "Scraping projections..." |} |}.
Proof.
  apply (proj1 (proj2 (POST_spec Disk.cwd
           [(UpdateRoute.Out, "Scraping projections..."); (UpdateRoute.Err, "network ");
            (UpdateRoute.Err, "timeout")] [])) (Some 1%Z)).
  discriminate.
Defined.

(* ================================================================== *)
(** * Loading *)
(* ================================================================== *)

Ltac client_unfold :=
  cbv beta iota zeta delta
    [Client.loadData Client.tryCatchFinally Client.bind Client.ret Client.throw
     Client.fetch Client.json Client.emit Client.modify
     Client.setLoading Client.setUpdating Client.setLastUpdated
     Client.setPlayerProjections Client.setBatterAnalysis
     Client.setPitcherAnalysis Client.successOf Client.messageOf
     Client.state Client.trace
     Client.playerProjections Client.batterAnalysis Client.pitcherAnalysis
     Client.loading Client.updating Client.lastUpdated Client.selectedGames
     Client.projectionsRoute Client.batterRoute Client.pitcherRoute
     Client.updateRoute Client.now
     LoadSpec.raises LoadSpec.delivered fst snd orb] in *.

(** Load always returns to its caller, and only adds to the trace. *)
Lemma loadData_returns (env : Client.environment) (w : Client.world) :
  fst (Client.loadData env w) = Exn.Returned tt
  /\ exists added : list Client.effect,
       Client.trace (snd (Client.loadData env w)) = Client.trace w ++ added.
Proof.
  destruct env as [rp rb rpi ru clock], w as [s t].
  destruct rp as [|[] [dp|]], rb as [|[] [db|]], rpi as [|[] [dpi|]];
    client_unfold; (split; [reflexivity|]);
    rewrite <- ?app_assoc; eexists; reflexivity.
Qed.

(** C4, as the code has it.  The three resources are fetched one after the
    other inside one [try].  An answer that is not OK leaves its collection
    as it was and the next fetch runs.  A transport error, or an OK answer
    whose body does not decode, ends the sequence: the collections not yet
    set stay as they were, the later resources are not requested and the
    time is not stamped.  The loading flag is cleared on every path and
    nothing is thrown to the caller. *)
Theorem loadData_sequential (env : Client.environment) (w : Client.world) :
  let result := Client.loadData env w in
  let before := Client.state w in
  let after := Client.state (snd result) in
  let stop1 := LoadSpec.raises (Client.projectionsRoute env) in
  let stop2 := (stop1 || LoadSpec.raises (Client.batterRoute env))%bool in
  let stop3 := (stop2 || LoadSpec.raises (Client.pitcherRoute env))%bool in
  fst result = Exn.Returned tt
  /\ Client.loading after = false
  /\ Client.playerProjections after
     = LoadSpec.delivered (Client.projectionsRoute env)
                          (Client.playerProjections before)
  /\ Client.batterAnalysis after
     = (if stop1 then Client.batterAnalysis before
        else LoadSpec.delivered (Client.batterRoute env)
                                (Client.batterAnalysis before))
  /\ Client.pitcherAnalysis after
     = (if stop2 then Client.pitcherAnalysis before
        else LoadSpec.delivered (Client.pitcherRoute env)
                                (Client.pitcherAnalysis before))
  /\ Client.lastUpdated after
     = (if stop3 then Client.lastUpdated before else Client.now env)
  /\ Client.updating after = Client.updating before
  /\ Client.selectedGames after = Client.selectedGames before
  /\ exists added : list Client.effect,
       Client.trace (snd result) = Client.trace w ++ added
       /\ LoadSpec.alerts added = []
       /\ LoadSpec.requests added
          = "/api/data/projections"
            :: (if stop1 then []
                else "/api/data/batter-analysis"
                     :: (if stop2 then [] else ["/api/data/pitcher-analysis"])).
Proof.
  destruct env as [rp rb rpi ru clock], w as [[pp ba pa ld up lu sel] t].
  destruct rp as [|[] [dp|]], rb as [|[] [db|]], rpi as [|[] [dpi|]];
    client_unfold;
    (repeat (split; [reflexivity|]));
    rewrite <- ?app_assoc; eexists; (split; [reflexivity|]); split; reflexivity.
Qed.

(** C4, as stated, fails when the first request fails in transport: the two
    analysis routes are in order, yet their collections stay empty and the
    time is not stamped. *)
Lemma loadData_not_independent :
  ~ LoadSpec.independent Outage.env
      (Client.state (snd (Client.loadData Outage.env Outage.start))).
Proof.
  intros (_ & Hb & _).
  specialize (Hb [Samples.highRow] eq_refl).
  vm_compute in Hb. discriminate.
Qed.

(* ================================================================== *)
(** * Refreshing *)
(* ================================================================== *)

Ltac refresh_unfold :=
  cbv beta iota zeta delta
    [Client.refreshData Client.tryCatchFinally Client.bind Client.ret
     Client.throw Client.fetch Client.json Client.emit Client.modify
     Client.setUpdating Client.successOf Client.messageOf
     Client.state Client.trace
     Client.playerProjections Client.batterAnalysis Client.pitcherAnalysis
     Client.loading Client.updating Client.lastUpdated Client.selectedGames
     Client.updateRoute LoadSpec.sameCollections fst snd] in *.

(** C8. Refresh first sets the updating flag and then calls the update
    route.  On reported success it runs Load, and the outcome is Load's with
    the flag cleared.  On reported failure, or when the call or the decoding
    of its answer fails, one alert is shown (with the reported message, or
    the fixed text for an error), no data route is requested and the three
    collections are left as they were.  On every path the call returns and
    the updating flag ends cleared. *)
Theorem refreshData_spec (env : Client.environment) (w : Client.world) :
  let result := Client.refreshData env w in
  let after := Client.state (snd result) in
  fst result = Exn.Returned tt
  /\ Client.updating after = false
  /\ (exists middle : list Client.effect,
         Client.trace (snd result)
         = Client.trace w
           ++ [Client.SetUpdating true;
               Client.ConsoleLog "Starting data refresh...";
               Client.Requested "POST" "/api/update"]
           ++ middle ++ [Client.SetUpdating false])
  /\ (LoadSpec.refreshFails (Client.updateRoute env) = None ->
      snd result
      = snd (Client.setUpdating false
               (snd (Client.loadData env (LoadSpec.refreshing w)))))
  /\ (forall text : string,
         LoadSpec.refreshFails (Client.updateRoute env) = Some text ->
         LoadSpec.sameCollections (Client.state w) after
         /\ exists added : list Client.effect,
              Client.trace (snd result) = Client.trace w ++ added
              /\ LoadSpec.alerts added = [text]
              /\ LoadSpec.requests added = ["/api/update"]).
Proof.
  cbv zeta.
  destruct (loadData_returns env (LoadSpec.refreshing w))
    as (Hload & added & Htrace).
  unfold LoadSpec.refreshing in *.
  destruct env as [rp rb rpi ru clock], w as [[pp ba pa ld up lu sel] t].
  destruct ru as [|ok [[|[] message]|]]; refresh_unfold.
  3: { (* reported success: Load runs *)
    rewrite <- !app_assoc. cbn [app].
    destruct (Client.loadData _ _) as [[[]|e'] [s1 t1]];
      [|simpl in Hload; discriminate].
    simpl in Htrace. subst t1.
    cbv beta iota zeta delta [fst snd Client.state Client.trace Client.updating].
    split; [reflexivity|]. split; [reflexivity|]. split.
    - exists (Client.ConsoleLog "Data update successful:" :: added).
      rewrite <- !app_assoc. reflexivity.
    - split; [reflexivity|]. intros text Htext. discriminate Htext. }
  all: rewrite <- !app_assoc; cbn [app].
  all: split; [reflexivity|]; split; [reflexivity|]; split;
    [match goal with
     | |- exists middle, _ ++ [_; _; _; ?x; ?y; _] = _ =>
         exists [x; y]; reflexivity
     end|];
    split; [discriminate|];
    intros text Htext; injection Htext as <-;
    split; [repeat split|];
    eexists; split; [reflexivity|]; split; reflexivity.
Qed.

Lemma refreshData_spec_witness :
  LoadSpec.refreshFails (Client.updateRoute Outage.env)
  = Some "Data update failed: Data update failed"
  /\ LoadSpec.sameCollections (Client.state Outage.start)
       (Client.state (snd (Client.refreshData Outage.env Outage.start)))
  /\ exists added : list Client.effect,
       Client.trace (snd (Client.refreshData Outage.env Outage.start))
       = Client.trace Outage.start ++ added
       /\ LoadSpec.alerts added = ["Data update failed: Data update failed"]
       /\ LoadSpec.requests added = ["/api/update"].
Proof.
  split; [reflexivity|].
  apply (proj2 (proj2 (proj2 (proj2
           (refreshData_spec Outage.env Outage.start))))).
  reflexivity.
Defined.

(** The scenario end to end: the child exits with status 1 after writing
    "network timeout" to its standard error; whatever the page held before,
    after Refresh it holds the same three collections, has shown the alert
    and has its updating flag cleared. *)
Lemma refresh_after_failed_update (env : Client.environment) (w : Client.world)
    (cwd : list string) (r : UpdateRoute.response) :
  UpdateRoute.POST (Exn.Returned cwd)
    [UpdateRoute.StderrData "network timeout"; UpdateRoute.Close (Some 1%Z)]
  = Some r ->
  Client.updateRoute env = Http.transport r ->
  let after := snd (Client.refreshData env w) in
  UpdateRoute.error (UpdateRoute.payload r) = Some "network timeout"
  /\ LoadSpec.sameCollections (Client.state w) (Client.state after)
  /\ Client.updating (Client.state after) = false
  /\ exists added : list Client.effect,
       Client.trace after = Client.trace w ++ added
       /\ LoadSpec.alerts added = ["Data update failed: Data update failed"].
Proof.
  intros Hpost Hroute after. unfold after. clear after.
  vm_compute in Hpost. injection Hpost as <-.
  destruct env as [rp rb rpi ru clock], w as [[pp ba pa ld up lu sel] t].
  simpl in Hroute. subst ru.
  split; [reflexivity|].
  refresh_unfold. unfold Http.transport. simpl.
  split; [repeat split|]. split; [reflexivity|].
  eexists. rewrite <- ?app_assoc. split; reflexivity.
Qed.

(* ================================================================== *)
(** * The game filter's handlers *)
(* ================================================================== *)

Lemma remove_game_In (game g : string) (prev : list string) :
  In g (filter (fun g' => negb (g' =? game)) prev) <-> In g prev /\ g <> game.
Proof.
  rewrite filter_In, negb_true_iff, String.eqb_neq. reflexivity.
Qed.

Lemma remove_game_absent (game : string) (prev : list string) :
  ~ In game prev -> filter (fun g' => negb (g' =? game)) prev = prev.
Proof.
  induction prev as [|g prev IH]; simpl; intros Hn; [reflexivity|].
  destruct (g =? game) eqn:E.
  - apply String.eqb_eq in E. exfalso. apply Hn. now left.
  - simpl. rewrite IH; [reflexivity|]. intros H. apply Hn. now right.
Qed.

Lemma toggle_unfold (game : string) (prev : list string) :
  game <> "all" ->
  Selection.handleGameFilterChange game prev
  = if JS.includes prev game
    then filter (fun g => negb (g =? game)) prev
    else prev ++ [game].
Proof.
  intros Hall. unfold Selection.handleGameFilterChange.
  apply String.eqb_neq in Hall. now rewrite Hall.
Qed.

Lemma toggle_In (game g : string) (prev : list string) :
  game <> "all" ->
  (In g (Selection.handleGameFilterChange game prev)
   <-> (In g prev /\ g <> game) \/ (g = game /\ ~ In game prev)).
Proof.
  intros Hall. rewrite (toggle_unfold prev Hall).
  destruct (JS.includes prev game) eqn:E.
  - apply includes_In in E. rewrite remove_game_In. tauto.
  - assert (~ In game prev) as Hn
      by (intros H; apply includes_In in H; congruence).
    rewrite in_app_iff. simpl. split.
    + intros [H|[<-|[]]]; [left; split; [assumption|congruence] | now right].
    + intros [[H _]|[-> _]]; [now left | right; now left].
Qed.

Lemma toggle_NoDup (game : string) (prev : list string) :
  NoDup prev -> NoDup (Selection.handleGameFilterChange game prev).
Proof.
  intros Hnd. unfold Selection.handleGameFilterChange.
  destruct (game =? "all"); [constructor|].
  destruct (JS.includes prev game) eqn:E.
  - now apply NoDup_filter.
  - apply NoDup_app; [assumption | repeat constructor; auto |].
    intros g Hg [<-|[]]. apply includes_In in Hg. congruence.
Qed.

(** X1. Clicking a game other than "all" toggles it: a game that was not
    selected is added after the others, a selected one is removed, and every
    other game stays as it was; a selection without duplicates stays so.
    Clicking the same game twice restores a selection that did not contain
    it, and restores the selection up to the order of its games when it
    did. *)
Theorem handleGameFilterChange_toggles (game : string) (prev : list string) :
  game <> "all" ->
  let next := Selection.handleGameFilterChange game prev in
  (forall g, In g next
             <-> (In g prev /\ g <> game) \/ (g = game /\ ~ In game prev))
  /\ (~ In game prev -> next = prev ++ [game])
  /\ (NoDup prev -> NoDup next)
  /\ (~ In game prev -> Selection.handleGameFilterChange game next = prev)
  /\ (In game prev -> NoDup prev ->
      Permutation (Selection.handleGameFilterChange game next) prev).
Proof.
  intros Hall next. unfold next. clear next.
  split; [intros g; now apply toggle_In|].
  split; [|split; [apply toggle_NoDup|split]].
  - intros Hn. rewrite (toggle_unfold prev Hall).
    destruct (JS.includes prev game) eqn:E; [|reflexivity].
    apply includes_In in E. contradiction.
  - intros Hn. rewrite (toggle_unfold prev Hall).
    destruct (JS.includes prev game) eqn:E;
      [apply includes_In in E; contradiction|].
    rewrite (toggle_unfold _ Hall).
    assert (JS.includes (prev ++ [game]) game = true) as ->
      by (apply includes_In, in_or_app; right; now left).
    rewrite filter_app, remove_game_absent by assumption. simpl.
    rewrite String.eqb_refl. simpl. apply app_nil_r.
  - intros Hin Hnd. apply NoDup_Permutation.
    + now apply toggle_NoDup, toggle_NoDup.
    + assumption.
    + intros g. rewrite !toggle_In by assumption.
      destruct (string_dec g game) as [->|Hne]; tauto.
Qed.

Lemma handleGameFilterChange_toggles_witness :
  Selection.handleGameFilterChange "NYY @ BOS"
    (Selection.handleGameFilterChange "NYY @ BOS" ["LAD @ SF"])
  = ["LAD @ SF"].
Proof.
  assert ("NYY @ BOS" <> "all") as Hall by discriminate.
  apply (proj1 (proj2 (proj2 (proj2
           (handleGameFilterChange_toggles ["LAD @ SF"] Hall))))).
  simpl. intros [H|[]]. discriminate H.
Defined.

(** The games offered are those of the rows, "" and "-" apart. *)
Lemma allGames_In (playerProjections : list PlayerProjection.t)
    (batterAnalysis : list BatterAnalysis.t)
    (pitcherAnalysis : list PitcherAnalysis.t) (g : string) :
  In g (Page.allGames playerProjections batterAnalysis pitcherAnalysis)
  <-> (In g (map PlayerProjection.GAME playerProjections)
       \/ In g (map BatterAnalysis.GAME batterAnalysis)
       \/ In g (map PitcherAnalysis.GAME pitcherAnalysis))
      /\ g <> "" /\ g <> "-".
Proof.
  unfold Page.allGames.
  rewrite sort_In, filter_In, (proj2 (arrayFromNewSet_spec _)).
  rewrite !in_app_iff, andb_true_iff, !negb_true_iff, !String.eqb_neq.
  tauto.
Qed.

Lemma onClick_invariant (games selected : list string) (c : Selection.click) :
  Selection.offered games selected c ->
  NoDup selected /\ Forall (fun g => In g games /\ g <> "all") selected ->
  NoDup (Selection.onClick c selected)
  /\ Forall (fun g => In g games /\ g <> "all") (Selection.onClick c selected).
Proof.
  intros Hoff [Hnd Hall]. destruct c as [|game|]; simpl;
    try (split; constructor).
  split; [now apply toggle_NoDup|].
  destruct (string_dec game "all") as [->|Hne]; [constructor|].
  rewrite Forall_forall in *. intros g Hg.
  apply toggle_In in Hg; [|assumption].
  destruct Hg as [[Hg _]|[-> _]]; [now apply Hall | now split].
Qed.

(** X2. A selection reached by clicks in the drop-down has no duplicates
    and consists of games offered there; it never contains "all" (clicking a
    game of that name clears the selection), nor "" or "-".  So whenever such
    a selection is not empty, the rows with no game assigned are left out of
    all three filtered collections. *)
Theorem reachable_selection
    (playerProjections : list PlayerProjection.t)
    (batterAnalysis : list BatterAnalysis.t)
    (pitcherAnalysis : list PitcherAnalysis.t) (selected : list string) :
  let games := Page.allGames playerProjections batterAnalysis pitcherAnalysis in
  Selection.reachable games selected ->
  NoDup selected
  /\ Forall (fun g => In g games /\ g <> "all" /\ g <> "" /\ g <> "-") selected
  /\ (selected <> [] ->
      Forall (fun p => PlayerProjection.GAME p <> ""
                       /\ PlayerProjection.GAME p <> "-")
             (Page.filteredPlayerProjections selected playerProjections)
      /\ Forall (fun b => BatterAnalysis.GAME b <> ""
                          /\ BatterAnalysis.GAME b <> "-")
                (Page.filteredBatterAnalysis selected batterAnalysis)
      /\ Forall (fun p => PitcherAnalysis.GAME p <> ""
                          /\ PitcherAnalysis.GAME p <> "-")
                (Page.filteredPitcherAnalysis selected pitcherAnalysis)).
Proof.
  intros games Hreach.
  assert (NoDup selected
          /\ Forall (fun g => In g games /\ g <> "all") selected) as [Hnd Hall].
  { induction Hreach as [|selected c _ IH Hoff].
    - split; constructor.
    - now apply onClick_invariant. }
  assert (Forall (fun g => In g games /\ g <> "all" /\ g <> "" /\ g <> "-")
                 selected) as Hgames.
  { rewrite Forall_forall in *. intros g Hg.
    destruct (Hall g Hg) as [Hin Hne].
    pose proof (proj1 (allGames_In _ _ _ g) Hin) as (_ & H1 & H2). auto. }
  split; [assumption|]. split; [assumption|].
  intros Hsel. destruct selected as [|g0 rest]; [congruence|].
  unfold Page.filteredPlayerProjections, Page.filteredBatterAnalysis,
    Page.filteredPitcherAnalysis.
  change (List.length (g0 :: rest) =? 0)%nat with false. cbv iota.
  rewrite Forall_forall in Hgames.
  repeat split; apply Forall_forall; intros r Hr;
    apply filter_In in Hr; destruct Hr as [_ Hr];
    apply includes_In in Hr; destruct (Hgames _ Hr) as (_ & _ & H1 & H2);
    auto.
Qed.

Lemma reachable_selection_witness :
  let pp := [Samples.projectionRow "A. Judge" "NYY @ BOS" "1.05";
             Samples.projectionRow "F. Agent" "-" "0.9"] in
  Selection.reachable (Page.allGames pp [] []) ["NYY @ BOS"]
  /\ Forall (fun p => PlayerProjection.GAME p <> ""
                      /\ PlayerProjection.GAME p <> "-")
            (Page.filteredPlayerProjections ["NYY @ BOS"] pp).
Proof.
  intros pp.
  assert (Selection.reachable (Page.allGames pp [] []) ["NYY @ BOS"]) as Hreach.
  { apply (Selection.reach_click (Selection.Game "NYY @ BOS")
             (Selection.reach_initial (Page.allGames pp [] []))).
    vm_compute. now left. }
  split; [exact Hreach|].
  apply (proj2 (proj2 (reachable_selection pp [] [] Hreach))).
  discriminate.
Defined.

(** X3. A selection that is not empty and matches no row (the games
    selected are no longer in the data) empties every view: the three filtered
    collections, both top lists and both sorted tables are empty and the
    high-confidence count is zero. *)
Theorem stale_selection_empties_views
    (selectedGames : list string)
    (playerProjections : list PlayerProjection.t)
    (batterAnalysis : list BatterAnalysis.t)
    (pitcherAnalysis : list PitcherAnalysis.t) :
  selectedGames <> [] ->
  (forall p, In p playerProjections -> ~ In (PlayerProjection.GAME p) selectedGames) ->
  (forall b, In b batterAnalysis -> ~ In (BatterAnalysis.GAME b) selectedGames) ->
  (forall p, In p pitcherAnalysis -> ~ In (PitcherAnalysis.GAME p) selectedGames) ->
  let shownProjections := Page.filteredPlayerProjections selectedGames playerProjections in
  let shownBatters := Page.filteredBatterAnalysis selectedGames batterAnalysis in
  let shownPitchers := Page.filteredPitcherAnalysis selectedGames pitcherAnalysis in
  shownProjections = [] /\ shownBatters = [] /\ shownPitchers = []
  /\ Page.topBatterOpportunities shownBatters = []
  /\ Page.topPitcherOpportunities shownPitchers = []
  /\ Page.projectionTable shownProjections = []
  /\ Page.batterTable shownBatters = []
  /\ Page.highConfidence shownBatters shownPitchers = 0%nat.
Proof.
  intros Hsel Hp Hb Hpi.
  assert (forall (A : Type) (game : A -> string) (l : list A),
             (forall r, In r l -> ~ In (game r) selectedGames) ->
             filter (fun r => JS.includes selectedGames (game r)) l = [])
    as Hnone.
  { intros A game l Hl. induction l as [|r l IH]; [reflexivity|]. simpl.
    destruct (JS.includes selectedGames (game r)) eqn:E.
    - apply includes_In in E. exfalso. apply (Hl r); [now left | assumption].
    - apply IH. intros r' Hr'. apply Hl. now right. }
  destruct selectedGames as [|g0 rest]; [congruence|].
  cbv zeta.
  unfold Page.filteredPlayerProjections, Page.filteredBatterAnalysis,
    Page.filteredPitcherAnalysis.
  change (List.length (g0 :: rest) =? 0)%nat with false. cbv iota.
  rewrite (Hnone _ PlayerProjection.GAME _ Hp),
    (Hnone _ BatterAnalysis.GAME _ Hb), (Hnone _ PitcherAnalysis.GAME _ Hpi).
  repeat split.
Qed.

Lemma stale_selection_empties_views_witness :
  Page.filteredBatterAnalysis ["SEA @ TEX"] [Samples.highRow] = []
  /\ Page.highConfidence
       (Page.filteredBatterAnalysis ["SEA @ TEX"] [Samples.highRow])
       (Page.filteredPitcherAnalysis ["SEA @ TEX"] []) = 0%nat.
Proof.
  assert (["SEA @ TEX"] <> []) as Hsel by discriminate.
  assert (forall b, In b [Samples.highRow]
                    -> ~ In (BatterAnalysis.GAME b) ["SEA @ TEX"]) as Hb.
  { intros b [<-|[]] [H|[]]. discriminate H. }
  destruct (@stale_selection_empties_views ["SEA @ TEX"] [] [Samples.highRow] []
              Hsel (fun p (H : In p []) => match H with end) Hb
              (fun p (H : In p []) => match H with end))
    as (_ & E & _ & _ & _ & _ & _ & Hc).
  split; [exact E | exact Hc].
Defined.

(* ================================================================== *)
(** * The sizes of the views *)
(* ================================================================== *)

Lemma filter_map_length {A} (f : A -> string) (P : string -> bool) (l : list A) :
  List.length (filter P (map f l)) = List.length (filter (fun r => P (f r)) l).
Proof.
  induction l as [|r l IH]; simpl; [reflexivity|].
  destruct (P (f r)); simpl; now rewrite IH.
Qed.

(** X4. The top lists show five rows as soon as five qualify and all that
    qualify otherwise; the projections table shows at most 50 rows and the
    batter table all of them; the high-confidence count is the number of High
    batter rows plus the number of High pitcher rows, whatever their edge,
    and so never exceeds the two opportunity counts together. *)
Theorem view_sizes
    (filteredPlayerProjections : list PlayerProjection.t)
    (filteredBatterAnalysis : list BatterAnalysis.t)
    (filteredPitcherAnalysis : list PitcherAnalysis.t) :
  List.length (Page.topBatterOpportunities filteredBatterAnalysis)
  = Nat.min 5 (List.length (filter Spec.positiveEdge filteredBatterAnalysis))
  /\ List.length (Page.topPitcherOpportunities filteredPitcherAnalysis)
     = Nat.min 5 (List.length (filter Spec.isHighOrMedium filteredPitcherAnalysis))
  /\ List.length (Page.projectionTable filteredPlayerProjections)
     = Nat.min 50 (List.length filteredPlayerProjections)
  /\ List.length (Page.batterTable filteredBatterAnalysis)
     = List.length filteredBatterAnalysis
  /\ Page.highConfidence filteredBatterAnalysis filteredPitcherAnalysis
     = (List.length
          (filter (fun b => String.eqb (BatterAnalysis.CONFIDENCE b) "High")
                  filteredBatterAnalysis)
        + List.length
            (filter (fun p => String.eqb (PitcherAnalysis.CONFIDENCE p) "High")
                    filteredPitcherAnalysis))%nat
  /\ (Page.highConfidence filteredBatterAnalysis filteredPitcherAnalysis
      <= List.length filteredBatterAnalysis
         + List.length filteredPitcherAnalysis)%nat.
Proof.
  assert (Hc : Page.highConfidence filteredBatterAnalysis filteredPitcherAnalysis
               = (List.length
                    (filter (fun b => String.eqb (BatterAnalysis.CONFIDENCE b) "High")
                            filteredBatterAnalysis)
                  + List.length
                      (filter (fun p => String.eqb (PitcherAnalysis.CONFIDENCE p) "High")
                              filteredPitcherAnalysis))%nat).
  { unfold Page.highConfidence.
    rewrite filter_app, length_app, !filter_map_length. reflexivity. }
  unfold Page.topBatterOpportunities, Page.topPitcherOpportunities,
    Page.projectionTable, Page.batterTable, JS.slice0.
  rewrite batter_filter, pitcher_filter, length_map, !length_firstn,
    !sort_length.
  repeat split; try assumption.
  rewrite Hc.
  pose proof (filter_length_le (fun b => String.eqb (BatterAnalysis.CONFIDENCE b) "High")
                filteredBatterAnalysis).
  pose proof (filter_length_le (fun p => String.eqb (PitcherAnalysis.CONFIDENCE p) "High")
                filteredPitcherAnalysis).
  lia.
Qed.

(** X5. On rows with plain labels the top batter opportunities are read
    off the batter table: they are its first five rows with a positive edge
    percentage, in the table's order. *)
Theorem topBatterOpportunities_from_table
    (filteredBatterAnalysis : list BatterAnalysis.t) :
  Forall Spec.plainLabel filteredBatterAnalysis ->
  Page.topBatterOpportunities filteredBatterAnalysis
  = firstn 5 (filter Spec.positiveEdge (Page.batterTable filteredBatterAnalysis)).
Proof.
  intros Hplain.
  unfold Page.topBatterOpportunities, Page.batterTable, JS.slice0.
  rewrite batter_filter. f_equal. symmetry.
  apply sort_filter with (ok := Spec.plainLabel); [| |assumption].
  - intros x y Hx Hy E.
    apply batter_after_before; auto.
    destruct (batterBefore_total x y) as [B|B]; [|assumption].
    apply batter_after_before in B; auto. congruence.
  - intros x y z Hx Hy Hz Hxy Hyz. unfold JS.mayPrecede in *.
    apply batter_after_before; auto.
    apply batterBefore_trans with y; apply batter_after_before; auto.
Qed.

Lemma topBatterOpportunities_from_table_witness :
  Page.topBatterOpportunities (Render.heldBatters Mounted.state Mounted.heap)
  = firstn 5 (filter Spec.positiveEdge
                (Page.batterTable (Render.heldBatters Mounted.state Mounted.heap))).
Proof.
  apply topBatterOpportunities_from_table.
  repeat apply Forall_cons; try apply Forall_nil;
    unfold Spec.plainLabel; simpl; intuition discriminate.
Defined.

(* ================================================================== *)
(** * Rendering again *)
(* ================================================================== *)

Ltac store_len_all :=
  repeat first [rewrite length_app | rewrite length_assign]; simpl; lia.

(** A render only adds arrays to the heap. *)
Lemma render_wellFormed (st : Render.State) (h : Render.Heap) :
  Render.wellFormed st h -> Render.wellFormed st (snd (Render.render st h)).
Proof.
  intros Hwf.
  destruct st as [rp rb rpi sel], h as [hp hb hpi].
  render_unfold. destruct Hwf as (Hp & Hb & Hpi).
  destruct sel as [|g sel].
  - change (List.length (@nil string) =? 0)%nat with true. cbv beta iota.
    repeat split; store_len_all.
  - change (List.length (g :: sel) =? 0)%nat with false. cbv beta iota.
    repeat split; store_len_all.
Qed.

Lemma renders_wellFormed (n : nat) (st : Render.State) (h : Render.Heap) :
  Render.wellFormed st h -> Render.wellFormed st (Rerender.renders n st h).
Proof.
  revert h. induction n as [|n IH]; intros h Hwf; simpl; [assumption|].
  apply IH. now apply render_wellFormed.
Qed.

(** X6. While a game is selected, rendering any number of times leaves the
    three arrays the state holds exactly as they were: the filtered
    collections are then fresh arrays and only those are sorted. *)
Theorem renders_with_selection_keep_state (n : nat) (st : Render.State)
    (h : Render.Heap) :
  Render.wellFormed st h ->
  Render.selectedGames st <> [] ->
  let h' := Rerender.renders n st h in
  Render.heldProjections st h' = Render.heldProjections st h
  /\ Render.heldBatters st h' = Render.heldBatters st h
  /\ Render.heldPitchers st h' = Render.heldPitchers st h.
Proof.
  intros Hwf Hsel. cbv zeta. revert h Hwf.
  induction n as [|n IH]; intros h Hwf; simpl; [repeat split|].
  destruct (IH _ (render_wellFormed Hwf)) as (E1 & E2 & E3).
  destruct (render_held_selected Hwf Hsel) as (F1 & F2 & F3).
  rewrite E1, E2, E3. repeat split; assumption.
Qed.

Lemma renders_with_selection_keep_state_witness :
  let st := {| Render.playerProjections := 0%nat;
               Render.batterAnalysis := 0%nat;
               Render.pitcherAnalysis := 0%nat;
               Render.selectedGames := ["NYY @ BOS"] |} in
  Render.heldBatters st (Rerender.renders 3 st Mounted.heap)
  = Render.heldBatters st Mounted.heap.
Proof.
  intros st.
  assert (Render.wellFormed st Mounted.heap) as Hwf
    by (unfold Render.wellFormed; simpl; lia).
  assert (Render.selectedGames st <> []) as Hsel by discriminate.
  exact (proj1 (proj2 (renders_with_selection_keep_state 3 Hwf Hsel))).
Defined.

(** Code-unit order is strict. *)
Lemma string_ltb_irrefl (x : string) : String.ltb x x = false.
Proof. unfold String.ltb. now rewrite string_compare_refl. Qed.

Lemma string_ltb_asym (x y : string) :
  String.ltb x y = true -> String.ltb y x = false.
Proof.
  unfold String.ltb. rewrite (String.compare_antisym x y).
  destruct (y ?= x)%string; simpl; congruence.
Qed.

(** A strictly ascending list is determined by its members. *)
Lemma lexAscending_unique (l1 l2 : list string) :
  Spec.lexAscending l1 -> Spec.lexAscending l2 ->
  (forall x, In x l1 <-> In x l2) -> l1 = l2.
Proof.
  unfold Spec.lexAscending. intros H1. revert l2.
  induction H1 as [|a l1 Hs1 IH Ha]; intros l2 H2 Hmem.
  - destruct l2 as [|b l2]; [reflexivity|].
    exfalso. apply (proj2 (Hmem b)). now left.
  - destruct H2 as [|b l2 Hs2 Hb].
    { exfalso. apply (proj1 (Hmem a)). now left. }
    rewrite Forall_forall in Ha, Hb.
    assert (a = b) as <-.
    { destruct (proj1 (Hmem a) (or_introl eq_refl)) as [E|Hin]; [now symmetry|].
      destruct (proj2 (Hmem b) (or_introl eq_refl)) as [E|Hin']; [assumption|].
      pose proof (string_ltb_asym _ _ (Ha _ Hin')) as F.
      rewrite (Hb _ Hin) in F. discriminate. }
    f_equal. apply IH; [assumption|].
    intros x. split; intros Hx.
    + destruct (proj1 (Hmem x) (or_intror Hx)) as [<-|H]; [|assumption].
      pose proof (Ha _ Hx) as F. rewrite string_ltb_irrefl in F. discriminate.
    + destruct (proj2 (Hmem x) (or_intror Hx)) as [<-|H]; [|assumption].
      pose proof (Hb _ Hx) as F. rewrite string_ltb_irrefl in F. discriminate.
Qed.

Lemma allGames_lex (playerProjections : list PlayerProjection.t)
    (batterAnalysis : list BatterAnalysis.t)
    (pitcherAnalysis : list PitcherAnalysis.t) :
  Spec.lexAscending
    (Page.allGames playerProjections batterAnalysis pitcherAnalysis).
Proof.
  unfold Page.allGames. apply sorted_NoDup_strict.
  - eapply Permutation_NoDup; [apply Permutation_sym, sort_perm|].
    apply NoDup_filter, arrayFromNewSet_spec.
  - apply defaultSort_orderedBy.
Qed.

(** The games offered do not depend on the order of the rows. *)
Lemma allGames_reordered
    (pp pp' : list PlayerProjection.t) (ba ba' : list BatterAnalysis.t)
    (pa : list PitcherAnalysis.t) :
  Permutation pp' pp -> Permutation ba' ba ->
  Page.allGames pp' ba' pa = Page.allGames pp ba pa.
Proof.
  intros Hp Hb. apply lexAscending_unique; try apply allGames_lex.
  intros g. rewrite !allGames_In.
  assert (forall A (f : A -> string) (l l' : list A),
             Permutation l' l -> (In g (map f l') <-> In g (map f l))) as Hmap.
  { intros A f l l' Hl. split; apply Permutation_in, Permutation_map;
      [assumption | now apply Permutation_sym]. }
  rewrite (Hmap _ PlayerProjection.GAME _ _ Hp),
    (Hmap _ BatterAnalysis.GAME _ _ Hb). reflexivity.
Qed.

Lemma batter_consistent :
  (forall x y, Spec.plainLabel x -> Spec.plainLabel y ->
               JS.after Page.batterCompare x y = true ->
               JS.after Page.batterCompare y x = false)
  /\ (forall x y z, Spec.plainLabel x -> Spec.plainLabel y -> Spec.plainLabel z ->
                    JS.mayPrecede Page.batterCompare x y ->
                    JS.mayPrecede Page.batterCompare y z ->
                    JS.mayPrecede Page.batterCompare x z).
Proof.
  split.
  - intros x y Hx Hy E.
    apply batter_after_before; auto.
    destruct (batterBefore_total x y) as [B|B]; [|assumption].
    apply batter_after_before in B; auto. congruence.
  - intros x y z Hx Hy Hz Hxy Hyz. unfold JS.mayPrecede in *.
    apply batter_after_before; auto.
    apply batterBefore_trans with y; apply batter_after_before; auto.
Qed.

Lemma projection_consistent :
  (forall x y, Spec.numericOrPlaceholder x -> Spec.numericOrPlaceholder y ->
               JS.after Page.projectionCompare x y = true ->
               JS.after Page.projectionCompare y x = false)
  /\ (forall x y z, Spec.numericOrPlaceholder x -> Spec.numericOrPlaceholder y ->
                    Spec.numericOrPlaceholder z ->
                    JS.mayPrecede Page.projectionCompare x y ->
                    JS.mayPrecede Page.projectionCompare y z ->
                    JS.mayPrecede Page.projectionCompare x z).
Proof.
  assert (forall x y, Spec.numericOrPlaceholder x -> Spec.numericOrPlaceholder y ->
                      (JS.after Page.projectionCompare x y = false
                       <-> Spec.projectionBefore x y)) as Hab.
  { intros x y Hx Hy. unfold JS.after, Page.projectionCompare.
    rewrite !hitsOrZero_hitCount. apply after_sub; now apply hitCount_number. }
  split.
  - intros x y Hx Hy E. apply Hab; auto.
    destruct (ge_total (hitCount_number Hx) (hitCount_number Hy)) as [B|B].
    + apply Hab in B; auto. congruence.
    + exact B.
  - intros x y z Hx Hy Hz Hxy Hyz. unfold JS.mayPrecede in *.
    apply Hab; auto. unfold Spec.projectionBefore.
    apply ge_trans with (Spec.hitCount y); apply Hab; auto.
Qed.

(** Once the held arrays are in order, a render with no game selected
    leaves them as they are. *)
Lemma render_sorted_fixed (st : Render.State) (h : Render.Heap) :
  Render.wellFormed st h ->
  Render.selectedGames st = [] ->
  StronglySorted (JS.mayPrecede Page.projectionCompare) (Render.heldProjections st h) ->
  StronglySorted (JS.mayPrecede Page.batterCompare) (Render.heldBatters st h) ->
  Render.heldProjections st (snd (Render.render st h)) = Render.heldProjections st h
  /\ Render.heldBatters st (snd (Render.render st h)) = Render.heldBatters st h
  /\ Render.heldPitchers st (snd (Render.render st h)) = Render.heldPitchers st h.
Proof.
  intros Hwf Hsel Hp Hb.
  destruct (render_held_unselected Hwf Hsel) as (E1 & E2 & E3).
  rewrite E1, E2, E3, (sort_sorted_id Hp), (sort_sorted_id Hb). repeat split.
Qed.

Lemma renders_sorted_fixed (n : nat) (st : Render.State) (h : Render.Heap) :
  Render.wellFormed st h ->
  Render.selectedGames st = [] ->
  StronglySorted (JS.mayPrecede Page.projectionCompare) (Render.heldProjections st h) ->
  StronglySorted (JS.mayPrecede Page.batterCompare) (Render.heldBatters st h) ->
  Render.heldProjections st (Rerender.renders n st h) = Render.heldProjections st h
  /\ Render.heldBatters st (Rerender.renders n st h) = Render.heldBatters st h
  /\ Render.heldPitchers st (Rerender.renders n st h) = Render.heldPitchers st h.
Proof.
  intros Hwf Hsel. revert h Hwf.
  induction n as [|n IH]; intros h Hwf Hp Hb; simpl; [repeat split|].
  destruct (render_sorted_fixed Hwf Hsel Hp Hb) as (E1 & E2 & E3).
  destruct (IH _ (render_wellFormed Hwf)) as (F1 & F2 & F3);
    rewrite ?E1, ?E2; try assumption.
  rewrite F1, F2, F3. repeat split; assumption.
Qed.

(** X7. With no game selected and rows in the data model (hit fields
    numeric or the placeholder, plain labels), the first render sorts the held
    projections and batter rows and every later render leaves them so; each
    of those renders shows exactly what the first one showed. *)
Theorem rerender_idempotent (n : nat) (st : Render.State) (h : Render.Heap) :
  Render.wellFormed st h ->
  Render.selectedGames st = [] ->
  Forall Spec.numericOrPlaceholder (Render.heldProjections st h) ->
  Forall Spec.plainLabel (Render.heldBatters st h) ->
  let h' := Rerender.renders (S n) st h in
  Render.heldProjections st h'
    = JS.sort Page.projectionCompare (Render.heldProjections st h)
  /\ Render.heldBatters st h'
     = JS.sort Page.batterCompare (Render.heldBatters st h)
  /\ Render.heldPitchers st h' = Render.heldPitchers st h
  /\ fst (Render.render st h') = fst (Render.render st h).
Proof.
  intros Hwf Hsel Hnum Hplain. cbv zeta.
  destruct projection_consistent as [Pt Ptr].
  destruct batter_consistent as [Bt Btr].
  pose proof (sort_sorted Pt Ptr Hnum) as Sp.
  pose proof (sort_sorted Bt Btr Hplain) as Sb.
  destruct (render_held_unselected Hwf Hsel) as (E1 & E2 & E3).
  assert (Hwf1 := render_wellFormed Hwf).
  assert (Held : Render.heldProjections st (Rerender.renders (S n) st h)
                 = JS.sort Page.projectionCompare (Render.heldProjections st h)
                 /\ Render.heldBatters st (Rerender.renders (S n) st h)
                    = JS.sort Page.batterCompare (Render.heldBatters st h)
                 /\ Render.heldPitchers st (Rerender.renders (S n) st h)
                    = Render.heldPitchers st h).
  { simpl. rewrite <- E1 in Sp. rewrite <- E2 in Sb.
    destruct (renders_sorted_fixed n Hwf1 Hsel Sp Sb) as (F1 & F2 & F3).
    rewrite F1, F2, F3. repeat split; assumption. }
  destruct Held as (H1 & H2 & H3).
  split; [assumption|]. split; [assumption|]. split; [assumption|].
  rewrite (render_views (renders_wellFormed (S n) Hwf)), (render_views Hwf).
  cbv zeta. rewrite H1, H2, H3, Hsel.
  unfold Page.filteredPlayerProjections, Page.filteredBatterAnalysis,
    Page.filteredPitcherAnalysis.
  change (List.length (@nil string) =? 0)%nat with true. cbv iota.
  set (pp := Render.heldProjections st h) in *.
  set (ba := Render.heldBatters st h) in *.
  set (pa := Render.heldPitchers st h) in *.
  assert (Page.allGames (JS.sort Page.projectionCompare pp)
                        (JS.sort Page.batterCompare ba) pa
          = Page.allGames pp ba pa) as ->
    by (apply allGames_reordered; apply sort_perm).
  rewrite !sort_length.
  assert (Page.highConfidence (JS.sort Page.batterCompare ba) pa
          = Page.highConfidence ba pa) as ->.
  { unfold Page.highConfidence.
    rewrite !filter_app, !length_app, !filter_map_length.
    rewrite (sort_filter Bt Btr _ Hplain), sort_length. reflexivity. }
  assert (Page.topBatterOpportunities (JS.sort Page.batterCompare ba)
          = Page.topBatterOpportunities ba) as ->.
  { unfold Page.topBatterOpportunities.
    rewrite (sort_filter Bt Btr _ Hplain).
    rewrite (@sort_sorted_id _ Page.batterCompare (JS.sort Page.batterCompare _));
      [reflexivity|].
    apply (sort_sorted Bt Btr).
    rewrite Forall_forall in *. intros b Hb. apply Hplain.
    now apply filter_In in Hb. }
  unfold Page.projectionTable, Page.batterTable.
  rewrite (sort_sorted_id Sp), (sort_sorted_id Sb). reflexivity.
Qed.

Lemma rerender_idempotent_witness :
  fst (Render.render Mounted.state
         (Rerender.renders 2 Mounted.state Mounted.heap))
  = fst (Render.render Mounted.state Mounted.heap).
Proof.
  assert (Render.wellFormed Mounted.state Mounted.heap) as Hwf
    by (unfold Render.wellFormed; simpl; lia).
  assert (Forall Spec.numericOrPlaceholder
            (Render.heldProjections Mounted.state Mounted.heap)) as Hp.
  { repeat apply Forall_cons; try apply Forall_nil;
      unfold Spec.numericOrPlaceholder;
      cbn [PlayerProjection.H Samples.projectionRow];
      try (now left); right; vm_compute; discriminate. }
  assert (Forall Spec.plainLabel
            (Render.heldBatters Mounted.state Mounted.heap)) as Hb.
  { repeat apply Forall_cons; try apply Forall_nil;
      unfold Spec.plainLabel; simpl; intuition discriminate. }
  exact (proj2 (proj2 (proj2
           (rerender_idempotent 1 Hwf eq_refl Hp Hb)))).
Defined.

(* ================================================================== *)
(** * The update route: pending and settled *)
(* ================================================================== *)

Lemma on_data_unsettled (events : list UpdateRoute.event) (s : UpdateRoute.handler) :
  UpdateRoute.settled s = None ->
  Forall (fun e => UpdateSpec.ends e = false) events ->
  UpdateRoute.settled (fold_left UpdateRoute.on events s) = None.
Proof.
  revert s. induction events as [|e events IH]; intros s Hs Hev; [assumption|].
  inversion Hev as [|? ? He Hev']; subst. simpl. apply IH; [|assumption].
  destruct e; simpl in *; try discriminate; assumption.
Qed.

Lemma on_ends_settles (e : UpdateRoute.event) (s : UpdateRoute.handler) :
  UpdateSpec.ends e = true -> UpdateRoute.settled (UpdateRoute.on s e) <> None.
Proof.
  destruct e as [d|d|[[| |]|]|m]; simpl; try discriminate; intros _;
    unfold UpdateRoute.resolve; destruct (UpdateRoute.settled s) eqn:E;
      simpl; congruence.
Qed.

Lemma on_settled_stays (events : list UpdateRoute.event) (s : UpdateRoute.handler) :
  UpdateRoute.settled s <> None ->
  UpdateRoute.settled (fold_left UpdateRoute.on events s) <> None.
Proof.
  intros Hs. destruct (UpdateRoute.settled s) as [r|] eqn:E; [|congruence].
  now rewrite (on_settled events s E).
Qed.

(** X8. The request is answered exactly when the child has emitted a
    [close] or an [error] event: while only data arrives the promise stays
    pending, and the answer never changes after the first such event. *)
Theorem POST_settles_iff (cwd : list string) (events : list UpdateRoute.event) :
  (UpdateRoute.POST (Exn.Returned cwd) events = None
   <-> Forall (fun e => UpdateSpec.ends e = false) events)
  /\ forall (r : UpdateRoute.response) (more : list UpdateRoute.event),
       UpdateRoute.POST (Exn.Returned cwd) events = Some r ->
       UpdateRoute.POST (Exn.Returned cwd) (events ++ more) = Some r.
Proof.
  unfold UpdateRoute.POST. simpl. split.
  - split.
    + set (s0 := {| UpdateRoute.stdout := ""; UpdateRoute.stderr := "";
                    UpdateRoute.settled := None |}).
      generalize s0. induction events as [|e events IH]; intros s Hnone;
        [constructor|].
      simpl in Hnone.
      destruct (UpdateSpec.ends e) eqn:Ee.
      * exfalso. apply (@on_settled_stays events _ (@on_ends_settles e s Ee)).
        assumption.
      * constructor; [assumption|]. now apply (IH (UpdateRoute.on s e)).
    + intros Hev. now apply on_data_unsettled.
  - intros r more Hr. rewrite fold_left_app. now apply on_settled.
Qed.

Lemma on_coherent (e : UpdateRoute.event) (s : UpdateRoute.handler) :
  (forall r, UpdateRoute.settled s = Some r -> UpdateSpec.coherent r) ->
  forall r, UpdateRoute.settled (UpdateRoute.on s e) = Some r ->
            UpdateSpec.coherent r.
Proof.
  intros Hs r.
  destruct e as [d|d|[[| |]|]|m]; simpl; try apply Hs;
    unfold UpdateRoute.resolve;
    destruct (UpdateRoute.settled s) as [r0|] eqn:E;
    try (intros Hr; apply Hs; congruence);
    simpl; intros Hr; injection Hr as <-; unfold UpdateSpec.coherent; simpl;
    first [left; repeat split; congruence | right; repeat split; congruence].
Qed.

(** X9. Whatever the child does and however the handler ends, an answer
    that reports success has status 200, carries the output and no error,
    and an answer that reports failure has status 500 and carries an error
    text. *)
Theorem POST_coherent (cwd : Exn.result UpdateRoute.thrown (list string))
    (events : list UpdateRoute.event) (r : UpdateRoute.response) :
  UpdateRoute.POST cwd events = Some r -> UpdateSpec.coherent r.
Proof.
  unfold UpdateRoute.POST. destruct cwd as [cwd|e]; simpl.
  - set (s0 := {| UpdateRoute.stdout := ""; UpdateRoute.stderr := "";
                  UpdateRoute.settled := None |}).
    assert (forall r0, UpdateRoute.settled s0 = Some r0 -> UpdateSpec.coherent r0)
      as H0 by (intros r0; discriminate).
    revert H0. generalize s0. clear s0.
    induction events as [|ev events IH]; intros s Hs Hr; simpl in Hr.
    + now apply Hs.
    + apply (IH (UpdateRoute.on s ev)); [|assumption].
      now apply on_coherent.
  - intros Hr. injection Hr as <-. right. simpl.
    repeat split; destruct e; discriminate.
Qed.

Lemma POST_coherent_witness :
  UpdateSpec.coherent
    {| UpdateRoute.status := 500;
       UpdateRoute.payload :=
         {| UpdateRoute.success := false;
            UpdateRoute.message := "Failed to start update process";
            UpdateRoute.error := Some "spawn python ENOENT";
            UpdateRoute.output := None |} |}.
Proof.
  apply (@POST_coherent (Exn.Returned Disk.cwd)
           [UpdateRoute.Error "spawn python ENOENT";
            UpdateRoute.Close (Some (-2)%Z)]).
  reflexivity.
Defined.

Lemma POST_settles_iff_witness :
  UpdateRoute.POST (Exn.Returned Disk.cwd)
    ([UpdateRoute.StdoutData "done"; UpdateRoute.Close (Some 0%Z)]
     ++ [UpdateRoute.Error "late"])
  = UpdateRoute.POST (Exn.Returned Disk.cwd)
      [UpdateRoute.StdoutData "done"; UpdateRoute.Close (Some 0%Z)].
Proof.
  apply (proj2 (POST_settles_iff Disk.cwd
                  [UpdateRoute.StdoutData "done"; UpdateRoute.Close (Some 0%Z)])).
  reflexivity.
Defined.

(* ================================================================== *)
(** * Loading and refreshing: what stays *)
(* ================================================================== *)

Lemma loadData_keeps_selection (env : Client.environment) (w : Client.world) :
  Client.selectedGames (Client.state (snd (Client.loadData env w)))
  = Client.selectedGames (Client.state w).
Proof.
  destruct env as [rp rb rpi ru clock], w as [[pp ba pa ld up lu sel] t].
  destruct rp as [|[] [dp|]], rb as [|[] [db|]], rpi as [|[] [dpi|]];
    client_unfold; reflexivity.
Qed.

(** X10. Loading twice in the same environment leaves the state the first
    load left: the reload is idempotent on the collections, the flags, the
    time stamp and the selection. *)
Theorem loadData_idempotent (env : Client.environment) (w : Client.world) :
  Client.state (snd (Client.loadData env (snd (Client.loadData env w))))
  = Client.state (snd (Client.loadData env w)).
Proof.
  destruct env as [rp rb rpi ru clock], w as [[pp ba pa ld up lu sel] t].
  destruct rp as [|[] [dp|]], rb as [|[] [db|]], rpi as [|[] [dpi|]];
    client_unfold; reflexivity.
Qed.

(** What Refresh does once the update route has answered with an object. *)
Lemma refreshData_reported (env : Client.environment) (w : Client.world)
    (ok success : bool) (message : string) :
  Client.updateRoute env
  = Client.Response ok (Some (Client.Object success message)) ->
  let result := Client.refreshData env w in
  if success
  then snd result
       = snd (Client.setUpdating false
                (snd (Client.loadData env (LoadSpec.refreshing w))))
  else Client.state (snd result)
       = Client.state (snd (Client.setUpdating false w))
       /\ exists added : list Client.effect,
            Client.trace (snd result) = Client.trace w ++ added
            /\ LoadSpec.alerts added = [("Data update failed: " ++ message)%string]
            /\ LoadSpec.requests added = ["/api/update"].
Proof.
  intros Hroute. cbv zeta.
  destruct (loadData_returns env (LoadSpec.refreshing w))
    as (Hload & added & Htrace).
  unfold LoadSpec.refreshing in *.
  destruct env as [rp rb rpi ru clock], w as [[pp ba pa ld up lu sel] t].
  simpl in Hroute. subst ru. destruct success; refresh_unfold.
  - rewrite <- !app_assoc. cbn [app].
    destruct (Client.loadData _ _) as [[[]|e'] [s1 t1]];
      [|simpl in Hload; discriminate].
    reflexivity.
  - rewrite <- !app_assoc. cbn [app].
    split; [reflexivity|]. eexists. split; [reflexivity|]. split; reflexivity.
Qed.

(** X11. Refresh never changes the selection of games.  When the update
    route reports failure, or the call or the decoding of its answer fails,
    the whole state is as before with the updating flag cleared: no
    collection, flag or time stamp changes. *)
Theorem refreshData_keeps_state (env : Client.environment) (w : Client.world) :
  let after := Client.state (snd (Client.refreshData env w)) in
  Client.selectedGames after = Client.selectedGames (Client.state w)
  /\ (LoadSpec.refreshFails (Client.updateRoute env) <> None ->
      after = Client.state (snd (Client.setUpdating false w))).
Proof.
  cbv zeta.
  pose proof (loadData_keeps_selection env (LoadSpec.refreshing w)) as Hsel.
  destruct (loadData_returns env (LoadSpec.refreshing w)) as (Hload & _).
  unfold LoadSpec.refreshing in *.
  destruct env as [rp rb rpi ru clock], w as [[pp ba pa ld up lu sel] t].
  destruct ru as [|ok [[|[] message]|]]; refresh_unfold.
  3: { rewrite <- !app_assoc. cbn [app].
       destruct (Client.loadData _ _) as [[[]|e'] [s1 t1]];
         [|simpl in Hload; discriminate].
       simpl in Hsel. split; [exact Hsel|].
       intros H. exfalso. apply H. reflexivity. }
  all: split; reflexivity.
Qed.

Lemma refreshData_keeps_state_witness :
  Client.state (snd (Client.refreshData Outage.env Outage.start))
  = Client.state (snd (Client.setUpdating false Outage.start)).
Proof.
  apply (proj2 (refreshData_keeps_state Outage.env Outage.start)).
  discriminate.
Defined.

(** X12. End to end: the page reloads its data exactly when the child
    process exits with status zero.  With any other exit, or when the child
    cannot be started, the page shows one alert, requests no data route and
    keeps its state, whatever the child wrote. *)
Theorem refresh_follows_exit_status (env : Client.environment) (w : Client.world)
    (cwd : list string) (chunks : list (UpdateRoute.stream * string))
    (ending : UpdateRoute.event) (later : list UpdateRoute.event)
    (r : UpdateRoute.response) :
  UpdateSpec.ends ending = true ->
  UpdateRoute.POST (Exn.Returned cwd)
    (map UpdateRoute.written chunks ++ ending :: later) = Some r ->
  Client.updateRoute env = Http.transport r ->
  let result := Client.refreshData env w in
  (ending = UpdateRoute.Close (Some 0%Z) ->
   snd result
   = snd (Client.setUpdating false
            (snd (Client.loadData env (LoadSpec.refreshing w)))))
  /\ (ending <> UpdateRoute.Close (Some 0%Z) ->
      Client.state (snd result) = Client.state (snd (Client.setUpdating false w))
      /\ exists added : list Client.effect,
           Client.trace (snd result) = Client.trace w ++ added
           /\ LoadSpec.alerts added
              = [match ending with
                 | UpdateRoute.Error _ =>
                     "Data update failed: Failed to start update process"
                 | _ => "Data update failed: Data update failed"
                 end]
           /\ LoadSpec.requests added = ["/api/update"]).
Proof.
  intros Hends Hpost Hroute.
  rewrite POST_ending in Hpost.
  2: { destruct ending; try discriminate; eauto. }
  unfold Http.transport in Hroute.
  pose proof (@refreshData_reported env w _ _ _ Hroute) as Hrep.
  cbv zeta in Hrep |- *.
  destruct ending as [d|d|code|m]; try discriminate.
  - destruct code as [[| |]|]; simpl in Hpost; injection Hpost as <-;
      simpl in Hrep; (split; [intros E; try discriminate E; exact Hrep|]);
      intros Hne; try exact Hrep.
    exfalso. now apply Hne.
  - simpl in Hpost. injection Hpost as <-. simpl in Hrep.
    split; [discriminate|]. intros _. exact Hrep.
Qed.

Lemma refresh_follows_exit_status_witness :
  let r := {| UpdateRoute.status := 200;
              UpdateRoute.payload :=
                {| UpdateRoute.success := true;
                   UpdateRoute.message := "Data update completed successfully";
                   UpdateRoute.error := None;
                   UpdateRoute.output := Some "ok" |} |} in
  let env := {| Client.projectionsRoute := Client.Response true (Some []);
                Client.batterRoute := Client.Response true (Some [Samples.highRow]);
                Client.pitcherRoute := Client.Response false None;
                Client.updateRoute := Http.transport r;
                Client.now := "11/2/2026, 10:05:00 AM" |} in
  snd (Client.refreshData env Outage.start)
  = snd (Client.setUpdating false
           (snd (Client.loadData env (LoadSpec.refreshing Outage.start)))).
Proof.
  intros r env.
  apply (proj1 (@refresh_follows_exit_status env Outage.start Disk.cwd
                  [(UpdateRoute.Out, "ok")] (UpdateRoute.Close (Some 0%Z)) [] r
                  eq_refl eq_refl eq_refl)).
  reflexivity.
Defined.

(* ================================================================== *)
(** * The badge colours *)
(* ================================================================== *)

Lemma toLowerCase_length (s : string) :
  String.length (Utils.toLowerCase s) = String.length s.
Proof. induction s as [|c s IH]; simpl; [reflexivity | now rewrite IH]. Qed.

Lemma lowerChar_idempotent (c : ascii) :
  Utils.lowerChar (Utils.lowerChar c) = Utils.lowerChar c.
Proof. destruct c as [[] [] [] [] [] [] [] []]; reflexivity. Qed.

Lemma toLowerCase_idempotent (s : string) :
  Utils.toLowerCase (Utils.toLowerCase s) = Utils.toLowerCase s.
Proof.
  induction s as [|c s IH]; simpl; [reflexivity|].
  now rewrite lowerChar_idempotent, IH.
Qed.

Lemma length_neq (s t : string) : String.length s <> String.length t -> s <> t.
Proof. intros H E. apply H. now rewrite E. Qed.

(** X13. The badge colour ignores the case of the confidence label, the
    ranking and the filters do not: a label that is High, Medium or Low up
    to case but not in that exact spelling gets the badge of the label it
    resembles, yet ranks as an unknown label (value 0), is never among the
    top pitcher opportunities and is not counted as high confidence. *)
Theorem badge_ignores_case_rank_does_not (label known : string) :
  In known ["High"; "Medium"; "Low"] ->
  Utils.toLowerCase label = Utils.toLowerCase known ->
  label <> known ->
  Utils.getConfidenceBadgeColor label = Utils.getConfidenceBadgeColor known
  /\ Page.confidenceValue label = JS.Num 0
  /\ (forall (p : PitcherAnalysis.t) (l : list PitcherAnalysis.t),
         PitcherAnalysis.CONFIDENCE p = label ->
         ~ In p (Page.topPitcherOpportunities l))
  /\ (forall (b : BatterAnalysis.t) (fba : list BatterAnalysis.t)
             (fpa : list PitcherAnalysis.t),
         BatterAnalysis.CONFIDENCE b = label ->
         Page.highConfidence (b :: fba) fpa = Page.highConfidence fba fpa).
Proof.
  intros Hknown Hlow Hne.
  assert (Hlen : String.length label = String.length known).
  { rewrite <- (toLowerCase_length label), Hlow. apply toLowerCase_length. }
  assert (Hother : forall other, In other ["High"; "Medium"; "Low"; "Avoid"] ->
                                 (label =? other) = false).
  { intros other Hin. apply String.eqb_neq.
    destruct (string_dec other known) as [->|Hd]; [assumption|].
    apply length_neq. rewrite Hlen.
    simpl in Hknown, Hin.
    destruct Hknown as [<-|[<-|[<-|[]]]];
      destruct Hin as [<-|[<-|[<-|[<-|[]]]]]; simpl; congruence. }
  assert (Hplain : ~ In label JS.objectPrototypeKeys).
  { intros Hin.
    assert (In (String.length label) (map String.length JS.objectPrototypeKeys))
      as Hl by now apply in_map.
    rewrite Hlen in Hl. simpl in Hknown, Hl.
    destruct Hknown as [<-|[<-|[<-|[]]]]; simpl in Hl;
      repeat (destruct Hl as [Hl|Hl]; [discriminate Hl|]); exact Hl. }
  assert (Hhigh : (label =? "High") = false) by (apply Hother; simpl; auto).
  assert (Hmed : (label =? "Medium") = false) by (apply Hother; simpl; auto).
  split; [unfold Utils.getConfidenceBadgeColor; now rewrite Hlow|].
  split.
  - rewrite (confidenceValue_plain Hplain). unfold Spec.confidenceRank.
    rewrite Hhigh, Hmed, (Hother "Low") by (simpl; auto). reflexivity.
  - split.
    + intros p l Hp Hin. unfold Page.topPitcherOpportunities, JS.slice0 in Hin.
      apply firstn_In, sort_In, filter_In in Hin. destruct Hin as [_ Hin].
      rewrite Hp, Hhigh, Hmed in Hin. discriminate.
    + intros b fba fpa Hb. unfold Page.highConfidence. simpl.
      now rewrite Hb, Hhigh.
Qed.

Lemma badge_ignores_case_rank_does_not_witness :
  Utils.getConfidenceBadgeColor "HIGH" = Utils.getConfidenceBadgeColor "High"
  /\ Page.confidenceValue "HIGH" = JS.Num 0.
Proof.
  assert (In "High" ["High"; "Medium"; "Low"]) as Hk by (now left).
  assert (Utils.toLowerCase "HIGH" = Utils.toLowerCase "High") as Hl
    by reflexivity.
  assert ("HIGH" <> "High") as Hn by discriminate.
  destruct (badge_ignores_case_rank_does_not Hk Hl Hn) as (H1 & H2 & _).
  split; [exact H1 | exact H2].
Defined.

Lemma prefix_occurs (sub s : string) :
  String.prefix sub s = true <-> exists post, s = (sub ++ post)%string.
Proof.
  revert s. induction sub as [|c sub IH]; intros s.
  - destruct s; simpl; split; try reflexivity; intros _; eauto.
  - destruct s as [|d s]; simpl.
    + split; [discriminate | intros [post H]; discriminate H].
    + destruct (ascii_dec c d) as [->|Hne].
      * rewrite IH. split; intros [post H]; exists post;
          [now rewrite H | now injection H].
      * split; [discriminate|]. intros [post H]. injection H as H1 H2.
        congruence.
Qed.

Lemma includes_occurs (s sub : string) :
  Utils.includes s sub = true <-> BadgeSpec.occurs sub s.
Proof.
  unfold BadgeSpec.occurs. induction s as [|c s IH].
  - change (Utils.includes "" sub) with (String.prefix sub "" || false).
    rewrite orb_false_r, prefix_occurs. split.
    + intros [post H]. now exists "", post.
    + intros [pre [post H]]. destruct pre; simpl in H; [now exists post|].
      discriminate H.
  - change (Utils.includes (String c s) sub)
      with (String.prefix sub (String c s) || Utils.includes s sub).
    rewrite orb_true_iff, prefix_occurs, IH. split.
    + intros [[post H]|[pre [post H]]].
      * now exists "", post.
      * exists (String c pre), post. simpl. now rewrite H.
    + intros [pre [post H]]. destruct pre as [|d pre]; simpl in H.
      * left. now exists post.
      * right. injection H as _ H. now exists pre, post.
Qed.

(** X14. The recommendation badge is blue exactly when the text, case
    ignored, contains "over" anywhere (also inside another word, and also
    when it contains "under" as well); it is purple exactly when it contains
    "under" but not "over", and gray otherwise.  Changing the case of the
    text does not change the colour. *)
Theorem getRecommendationColor_spec (recommendation : string) :
  let text := Utils.toLowerCase recommendation in
  (Utils.getRecommendationColor recommendation = BadgeSpec.blue
   <-> BadgeSpec.occurs "over" text)
  /\ (Utils.getRecommendationColor recommendation = BadgeSpec.purple
      <-> BadgeSpec.occurs "under" text /\ ~ BadgeSpec.occurs "over" text)
  /\ (Utils.getRecommendationColor recommendation = BadgeSpec.gray
      <-> ~ BadgeSpec.occurs "under" text /\ ~ BadgeSpec.occurs "over" text)
  /\ Utils.getRecommendationColor text
     = Utils.getRecommendationColor recommendation.
Proof.
  cbv zeta. unfold Utils.getRecommendationColor.
  rewrite toLowerCase_idempotent.
  rewrite <- !includes_occurs.
  destruct (Utils.includes (Utils.toLowerCase recommendation) "over");
    destruct (Utils.includes (Utils.toLowerCase recommendation) "under");
    unfold BadgeSpec.blue, BadgeSpec.purple, BadgeSpec.gray;
    repeat split; try discriminate; try reflexivity;
    try (intros [H1 H2]; congruence); intros H; try discriminate H.
Qed.

(* ================================================================== *)
(** * Selecting and filtering together *)
(* ================================================================== *)

(** X15. Selecting one more game, beside games already selected, adds the
    rows of that game to the filtered projections and hides none.
    Deselecting the only selected game shows every row again. *)
Theorem selection_grows_view (game : string) (selected : list string)
    (playerProjections : list PlayerProjection.t) :
  game <> "all" ->
  (selected <> [] -> ~ In game selected ->
   forall p,
     In p (Page.filteredPlayerProjections
             (Selection.handleGameFilterChange game selected) playerProjections)
     <-> In p (Page.filteredPlayerProjections selected playerProjections)
         \/ (In p playerProjections /\ PlayerProjection.GAME p = game))
  /\ Page.filteredPlayerProjections
       (Selection.handleGameFilterChange game [game]) playerProjections
     = playerProjections.
Proof.
  intros Hall. split.
  - intros Hsel Hnot p.
    rewrite (toggle_unfold selected Hall).
    destruct (JS.includes selected game) eqn:E;
      [apply includes_In in E; contradiction|].
    destruct selected as [|g0 rest]; [congruence|].
    unfold Page.filteredPlayerProjections.
    change (List.length (g0 :: rest) =? 0)%nat with false.
    change (List.length ((g0 :: rest) ++ [game]) =? 0)%nat with false.
    cbv iota. rewrite !filter_In, !includes_In, in_app_iff. simpl.
    intuition congruence.
  - rewrite (toggle_unfold [game] Hall).
    assert (JS.includes [game] game = true) as ->
      by (apply includes_In; now left).
    simpl. rewrite String.eqb_refl. reflexivity.
Qed.

Lemma selection_grows_view_witness :
  Page.filteredPlayerProjections
    (Selection.handleGameFilterChange "NYY @ BOS" ["NYY @ BOS"])
    (Render.heldProjections Mounted.state Mounted.heap)
  = Render.heldProjections Mounted.state Mounted.heap.
Proof.
  assert ("NYY @ BOS" <> "all") as Hall by discriminate.
  exact (proj2 (selection_grows_view [] _ Hall)).
Defined.

(* ================================================================== *)
(** * The check marks of the projections table *)
(* ================================================================== *)

(** X16. In the projections table the flagged rows come first: when the
    hit fields are numeric or the placeholder, no row without a check mark
    stands above a row with one. *)
Theorem flagged_rows_first (filteredPlayerProjections : list PlayerProjection.t) :
  Forall Spec.numericOrPlaceholder filteredPlayerProjections ->
  StronglySorted (fun above below => fst below = true -> fst above = true)
    (Page.projectionTable filteredPlayerProjections).
Proof.
  intros Hok. unfold Page.projectionTable, JS.slice0.
  destruct (projection_sort_orderedBy Hok) as (_ & Hs & _).
  apply (firstn_sorted 50) in Hs.
  induction Hs as [|p l Hs IH Hp]; simpl; constructor; [assumption|].
  rewrite Forall_forall in *. intros row Hrow.
  apply in_map_iff in Hrow. destruct Hrow as [q [<- Hq]]. simpl.
  rewrite !flagged_iff. intros Hq'.
  apply ge_trans with (Spec.hitCount q); [now apply Hp | assumption].
Qed.

Lemma flagged_rows_first_witness :
  StronglySorted (fun above below => fst below = true -> fst above = true)
    (Page.projectionTable (Render.heldProjections Mounted.state Mounted.heap)).
Proof.
  apply flagged_rows_first.
  repeat apply Forall_cons; try apply Forall_nil;
    unfold Spec.numericOrPlaceholder;
    cbn [PlayerProjection.H Samples.projectionRow];
    try (now left); right; vm_compute; discriminate.
Defined.

(* ================================================================== *)
(** * The page in front of the data routes *)
(* ================================================================== *)

Lemma served_GET {A} (parse : string -> option A) (r : DataRoute.resource)
    (cwd : DataRoute.path) (fs : DataRoute.fileSystem) :
  Wire.served (DataRoute.GET parse r cwd fs)
  = match Wire.decoded parse cwd fs r with
    | Some data => Client.Response true (Some data)
    | None => Client.Response false None
    end.
Proof.
  rewrite GET_cases. unfold Wire.decoded, Wire.served.
  destruct (fs (cwd ++ DataRoute.fileSegments r)) as [text|e];
    [|reflexivity].
  destruct (parse text); reflexivity.
Qed.

(** X17. With the server reachable, Load takes every collection whose file
    can be read and parsed and keeps the previous value of every other one:
    a missing or malformed file affects its own collection only.  The time
    is stamped and the loading flag cleared in every such case. *)
Theorem loadData_from_routes
    (parseProjections : string -> option (list PlayerProjection.t))
    (parseBatters : string -> option (list BatterAnalysis.t))
    (parsePitchers : string -> option (list PitcherAnalysis.t))
    (cwd : DataRoute.path) (fs : DataRoute.fileSystem)
    (update : Client.fetched Client.updateResult) (clock : string)
    (w : Client.world) :
  let env := Wire.environment parseProjections parseBatters parsePitchers
                              cwd fs update clock in
  let before := Client.state w in
  let after := Client.state (snd (Client.loadData env w)) in
  Client.playerProjections after
  = Wire.orPrevious (Wire.decoded parseProjections cwd fs DataRoute.projections)
                    (Client.playerProjections before)
  /\ Client.batterAnalysis after
     = Wire.orPrevious (Wire.decoded parseBatters cwd fs DataRoute.batterAnalysis)
                       (Client.batterAnalysis before)
  /\ Client.pitcherAnalysis after
     = Wire.orPrevious (Wire.decoded parsePitchers cwd fs DataRoute.pitcherAnalysis)
                       (Client.pitcherAnalysis before)
  /\ Client.lastUpdated after = clock
  /\ Client.loading after = false.
Proof.
  cbv zeta. unfold Wire.environment. rewrite !served_GET.
  destruct (Wire.decoded parseProjections cwd fs DataRoute.projections),
    (Wire.decoded parseBatters cwd fs DataRoute.batterAnalysis),
    (Wire.decoded parsePitchers cwd fs DataRoute.pitcherAnalysis);
    destruct w as [[pp ba pa ld up lu sel] t];
    client_unfold; unfold Wire.orPrevious; repeat split.
Qed.
